(** * A shallow embedding of the MPQ archive reader (package mpq)

    The development follows the Go source: [diveIn] (the opener behind
    [New] and [NewFromFile]) and [FileByHash] / [FileByName].

    - unsigned 32-bit values are [Z] with the wrap-around written out;
    - the input ([io.ReadSeeker]) is an in-memory byte source with a read
      position, as [bytes.NewReader] gives;
    - Go functions that may panic or loop return an [outcome];
    - the archive handle is threaded through a small state monad, so that
      every effect of a call on the handle is visible. *)

From Stdlib Require Import ZArith List Lia Bool String Ascii.
From Stdlib Require Import Strings.Byte.
Import ListNotations.
Open Scope Z_scope.

(** ** Machine integers *)

Definition u32 (x : Z) : Z := x mod 2 ^ 32.
Definition add32 (a b : Z) : Z := u32 (a + b).
Definition sub32 (a b : Z) : Z := u32 (a - b).
Definition mul32 (a b : Z) : Z := u32 (a * b).
Definition shl32 (a s : Z) : Z := u32 (Z.shiftl a s).

(** [int64(x)] for an unsigned 64-bit [x]. *)
Definition int64_of_u64 (x : Z) : Z := if x <? 2 ^ 63 then x else x - 2 ^ 64.

(** ** Bytes and slices *)

Definition byteZ (b : byte) : Z := Z.of_N (Byte.to_N b).

Definition Zbyte (x : Z) : byte :=
  match Byte.of_N (Z.to_N (x mod 256)) with
  | Some b => b
  | None => x00
  end.

(** [binary.LittleEndian] decoding of a byte slice. *)
Fixpoint le_decode (bs : list byte) : Z :=
  match bs with
  | [] => 0
  | b :: bs' => byteZ b + 256 * le_decode bs'
  end.

Definition len {A} (l : list A) : Z := Z.of_nat (List.length l).

(** [s[i]]; [None] stands for the run-time panic "index out of range". *)
Definition index {A} (l : list A) (i : Z) : option A :=
  if i <? 0 then None else nth_error l (Z.to_nat i).

(** [s[i] = v] on a slice that has index [i]. *)
Fixpoint set_nth {A} (l : list A) (n : nat) (v : A) : list A :=
  match l, n with
  | [], _ => []
  | _ :: t, O => v :: t
  | x :: t, S n' => x :: set_nth t n' v
  end.

Definition store {A} (l : list A) (i : Z) (v : A) : option (list A) :=
  if (0 <=? i) && (i <? len l) then Some (set_nth l (Z.to_nat i) v) else None.

(** [make([]T, n)] with the zero value [z]. *)
Definition make {A} (z : A) (n : Z) : list A := repeat z (Z.to_nat n).

(** ** Errors and outcomes *)

Inductive error : Type :=
| ErrInvalidArchive                 (* errors.New("Invalid MPQ Archive") *)
| io_EOF                            (* io.EOF *)
| io_ErrUnexpectedEOF               (* io.ErrUnexpectedEOF *)
| ErrNegativePosition               (* Seek to a negative offset *)
| ErrDecompress (code : Z).         (* whatever decompressMulti reports *)

Inductive panic_kind : Type :=
| IndexOutOfRange
| SliceBoundsOutOfRange
| DivideByZero.

Inductive outcome (A : Type) : Type :=
| Ret (a : A)
| Panic (p : panic_kind)
| OutOfFuel.
Arguments Ret {A} a.
Arguments Panic {A} p.
Arguments OutOfFuel {A}.

(** ** The input: a seekable byte source *)

Record Reader : Type := mkReader { data : list byte; pos : Z }.

Definition NewReader (b : list byte) : Reader := mkReader b 0.

(** Bytes not yet read. *)
Definition rest (r : Reader) : list byte :=
  if len (data r) <=? pos r then [] else skipn (Z.to_nat (pos r)) (data r).

(** [Seek(offset, 0)]: only a negative position is refused. *)
Definition Reader_Seek (r : Reader) (off : Z) : option error * Reader :=
  if off <? 0 then (Some ErrNegativePosition, r)
  else (None, mkReader (data r) off).

(** [io.ReadFull(r, buf)] with [len(buf) = n]: the bytes obtained, the error,
    the reader afterwards. *)
Definition Reader_ReadFull (r : Reader) (n : Z) : list byte * option error * Reader :=
  let avail := rest r in
  if n <=? 0 then ([], None, r)
  else if len avail =? 0 then ([], Some io_EOF, r)
  else if len avail <? n then
    (avail, Some io_ErrUnexpectedEOF, mkReader (data r) (pos r + len avail))
  else (firstn (Z.to_nat n) avail, None, mkReader (data r) (pos r + n)).

(** [binary.Read(r, binary.LittleEndian, &x)] for an unsigned integer of
    [w] bytes: on an error [x] keeps its [old] value. *)
Definition Reader_binary_Read (r : Reader) (w : Z) (old : Z) : Z * option error * Reader :=
  match Reader_ReadFull r w with
  | (bs, None, r') => (le_decode bs, None, r')
  | (_, Some e, r') => (old, Some e, r')
  end.

(** ** The data model (the structs of the source) *)

Record UserData : Type := mkUserData {
  u_size : Z;                (* uint32 *)
  u_headerOffset : Z;        (* uint32 *)
  u_data : list byte
}.

Record Header : Type := mkHeader {
  h_size : Z;                    (* uint32 *)
  archiveSize : Z;               (* uint32 *)
  formatVersion : Z;             (* uint16 *)
  sectorSizeShift : Z;           (* uint16 *)
  hashTableOffset : Z;           (* uint32 *)
  blockTableOffset : Z;          (* uint32 *)
  hashTableEntries : Z;          (* uint32 *)
  blockTableEntries : Z;         (* uint32 *)
  extendedBlockTableOffset : Z;  (* uint64 *)
  hashTableOffsetHigh : Z;       (* uint16 *)
  blockTableOffsetHigh : Z       (* uint16 *)
}.

Record HashEntry : Type := mkHashEntry {
  filePathHashA : Z;   (* uint32 *)
  filePathHashB : Z;   (* uint32 *)
  language : Z;        (* uint16 *)
  platform : Z;        (* uint16 *)
  fileBlockIndex : Z   (* uint32 *)
}.

Record BlockEntry : Type := mkBlockEntry {
  blockOffset : Z;     (* uint32 *)
  be_blockSize : Z;    (* uint32, the field blockSize of blockEntry *)
  fileSize : Z;        (* uint32 *)
  flags : Z            (* uint32 *)
}.

(** The handle.  The field [file] of the source (the optional [*os.File]) only
    matters to [Close] and is left out. *)
Record MPQ : Type := mkMPQ {
  input : Reader;
  userData : option UserData;
  header : Header;
  hashTable : list HashEntry;
  blockTable : list BlockEntry;
  extBlockEntryHighOffsets : option (list Z);   (* nil or a []uint16 *)
  blockSize : Z;                                (* uint32 *)
  blockEntryIndices : list Z;                   (* []int *)
  filesCount : Z                                (* uint32 *)
}.

Definition zeroHeader : Header := mkHeader 0 0 0 0 0 0 0 0 0 0 0.
Definition zeroHashEntry : HashEntry := mkHashEntry 0 0 0 0 0.
Definition zeroBlockEntry : BlockEntry := mkBlockEntry 0 0 0 0.

(** [&MPQ{input: input}] *)
Definition newMPQ (i : Reader) : MPQ :=
  mkMPQ i None zeroHeader [] [] None 0 [] 0.

(** blockEntry.flag bitmask constants. *)
Definition beFlagFile : Z := 0x80000000.
Definition beFlagSingle : Z := 0x01000000.
Definition beFlagExtra : Z := 0x04000000.
Definition beFlagCompressed : Z := 0x0000FF00.
Definition beFlagPKWare : Z := 0x00000100.
Definition beFlagCompressedMulti : Z := 0x00000200.
Definition beFlagEncrypted : Z := 0x00010000.

Definition userDataMagic : list byte := [x4d; x50; x51; x1b].
Definition headerMagic : list byte := [x4d; x50; x51; x1a].

Definition bytes_eqb (a b : list byte) : bool :=
  if list_eq_dec Byte.byte_eq_dec a b then true else false.

(** ** The monad of a method call: the handle is the state *)

Definition M (A : Type) : Type := MPQ -> outcome A * MPQ.

Definition ret {A} (a : A) : M A := fun m => (Ret a, m).

Definition bind {A B} (c : M A) (k : A -> M B) : M B :=
  fun m =>
    match c m with
    | (Ret a, m') => k a m'
    | (Panic p, m') => (Panic p, m')
    | (OutOfFuel, m') => (OutOfFuel, m')
    end.

Definition get : M MPQ := fun m => (Ret m, m).
Definition put (m' : MPQ) : M unit := fun _ => (Ret tt, m').
Definition throw {A} (p : panic_kind) : M A := fun m => (Panic p, m).
Definition spin {A} : M A := fun m => (OutOfFuel, m).

Declare Scope go_scope.
Delimit Scope go_scope with go.
Notation "x <- c ;; k" := (bind c (fun x => k))
  (at level 61, c at next level, right associativity) : go_scope.
Notation "' p <- c ;; k" := (bind c (fun x => let p := x in k))
  (at level 61, p pattern, c at next level, right associativity) : go_scope.
Notation "c ;;; k" := (bind c (fun _ => k))
  (at level 61, right associativity) : go_scope.
Open Scope go_scope.

Definition set_input (m : MPQ) (r : Reader) : MPQ :=
  mkMPQ r (userData m) (header m) (hashTable m) (blockTable m)
        (extBlockEntryHighOffsets m) (blockSize m) (blockEntryIndices m)
        (filesCount m).

(** [in.Seek(off, 0)], [io.ReadFull(in, buf)] and [binary.Read(in, ...)] on
    the input of the handle. *)
Definition Seek (off : Z) : M (option error) :=
  fun m => let '(e, r) := Reader_Seek (input m) off in (Ret e, set_input m r).

Definition ReadFull (n : Z) : M (list byte * option error) :=
  fun m => let '(bs, e, r) := Reader_ReadFull (input m) n in
           (Ret (bs, e), set_input m r).

Definition binary_Read (w old : Z) : M (Z * option error) :=
  fun m => let '(v, e, r) := Reader_binary_Read (input m) w old in
           (Ret (v, e), set_input m r).

Definition set_userData (u : option UserData) (m : MPQ) : MPQ :=
  mkMPQ (input m) u (header m) (hashTable m) (blockTable m)
        (extBlockEntryHighOffsets m) (blockSize m) (blockEntryIndices m)
        (filesCount m).

Definition modify (f : MPQ -> MPQ) : M unit := fun m => (Ret tt, f m).

Definition is_nil {A} (e : option A) : bool :=
  match e with None => true | Some _ => false end.

(** ** Opening an archive: [diveIn] *)

(** The closure [read] of [diveIn]: a no-op once [err] is set; the target
    is a zero-initialised field. *)
Definition read (err : option error) (w : Z) : M (Z * option error) :=
  match err with
  | Some e => ret (0, Some e)
  | None => binary_Read w 0
  end.

(** The loop that fills [m.hashTable] from [r]; read errors are ignored. *)
Fixpoint parseHashTable (n : nat) (r : Reader) : list HashEntry * Reader :=
  match n with
  | O => ([], r)
  | S n' =>
      let '(a, _, r) := Reader_binary_Read r 4 0 in
      let '(b, _, r) := Reader_binary_Read r 4 0 in
      let '(l, _, r) := Reader_binary_Read r 2 0 in
      let '(p, _, r) := Reader_binary_Read r 2 0 in
      let '(f, _, r) := Reader_binary_Read r 4 0 in
      let '(t, r) := parseHashTable n' r in
      (mkHashEntry a b l p f :: t, r)
  end.

(** The loop that fills [m.blockTable] from [r]; read errors are ignored. *)
Fixpoint parseBlockTable (n : nat) (r : Reader) : list BlockEntry * Reader :=
  match n with
  | O => ([], r)
  | S n' =>
      let '(o, _, r) := Reader_binary_Read r 4 0 in
      let '(s, _, r) := Reader_binary_Read r 4 0 in
      let '(f, _, r) := Reader_binary_Read r 4 0 in
      let '(g, _, r) := Reader_binary_Read r 4 0 in
      let '(t, r) := parseBlockTable n' r in
      (mkBlockEntry o s f g :: t, r)
  end.

(** The loop over [m.extBlockEntryHighOffsets]: every element is read from
    [r], and [err] is the error of the last read. *)
Fixpoint readExtOffsets (n : nat) (r : Reader) (err : option error)
  : list Z * option error * Reader :=
  match n with
  | O => ([], err, r)
  | S n' =>
      let '(v, e, r) := Reader_binary_Read r 2 0 in
      let '(t, e', r') := readExtOffsets n' r e in
      (v :: t, e', r')
  end.

(** The loop that counts the files and records their block indices; [bt] is
    the part of the block table from index [i] on. *)
Fixpoint countFiles (bt : list BlockEntry) (i : Z) (indices : list Z)
  (count : Z) : list Z * Z :=
  match bt with
  | [] => (indices, count)
  | be :: bt' =>
      if negb (Z.land (flags be) beFlagFile =? 0)
      then countFiles bt' (i + 1) (set_nth indices (Z.to_nat count) i)
                      (add32 count 1)
      else countFiles bt' (i + 1) indices count
  end.

(** The optional User Data section: the result is the error [diveIn] returns
    at once, or the header's magic and [headerOffset]. *)
Definition readUserData : M (error + list byte * Z) :=
  '(size, err) <- read None 4 ;;
  '(hoff, err) <- read err 4 ;;
  '(udata, err) <- match err with
                   | None => ReadFull size
                   | Some e => ret ([], Some e)
                   end ;;
  if negb (is_nil err) then ret (inl ErrInvalidArchive) else
  modify (set_userData (Some (mkUserData size hoff udata))) ;;;
  let headerOffset := hoff in
  err <- Seek headerOffset ;;
  if negb (is_nil err) then ret (inl ErrInvalidArchive) else
  '(magic, err) <- ReadFull 4 ;;
  match err with
  | Some e => ret (inl e)
  | None => ret (inr (magic, headerOffset))
  end.

(** The fields of the header, in the order of the source. *)
Definition readHeader : M (error + Header) :=
  '(size, err) <- read None 4 ;;
  '(asize, err) <- read err 4 ;;
  '(version, err) <- read err 2 ;;
  '(shift, err) <- read err 2 ;;
  '(hto, err) <- read err 4 ;;
  '(bto, err) <- read err 4 ;;
  '(hte, err) <- read err 4 ;;
  '(bte, err) <- read err 4 ;;
  if negb (is_nil err) then ret (inl ErrInvalidArchive) else
  '(ext, hi_h, hi_b, err) <-
     (if version >? 0 then
        '(ext, err) <- read err 8 ;;
        '(hi_h, err) <- read err 2 ;;
        '(hi_b, err) <- read err 2 ;;
        ret (ext, hi_h, hi_b, err)
      else ret (0, 0, 0, err)) ;;
  if negb (is_nil err) then ret (inl ErrInvalidArchive) else
  ret (inr (mkHeader size asize version shift hto bto hte bte ext hi_h hi_b)).

(** [int64] addition. *)
Definition add64 (a b : Z) : Z := (a + b + 2 ^ 63) mod 2 ^ 64 - 2 ^ 63.

Definition set_header (h : Header) (bs : Z) (m : MPQ) : MPQ :=
  mkMPQ (input m) (userData m) h (hashTable m) (blockTable m)
        (extBlockEntryHighOffsets m) bs (blockEntryIndices m) (filesCount m).

Definition set_hashTable (t : list HashEntry) (m : MPQ) : MPQ :=
  mkMPQ (input m) (userData m) (header m) t (blockTable m)
        (extBlockEntryHighOffsets m) (blockSize m) (blockEntryIndices m)
        (filesCount m).

Definition set_blockTable (t : list BlockEntry) (m : MPQ) : MPQ :=
  mkMPQ (input m) (userData m) (header m) (hashTable m) t
        (extBlockEntryHighOffsets m) (blockSize m) (blockEntryIndices m)
        (filesCount m).

Definition set_ext (e : option (list Z)) (m : MPQ) : MPQ :=
  mkMPQ (input m) (userData m) (header m) (hashTable m) (blockTable m)
        e (blockSize m) (blockEntryIndices m) (filesCount m).

Definition set_files (idx : list Z) (n : Z) (m : MPQ) : MPQ :=
  mkMPQ (input m) (userData m) (header m) (hashTable m) (blockTable m)
        (extBlockEntryHighOffsets m) (blockSize m) idx n.

Section Opener.

(** [decrypt(data, key)] of the package (its file is not part of the
    sources at hand): it rewrites the buffer in place, so that the buffer
    keeps its length. *)
Variable decrypt : list byte -> Z -> list byte.

(** The extended block table (the last [if] of [diveIn] but one); [r] is the
    reader over the block-table buffer. *)
Definition readExtBlockTable (h : Header) (headerOffset : Z) (r : Reader)
  : M (option error) :=
  if extendedBlockTableOffset h >? 0 then
    err <- Seek (add64 (int64_of_u64 (extendedBlockTableOffset h)) headerOffset) ;;
    if negb (is_nil err) then ret (Some ErrInvalidArchive) else
    let '(offs, err, _) :=
      readExtOffsets (Z.to_nat (blockTableEntries h)) r err in
    modify (set_ext (Some offs)) ;;;
    if negb (is_nil err) then ret (Some ErrInvalidArchive) else ret None
  else ret None.

(** [diveIn] from the assignment [m.header = h] on. *)
Definition readTables (h : Header) (headerOffset : Z) : M (option error) :=
  modify (set_header h (shl32 512 (sectorSizeShift h))) ;;;
  let cap := if hashTableEntries h >? blockTableEntries h
             then mul32 (hashTableEntries h) 16
             else mul32 (blockTableEntries h) 16 in
  (* Read Hash table *)
  err <- Seek (add64 (add64 (Z.shiftl (hashTableOffsetHigh h) 32)
                            (hashTableOffset h)) headerOffset) ;;
  if negb (is_nil err) then ret (Some ErrInvalidArchive) else
  if mul32 (hashTableEntries h) 16 >? cap then throw SliceBoundsOutOfRange else
  '(buf, err) <- ReadFull (mul32 (hashTableEntries h) 16) ;;
  if negb (is_nil err) then ret (Some ErrInvalidArchive) else
  let buf := decrypt buf 0xc3af3770 in
  let '(ht, _) := parseHashTable (Z.to_nat (hashTableEntries h)) (NewReader buf) in
  modify (set_hashTable ht) ;;;
  (* Read Block table *)
  err <- Seek (add64 (add64 (Z.shiftl (blockTableOffsetHigh h) 32)
                            (blockTableOffset h)) headerOffset) ;;
  if negb (is_nil err) then ret (Some ErrInvalidArchive) else
  if mul32 (blockTableEntries h) 16 >? cap then throw SliceBoundsOutOfRange else
  '(buf, err) <- ReadFull (mul32 (blockTableEntries h) 16) ;;
  if negb (is_nil err) then ret (Some ErrInvalidArchive) else
  let buf := decrypt buf 0xec83b3a3 in
  let '(bt, r) := parseBlockTable (Z.to_nat (blockTableEntries h)) (NewReader buf) in
  modify (set_blockTable bt) ;;;
  err <- readExtBlockTable h headerOffset r ;;
  match err with
  | Some e => ret (Some e)
  | None =>
      (* Count valid files in the archive *)
      let '(idx, n) := countFiles bt 0 (make 0 (blockTableEntries h)) 0 in
      modify (set_files idx n) ;;;
      ret None
  end.

(** [diveIn]: the result is the error returned with a nil handle, or [None]
    when the handle (the state) is returned. *)
Definition diveIn : M (option error) :=
  '(magic, err) <- ReadFull 4 ;;
  match err with
  | Some e => ret (Some e)
  | None =>
      s <- (if bytes_eqb magic userDataMagic then readUserData
            else ret (inr (magic, 0))) ;;
      match s with
      | inl e => ret (Some e)
      | inr (magic, headerOffset) =>
          if negb (bytes_eqb magic headerMagic) then ret (Some ErrInvalidArchive) else
          h <- readHeader ;;
          match h with
          | inl e => ret (Some e)
          | inr h => readTables h headerOffset
          end
      end
  end.

(** [New(input)]: the handle and the error of the source's result pair. *)
Definition New (i : Reader) : outcome (option MPQ * option error) :=
  match diveIn (newMPQ i) with
  | (Ret None, m) => Ret (Some m, None)
  | (Ret (Some e), _) => Ret (None, Some e)
  | (Panic p, _) => Panic p
  | (OutOfFuel, _) => OutOfFuel
  end.

End Opener.

(** ** Reading a file: [FileByHash] *)

(** [s[lo:hi]] of a slice whose capacity is its length; [None] is the panic
    "slice bounds out of range". *)
Definition slice {A} (l : list A) (lo hi : Z) : option (list A) :=
  if (0 <=? lo) && (lo <=? hi) && (hi <=? len l)
  then Some (firstn (Z.to_nat (hi - lo)) (skipn (Z.to_nat lo) l))
  else None.

(** [copy(dst, src)]: the new content of [dst]. *)
Definition copy (dst src : list byte) : list byte :=
  let n := Nat.min (List.length dst) (List.length src) in
  firstn n src ++ skipn n dst.

(** The hash-table probe of [FileByHash]; one unit of [fuel] per round of the
    [for] loop.  [None] is the [break] at a never-used entry, [Some e] the
    entry at the comment FOUND. *)
Fixpoint probe (fuel : nat) (h2 h3 : Z) (i : Z) : M (option HashEntry) :=
  match fuel with
  | O => spin
  | S fuel' =>
      m <- get ;;
      let i := if i =? hashTableEntries (header m) then 0 else i in
      match index (hashTable m) i with
      | None => throw IndexOutOfRange
      | Some hashEntry =>
          if fileBlockIndex hashEntry =? 0xffffffff then ret None
          else if negb (filePathHashA hashEntry =? h2)
                  || negb (filePathHashB hashEntry =? h3)
          then probe fuel' h2 h3 (add32 i 1)
          else ret (Some hashEntry)
      end
  end.

(** The loop [for j := uint32(0); j < fileBlockIndex; j++] that counts the
    entries of the block table that are not files; [bt] is the block table
    from index [j] on, and [None] is the panic of [m.blockTable[j]] past its
    end. *)
Fixpoint countNonFiles (bt : list BlockEntry) (j fbi counter : Z) : option Z :=
  match bt with
  | [] => if j <? fbi then None else Some counter
  | be :: bt' =>
      if j <? fbi
      then countNonFiles bt' (j + 1) fbi
             (if Z.land (flags be) beFlagFile =? 0 then add32 counter 1
              else counter)
      else Some counter
  end.

(** From the matching hash entry to the block of the file: [None] is the
    [return nil, nil] of an out-of-range file index. *)
Definition resolve (hashEntry : HashEntry) : M (option (Z * BlockEntry)) :=
  m <- get ;;
  match countNonFiles (blockTable m) 0 (fileBlockIndex hashEntry) 0 with
  | None => throw IndexOutOfRange
  | Some counter =>
      let fileIndex := sub32 (fileBlockIndex hashEntry) counter in
      if (fileIndex <? 0) || (fileIndex >=? filesCount m) then ret None else
      match index (blockEntryIndices m) fileIndex with
      | None => throw IndexOutOfRange
      | Some blockEntryIndex =>
          match index (blockTable m) blockEntryIndex with
          | None => throw IndexOutOfRange
          | Some blockEntry => ret (Some (blockEntryIndex, blockEntry))
          end
      end
  end.

(** The directory lookup: the first part of [FileByHash], up to the block
    containing the file. *)
Definition lookup (fuel : nat) (h1 h2 h3 : Z) : M (option (Z * BlockEntry)) :=
  m <- get ;;
  let hashTableEntries := hashTableEntries (header m) in
  e <- probe fuel h2 h3 (Z.land h1 (sub32 hashTableEntries 1)) ;;
  match e with
  | None => ret None
  | Some hashEntry => resolve hashEntry
  end.

Definition has (be : BlockEntry) (flag : Z) : bool :=
  negb (Z.land (flags be) flag =? 0).

(** [blocksCount]; [None] is the panic of the division by a zero block size. *)
Definition blocksCount_of (be : BlockEntry) (bs : Z) : option Z :=
  if has be beFlagSingle then Some 1
  else if bs =? 0 then None
  else Some (sub32 (add32 (fileSize be) bs) 1 / bs).

(** [unpackedSize] of block [k]. *)
Definition unpackedSize_of (be : BlockEntry) (bs blocksCount k : Z) : Z :=
  if has be beFlagSingle then fileSize be
  else if k <? sub32 blocksCount 1 then bs
  else sub32 (fileSize be) (mul32 bs k).

(** [for k := range packedBlockOffsets { err = binary.Read(in, ...) }] *)
Fixpoint loadOffsets (n : nat) (err : option error) : M (list Z * option error) :=
  match n with
  | O => ret ([], err)
  | S n' =>
      '(v, e) <- binary_Read 4 0 ;;
      '(t, e') <- loadOffsets n' e ;;
      ret (v :: t, e')
  end.

(** [for k := uint32(0); k < blocksCount; k++ { packedBlockOffsets[k] = k * m.blockSize }],
    with [n] rounds left. *)
Fixpoint fillOffsets (n : nat) (k bs : Z) (pbo : list Z) : option (list Z) :=
  match n with
  | O => Some pbo
  | S n' =>
      match store pbo k (mul32 k bs) with
      | None => None
      | Some pbo' => fillOffsets n' (k + 1) bs pbo'
      end
  end.

Definition result : Type := option (list byte) * option error.

Section Assembler.

(** [decompressMulti(dst, src)] and [FileNameHash(name)] of the package
    (their files are not part of the sources at hand).  [decompressMulti]
    gets the window [dst] of the content and gives what it left in the
    window and its error. *)
Variable decompressMulti : list byte -> list byte -> list byte * option error.
Variable FileNameHash : string -> Z * Z * Z.

(** The loop over the blocks of the file, [n] rounds left. *)
Fixpoint readBlocks (n : nat) (k : Z) (blockEntry : BlockEntry)
  (blocksCount blockOffsetBase : Z) (packedBlockOffsets : list Z)
  (content : list byte) (contentIndex : Z) : M result :=
  match n with
  | O => ret (Some content, None)
  | S n' =>
      m <- get ;;
      (* Unpacked size of the block *)
      let unpackedSize :=
        unpackedSize_of blockEntry (blockSize m) blocksCount k in
      (* Read block *)
      match index packedBlockOffsets (k + 1), index packedBlockOffsets k with
      | Some hi, Some lo =>
          let inSize := sub32 hi lo in
          err <- Seek (add64 blockOffsetBase lo) ;;
          if negb (is_nil err) then ret (None, Some ErrInvalidArchive) else
          '(inBuffer, err) <- ReadFull inSize ;;
          if negb (is_nil err) then ret (None, Some ErrInvalidArchive) else
          (* Check encryption *)
          if has blockEntry beFlagEncrypted
          then ret (None, Some ErrInvalidArchive) else
          (* Check compression *)
          if has blockEntry beFlagCompressedMulti then
            match slice content contentIndex (add32 contentIndex unpackedSize) with
            | None => throw SliceBoundsOutOfRange
            | Some dst =>
                let '(dst', err) := decompressMulti dst inBuffer in
                match err with
                | Some e => ret (None, Some e)
                | None =>
                    readBlocks n' (k + 1) blockEntry blocksCount
                      blockOffsetBase packedBlockOffsets
                      (firstn (Z.to_nat contentIndex) content ++ dst' ++
                       skipn (Z.to_nat (add32 contentIndex unpackedSize)) content)
                      (add32 contentIndex unpackedSize)
                end
            end
          else if has blockEntry beFlagPKWare
          then ret (None, Some ErrInvalidArchive)
          else
            match slice content contentIndex (len content) with
            | None => throw SliceBoundsOutOfRange
            | Some dst =>
                readBlocks n' (k + 1) blockEntry blocksCount
                  blockOffsetBase packedBlockOffsets
                  (firstn (Z.to_nat contentIndex) content ++ copy dst inBuffer)
                  (add32 contentIndex unpackedSize)
            end
      | _, _ => throw IndexOutOfRange
      end
  end.

(** The packed block offset table: the error returned at once, or the
    table. *)
Definition offsetTable (blockEntry : BlockEntry)
  (blocksCount blockOffsetBase : Z) : M (error + list Z) :=
  m <- get ;;
  let temp := add32 blocksCount 1 in
  let temp := if has blockEntry beFlagExtra then add32 temp 1 else temp in
  let packedBlockOffsets := make 0 temp in
  if has blockEntry beFlagCompressed && negb (has blockEntry beFlagSingle) then
    err <- Seek blockOffsetBase ;;
    if negb (is_nil err) then ret (inl ErrInvalidArchive) else
    '(packedBlockOffsets, err) <- loadOffsets (Z.to_nat temp) err ;;
    if negb (is_nil err) then ret (inl ErrInvalidArchive) else
    (* Decryption would take place here *)
    if has blockEntry beFlagEncrypted then ret (inl ErrInvalidArchive)
    else ret (inr packedBlockOffsets)
  else
    let filled :=
      if negb (has blockEntry beFlagSingle) then
        match fillOffsets (Z.to_nat blocksCount) 0 (blockSize m)
                          packedBlockOffsets with
        | None => None
        | Some p => store p blocksCount (be_blockSize blockEntry)
        end
      else
        match store packedBlockOffsets 0 0 with
        | None => None
        | Some p => store p 1 (be_blockSize blockEntry)
        end in
    match filled with
    | None => throw IndexOutOfRange
    | Some p => ret (inr p)
    end.

(** [FileByHash] from the block containing the file on. *)
Definition assemble (blockEntryIndex : Z) (blockEntry : BlockEntry) : M result :=
  m <- get ;;
  let blockOffsetBase := blockOffset blockEntry in
  match (match extBlockEntryHighOffsets m with
         | None => Some blockOffsetBase
         | Some offs =>
             match index offs blockEntryIndex with
             | None => None
             | Some h => Some (add64 blockOffsetBase (Z.shiftl h 32))
             end
         end) with
  | None => throw IndexOutOfRange
  | Some blockOffsetBase =>
      let blockOffsetBase :=
        match userData m with
        | Some u => add64 blockOffsetBase (u_headerOffset u)
        | None => blockOffsetBase
        end in
      match blocksCount_of blockEntry (blockSize m) with
      | None => throw DivideByZero
      | Some blocksCount =>
          t <- offsetTable blockEntry blocksCount blockOffsetBase ;;
          match t with
          | inl e => ret (None, Some e)
          | inr packedBlockOffsets =>
              let content := make x00 (fileSize blockEntry) in
              readBlocks (Z.to_nat blocksCount) 0 blockEntry blocksCount
                blockOffsetBase packedBlockOffsets content 0
          end
      end
  end.

(** [FileByHash(h1, h2, h3)]; [(None, None)] is [return nil, nil]. *)
Definition FileByHash (fuel : nat) (h1 h2 h3 : Z) : M result :=
  b <- lookup fuel h1 h2 h3 ;;
  match b with
  | None => ret (None, None)
  | Some (blockEntryIndex, blockEntry) => assemble blockEntryIndex blockEntry
  end.

(** [FileByName(name)] *)
Definition FileByName (fuel : nat) (name : string) : M result :=
  let '(h1, h2, h3) := FileNameHash name in FileByHash fuel h1 h2 h3.

End Assembler.

(** ** The hash and the cipher of the package

    Their Go file is not among the sources at hand; the theorems below hold
    for every [decrypt], [decompressMulti] and [FileNameHash].  The
    definitions of this part give the concrete archives of the examples. *)

Module Crypt.

(** Modelled from the spec: the crypt table of the package, which is missing
    from the sources: 1,280 words from the seed 0x00100001 advanced by
    [seed = (seed*125 + 3) mod 0x2AAAAB], two advances per word, the word
    of [index] and [sub] at slot [sub*256 + index]. *)
Definition advance (seed : Z) : Z := (seed * 125 + 3) mod 0x2AAAAB.

Fixpoint generate (n : nat) (seed : Z) : list Z :=
  match n with
  | O => []
  | S n' =>
      let s1 := advance seed in
      let s2 := advance s1 in
      Z.lor (Z.shiftl (Z.land s1 0xFFFF) 16) (Z.land s2 0xFFFF)
        :: generate n' s2
  end.

Definition generated : list Z := Eval vm_compute in generate 1280 0x00100001.

Definition cryptTable : list Z :=
  Eval vm_compute in
    map (fun j => nth (5 * (j mod 256) + j / 256)%nat generated 0) (seq 0 1280).

Definition table (i : Z) : Z := nth (Z.to_nat i) cryptTable 0.

(** Modelled from the spec: the string hash, which is missing from the
    sources: slash becomes backslash, lower case becomes upper case, then
    [seed1 = table[hashType + ch] xor (seed1 + seed2)] and
    [seed2 = ch + seed1 + seed2 + (seed2 << 5) + 3]. *)
Definition canonical (ch : Z) : Z :=
  if ch =? 47 then 92
  else if (97 <=? ch) && (ch <=? 122) then ch - 32
  else ch.

Fixpoint hashLoop (s : string) (hashType seed1 seed2 : Z) : Z :=
  match s with
  | EmptyString => seed1
  | String c s' =>
      let ch := canonical (Z.of_N (N_of_ascii c)) in
      let seed1' := Z.lxor (table (hashType + ch)) (add32 seed1 seed2) in
      let seed2' :=
        u32 (ch + seed1' + seed2 + Z.shiftl seed2 5 + 3) in
      hashLoop s' hashType seed1' seed2'
  end.

Definition hashString (s : string) (hashType : Z) : Z :=
  hashLoop s hashType 0x7FED7FED 0xEEEEEEEE.

Definition FileNameHash (name : string) : Z * Z * Z :=
  (hashString name 0x000, hashString name 0x100, hashString name 0x200).

(** Modelled from the spec: the stream cipher, which is missing from the
    sources: word by word, little-endian,
    [seed += table[0x400 + (key & 0xFF)]], [w = w_enc xor (key + seed)],
    [key = ((~key << 0x15) + 0x11111111) | (key >> 0x0B)],
    [seed = w + seed + (seed << 5) + 3]. *)
Definition le_encode32 (w : Z) : list byte :=
  [Zbyte w; Zbyte (Z.shiftr w 8); Zbyte (Z.shiftr w 16); Zbyte (Z.shiftr w 24)].

Definition nextKey (key : Z) : Z :=
  Z.lor (add32 (shl32 (Z.lxor key 0xFFFFFFFF) 0x15) 0x11111111)
        (Z.shiftr key 0x0B).

Fixpoint decryptLoop (bs : list byte) (key seed : Z) : list byte :=
  match bs with
  | b0 :: b1 :: b2 :: b3 :: bs' =>
      let seed1 := add32 seed (table (0x400 + Z.land key 0xFF)) in
      let w := Z.lxor (le_decode [b0; b1; b2; b3]) (add32 key seed1) in
      le_encode32 w
        ++ decryptLoop bs' (nextKey key)
             (u32 (w + seed1 + Z.shiftl seed1 5 + 3))
  | tail => tail
  end.

Definition decrypt (bs : list byte) (key : Z) : list byte :=
  decryptLoop bs key 0xEEEEEEEE.

(** The inverse of [decrypt], to write the tables of the examples. *)
Fixpoint encryptLoop (bs : list byte) (key seed : Z) : list byte :=
  match bs with
  | b0 :: b1 :: b2 :: b3 :: bs' =>
      let seed1 := add32 seed (table (0x400 + Z.land key 0xFF)) in
      let w := le_decode [b0; b1; b2; b3] in
      le_encode32 (Z.lxor w (add32 key seed1))
        ++ encryptLoop bs' (nextKey key)
             (u32 (w + seed1 + Z.shiftl seed1 5 + 3))
  | tail => tail
  end.

Definition encrypt (bs : list byte) (key : Z) : list byte :=
  encryptLoop bs key 0xEEEEEEEE.

End Crypt.

(** ** Concrete archives *)

Module Sample.

Definition le16 (w : Z) : list byte := [Zbyte w; Zbyte (Z.shiftr w 8)].
Definition le32 (w : Z) : list byte := Crypt.le_encode32 w.
Definition le64 (w : Z) : list byte := le32 w ++ le32 (Z.shiftr w 32).

Definition hashEntryBytes (e : HashEntry) : list byte :=
  le32 (filePathHashA e) ++ le32 (filePathHashB e) ++ le16 (language e)
    ++ le16 (platform e) ++ le32 (fileBlockIndex e).

Definition blockEntryBytes (e : BlockEntry) : list byte :=
  le32 (blockOffset e) ++ le32 (be_blockSize e) ++ le32 (fileSize e)
    ++ le32 (flags e).

Definition headerLen (version : Z) : Z := if version >? 0 then 44 else 32.

(** The bytes of an archive without user data: the header, the encrypted
    hash table, the encrypted block table, then [payload].  [ext] is the
    field [extendedBlockTableOffset] of a version 1 header. *)
Definition archive (version shift ext : Z) (ht : list HashEntry)
  (bt : list BlockEntry) (payload : list byte) : list byte :=
  let hto := headerLen version in
  let bto := hto + 16 * len ht in
  headerMagic ++ le32 (headerLen version) ++ le32 (bto + 16 * len bt + len payload)
    ++ le16 version ++ le16 shift ++ le32 hto ++ le32 bto
    ++ le32 (len ht) ++ le32 (len bt)
    ++ (if version >? 0 then le64 ext ++ le16 0 ++ le16 0 else [])
    ++ Crypt.encrypt (List.concat (map hashEntryBytes ht)) 0xc3af3770
    ++ Crypt.encrypt (List.concat (map blockEntryBytes bt)) 0xec83b3a3
    ++ payload.

(** Where [payload] starts. *)
Definition payloadOffset (version : Z) (nh nb : Z) : Z :=
  headerLen version + 16 * nh + 16 * nb.

(** Modelled from the spec: a stand-in for the decompressor, which is
    missing from the sources: the first byte of [src] is the codec-chain
    mask and the rest the payload; only the empty chain with a payload of
    the length of [dst] is served, everything else fails. *)
Definition decompressMulti (dst src : list byte) : list byte * option error :=
  match src with
  | [] => (dst, Some (ErrDecompress 0))
  | mask :: payload =>
      if (byteZ mask =? 0) && (len payload =? len dst)
      then (payload, None)
      else (dst, Some (ErrDecompress (byteZ mask)))
  end.

Definition open (bytes : list byte) : outcome (option MPQ * option error) :=
  New Crypt.decrypt (NewReader bytes).

Definition FileByHash := FileByHash decompressMulti.
Definition FileByName := FileByName decompressMulti Crypt.FileNameHash.

Definition hello : list byte := [x68; x65; x6c; x6c; x6f].

(** One stored file in a hash table of two entries, the other one never
    used. *)
Definition plainBytes : list byte :=
  Eval vm_compute in
    archive 0 3 0
      [mkHashEntry 0xffffffff 0xffffffff 0xffff 0xffff 0xffffffff;
       mkHashEntry 11 12 0 0 0]
      [mkBlockEntry (payloadOffset 0 2 1) 5 5 (beFlagFile + beFlagSingle)]
      hello.

(** The handle [New] returns, or an empty one when it returns none. *)
Definition handle (bytes : list byte) : MPQ :=
  match open bytes with
  | Ret (Some m, _) => m
  | _ => newMPQ (NewReader [])
  end.

Definition plain : MPQ := Eval vm_compute in handle plainBytes.

Definition tombstone : HashEntry :=
  mkHashEntry 0xffffffff 0xffffffff 0xffff 0xffff 0xfffffffe.

Definition helloBlock (nh : Z) (extra : Z) : BlockEntry :=
  mkBlockEntry (payloadOffset 0 nh 1) 5 5 (beFlagFile + beFlagSingle + extra).

(** A hash table without a never-used entry: a file and a deleted entry. *)
Definition fullBytes : list byte :=
  Eval vm_compute in
    archive 0 3 0 [mkHashEntry 21 22 0 0 0; tombstone] [helloBlock 2 0] hello.

Definition full : MPQ := Eval vm_compute in handle fullBytes.

(** A deleted entry that still stores the hashes of its former file. *)
Definition staleTombstone : HashEntry := mkHashEntry 11 12 0 0 0xfffffffe.

Definition deletedBytes : list byte :=
  Eval vm_compute in
    archive 0 3 0
      [staleTombstone; mkHashEntry 0xffffffff 0xffffffff 0xffff 0xffff 0xffffffff]
      [helloBlock 2 0] hello.

Definition deleted : MPQ := Eval vm_compute in handle deletedBytes.

(** A hash entry whose block index is past the end of the block table. *)
Definition strayBytes : list byte :=
  Eval vm_compute in
    archive 0 3 0
      [mkHashEntry 11 12 0 0 5;
       mkHashEntry 0xffffffff 0xffffffff 0xffff 0xffff 0xffffffff]
      [helloBlock 2 0] hello.

Definition stray : MPQ := Eval vm_compute in handle strayBytes.

(** A hash entry whose block index is the length of the block table. *)
Definition edgeBytes : list byte :=
  Eval vm_compute in
    archive 0 3 0
      [mkHashEntry 11 12 0 0 1;
       mkHashEntry 0xffffffff 0xffffffff 0xffff 0xffff 0xffffffff]
      [helloBlock 2 0] hello.

Definition edge : MPQ := Eval vm_compute in handle edgeBytes.

(** Files whose storage is not supported: an encrypted file, an imploded
    file, an encrypted file split into compressed sectors (its payload
    starts with the two words of the packed block offset table), and an
    encrypted file of size zero. *)
Definition encryptedBytes : list byte :=
  Eval vm_compute in
    archive 0 3 0 [mkHashEntry 11 12 0 0 0; tombstone]
      [helloBlock 2 beFlagEncrypted] hello.

Definition implodedBytes : list byte :=
  Eval vm_compute in
    archive 0 3 0 [mkHashEntry 11 12 0 0 0; tombstone]
      [helloBlock 2 beFlagPKWare] hello.

Definition encryptedTableBytes : list byte :=
  Eval vm_compute in
    archive 0 3 0 [mkHashEntry 11 12 0 0 0; tombstone]
      [mkBlockEntry (payloadOffset 0 2 1) 13 5
         (beFlagFile + beFlagCompressedMulti + beFlagEncrypted)]
      (le32 8 ++ le32 13 ++ hello).

Definition encryptedEmptyBytes : list byte :=
  Eval vm_compute in
    archive 0 3 0 [mkHashEntry 11 12 0 0 0; tombstone]
      [mkBlockEntry (payloadOffset 0 2 1) 0 0 (beFlagFile + beFlagEncrypted)]
      [].

Definition encrypted : MPQ := Eval vm_compute in handle encryptedBytes.
Definition imploded : MPQ := Eval vm_compute in handle implodedBytes.
Definition encryptedTable : MPQ := Eval vm_compute in handle encryptedTableBytes.
Definition encryptedEmpty : MPQ := Eval vm_compute in handle encryptedEmptyBytes.

(** A version 1 archive with an extended block table: one block, and after
    it the two bytes of its high offset. *)
Definition extBytes : list byte :=
  Eval vm_compute in
    archive 1 3 (payloadOffset 1 2 1 + 5)
      [mkHashEntry 11 12 0 0 0; tombstone]
      [mkBlockEntry (payloadOffset 1 2 1) 5 5 (beFlagFile + beFlagSingle)]
      (hello ++ le16 0).

(** A version 1 archive with an extended block table and no block. *)
Definition extEmptyBytes : list byte :=
  Eval vm_compute in archive 1 3 (payloadOffset 1 0 0) [] [] [].

(** A stored file of two sectors of 512 bytes and a compressed one of a
    single sector. *)
Definition twoSectorBytes : list byte :=
  Eval vm_compute in
    archive 0 0 0 [mkHashEntry 11 12 0 0 0; tombstone]
      [mkBlockEntry (payloadOffset 0 2 1) 515 515 beFlagFile]
      (repeat x61 512 ++ [x62; x63; x64]).

Definition twoSector : MPQ := Eval vm_compute in handle twoSectorBytes.

Definition packedBytes : list byte :=
  Eval vm_compute in
    archive 0 3 0 [mkHashEntry 11 12 0 0 0; tombstone]
      [mkBlockEntry (payloadOffset 0 2 1) 14 5
         (beFlagFile + beFlagCompressedMulti)]
      (le32 8 ++ le32 14 ++ [x00] ++ hello).

Definition packed : MPQ := Eval vm_compute in handle packedBytes.

(** A block entry whose file size is the largest 32-bit value, split into
sectors of 4096 bytes. *)
Definition hugeBlock : BlockEntry := mkBlockEntry 80 0 0xFFFFFFFF beFlagFile.

Definition hugeBytes : list byte :=
  Eval vm_compute in
    archive 0 3 0 [mkHashEntry 11 12 0 0 0; tombstone] [hugeBlock] [].

Definition huge : MPQ := Eval vm_compute in handle hugeBytes.

End Sample.

(** ** More concrete archives *)

Module More.

Import Sample.

(** The archive of [Sample.plainBytes] without the last three bytes of its
    file. *)
Definition truncatedBytes : list byte :=
  Eval vm_compute in
    archive 0 3 0 [mkHashEntry 11 12 0 0 0; tombstone] [helloBlock 2 0]
      [x68; x65].

Definition truncated : MPQ := Eval vm_compute in handle truncatedBytes.

(** A compressed file stored as a single unit: the mask of the codecs, then
    the payload. *)
Definition packedSingleBytes : list byte :=
  Eval vm_compute in
    archive 0 3 0 [mkHashEntry 11 12 0 0 0; tombstone]
      [mkBlockEntry (payloadOffset 0 2 1) 6 5
         (beFlagFile + beFlagSingle + beFlagCompressedMulti)]
      ([x00] ++ hello).

Definition packedSingle : MPQ := Eval vm_compute in handle packedSingleBytes.

(** Three block entries, the first of them free space, and a hash table
    whose entries lead to each of them. *)
Definition gapBytes : list byte :=
  Eval vm_compute in
    archive 0 3 0
      [mkHashEntry 11 12 0 0 0; mkHashEntry 21 22 0 0 1;
       mkHashEntry 31 32 0 0 2;
       mkHashEntry 0xffffffff 0xffffffff 0xffff 0xffff 0xffffffff]
      [mkBlockEntry 0 0 0 0;
       mkBlockEntry (payloadOffset 0 4 3) 2 2 (beFlagFile + beFlagSingle);
       mkBlockEntry (payloadOffset 0 4 3 + 2) 3 3 (beFlagFile + beFlagSingle)]
      hello.

Definition gap : MPQ := Eval vm_compute in handle gapBytes.

(** User data of three bytes before an archive that starts at offset 16. *)
Definition shuntBytes : list byte :=
  Eval vm_compute in
    userDataMagic ++ le32 3 ++ le32 16 ++ [x61; x62; x63; x00]
      ++ archive 0 3 0 [mkHashEntry 11 12 0 0 0; tombstone] [helloBlock 2 0]
           hello.

Definition shunt : MPQ := Eval vm_compute in handle shuntBytes.

(** An archive without any hash entry and any block. *)
Definition emptyBytes : list byte :=
  Eval vm_compute in archive 0 3 0 [] [] [].

Definition empty : MPQ := Eval vm_compute in handle emptyBytes.

(** A stored file in sectors in an archive whose sector size shift is 23. *)
Definition zeroSectorBytes : list byte :=
  Eval vm_compute in
    archive 0 23 0 [mkHashEntry 11 12 0 0 0; tombstone]
      [mkBlockEntry (payloadOffset 0 2 1) 5 5 beFlagFile] hello.

Definition zeroSector : MPQ := Eval vm_compute in handle zeroSectorBytes.

End More.

(** * The vocabulary of the properties *)

(** Everything the handle holds but the read position of its input. *)
Definition parsed (m : MPQ) :=
  (data (input m), userData m, header m, hashTable m, blockTable m,
   extBlockEntryHighOffsets m, blockSize m, blockEntryIndices m, filesCount m).

(** A computation keeps the handle when it changes at most the read position,
    however it ends. *)
Definition keeps {A} (c : M A) : Prop :=
  forall m, parsed (snd (c m)) = parsed m.

(** The handle with its input at position [p]. *)
Definition repos (m : MPQ) (p : Z) : MPQ :=
  set_input m (mkReader (data (input m)) p).

(** A computation ignores the read position when its outcome is the same
    from every position. *)
Definition ignores {A} (c : M A) : Prop :=
  forall m p,
    fst (c m) = fst (c (repos m p))
    /\ exists q, snd (c (repos m p)) = repos (snd (c m)) q.

(** No entry of the hash table stores the hashes [h2] and [h3]. *)
Definition unmatched (m : MPQ) (h2 h3 : Z) : bool :=
  forallb (fun e => negb ((filePathHashA e =? h2) && (filePathHashB e =? h3)))
          (hashTable m).

(** The specification's words: the count of the entries of the block table
    that are not files and whose index is less than [n], and the file ordinal
    of a block index. *)
Definition isNonFile (be : BlockEntry) : bool :=
  Z.land (flags be) beFlagFile =? 0.

Definition nonFilesBelow (bt : list BlockEntry) (n : Z) : Z :=
  len (filter isNonFile (firstn (Z.to_nat n) bt)).

Definition fileOrdinal (m : MPQ) (fileBlockIndex : Z) : Z :=
  fileBlockIndex - nonFilesBelow (blockTable m) fileBlockIndex.

(** The unpacked sizes of the blocks [0 .. blocksCount - 1], as the loop over
    the blocks computes them. *)
Definition unpackedSizes (be : BlockEntry) (bs : Z) : option (list Z) :=
  match blocksCount_of be bs with
  | None => None
  | Some bc =>
      Some (map (fun k => unpackedSize_of be bs bc (Z.of_nat k))
                (seq 0 (Z.to_nat bc)))
  end.

Definition total (l : list Z) : Z := fold_right Z.add 0 l.

(** What holds of every handle that the opener returns: the block size comes
    from the header, and the extended high offsets, when present, are as many
    as the blocks. *)
Definition wellFormed (m : MPQ) : Prop :=
  blockSize m = shl32 512 (sectorSizeShift (header m))
  /\ 0 <= sectorSizeShift (header m)
  /\ match extBlockEntryHighOffsets m with
     | None => True
     | Some offs => len offs = len (blockTable m)
     end.

(** Storage the reader does not decode: an encrypted file, or an imploded
    file that is not under multiple compression. *)
Definition unsupported (be : BlockEntry) : Prop :=
  has be beFlagEncrypted = true
  \/ (has be beFlagPKWare = true /\ has be beFlagCompressedMulti = false).

(** The extended high offsets, when present, have an entry for block [i]. *)
Definition covered (m : MPQ) (i : Z) : Prop :=
  match extBlockEntryHighOffsets m with
  | None => True
  | Some offs => 0 <= i < len offs
  end.

(** The methods [UserData()] and [FilesCount()] of the handle. *)
Definition MPQ_UserData (m : MPQ) : option (list byte) :=
  match userData m with
  | None => None
  | Some u => Some (u_data u)
  end.

Definition FilesCount (m : MPQ) : Z := filesCount m.

Definition isFile (be : BlockEntry) : bool := has be beFlagFile.

(** The indices of the file entries of a block table whose first entry has
    index [i], in ascending order. *)
Fixpoint filePositions (bt : list BlockEntry) (i : Z) : list Z :=
  match bt with
  | [] => []
  | be :: bt' =>
      if isFile be then i :: filePositions bt' (i + 1)
      else filePositions bt' (i + 1)
  end.

(** The first file entry at index [n] or after it, in a block table whose
    first entry has index [i]. *)
Fixpoint nextFile (bt : list BlockEntry) (i n : Z) : option (Z * BlockEntry) :=
  match bt with
  | [] => None
  | be :: bt' =>
      if (n <=? i) && isFile be then Some (i, be)
      else nextFile bt' (i + 1) n
  end.

(** The block indices of the files as the opener leaves them: the positions
    of the file entries, then zeros, and their count. *)
Definition filesIndexed (m : MPQ) : Prop :=
  blockEntryIndices m
  = filePositions (blockTable m) 0
      ++ repeat 0 (List.length (blockTable m)
                   - List.length (filePositions (blockTable m) 0))
  /\ filesCount m = len (filePositions (blockTable m) 0)
  /\ len (blockTable m) < 2 ^ 32.

(** The hash table has an entry that was never used. *)
Definition hasNeverUsed (m : MPQ) : Prop :=
  exists j e, index (hashTable m) j = Some e /\ fileBlockIndex e = 0xffffffff.

(** Where the data of a block starts in the input, without extended high
    offsets: the block offset, after the header offset of the user data. *)
Definition dataOffset (m : MPQ) (be : BlockEntry) : Z :=
  blockOffset be
  + match userData m with
    | Some u => u_headerOffset u
    | None => 0
    end.

(** The [n] bytes of the input from offset [off] on. *)
Definition inputBytes (m : MPQ) (off n : Z) : list byte :=
  firstn (Z.to_nat n) (skipn (Z.to_nat off) (data (input m))).

(** The block entry and the handle are in the range of their types. *)
Definition blockInRange (m : MPQ) (be : BlockEntry) : Prop :=
  0 <= blockOffset be < 2 ^ 32 /\ 0 <= be_blockSize be < 2 ^ 32
  /\ 0 <= fileSize be < 2 ^ 32
  /\ match userData m with
     | Some u => 0 <= u_headerOffset u < 2 ^ 32
     | None => True
     end.

(** The fields of a header that was read are in the range of their types. *)
Definition headerInRange (h : Header) : Prop :=
  0 <= h_size h < 2 ^ 32 /\ 0 <= archiveSize h < 2 ^ 32
  /\ 0 <= formatVersion h < 2 ^ 16 /\ 0 <= sectorSizeShift h < 2 ^ 16
  /\ 0 <= hashTableOffset h < 2 ^ 32 /\ 0 <= blockTableOffset h < 2 ^ 32
  /\ 0 <= hashTableEntries h < 2 ^ 32 /\ 0 <= blockTableEntries h < 2 ^ 32
  /\ 0 <= extendedBlockTableOffset h < 2 ^ 64
  /\ 0 <= hashTableOffsetHigh h < 2 ^ 16
  /\ 0 <= blockTableOffsetHigh h < 2 ^ 16.

(** The error is ErrInvalidArchive or an error that the decompressor
    reported. *)
Definition errorOfCall
  (decompressMulti : list byte -> list byte -> list byte * option error)
  (e : error) : Prop :=
  e = ErrInvalidArchive
  \/ exists dst src d, decompressMulti dst src = (d, Some e).

(** * Properties *)

(** ** The effect of a call on the handle *)

Lemma keeps_ret {A} (a : A) : keeps (ret a).
Proof. intro m. reflexivity. Qed.

Lemma keeps_throw {A} (p : panic_kind) : keeps (@throw A p).
Proof. intro m. reflexivity. Qed.

Lemma keeps_spin {A} : keeps (@spin A).
Proof. intro m. reflexivity. Qed.

Lemma keeps_get : keeps get.
Proof. intro m. reflexivity. Qed.

Lemma keeps_bind {A B} (c : M A) (k : A -> M B) :
  keeps c -> (forall a, keeps (k a)) -> keeps (bind c k).
Proof.
  intros Hc Hk m. unfold bind. specialize (Hc m).
  destruct (c m) as [[a | p | ] m']; simpl in *; try assumption.
  rewrite Hk. assumption.
Qed.

Lemma Reader_Seek_data (r : Reader) (off : Z) :
  data (snd (Reader_Seek r off)) = data r.
Proof. unfold Reader_Seek. destruct (off <? 0); reflexivity. Qed.

Lemma Reader_ReadFull_data (r : Reader) (n : Z) :
  data (snd (Reader_ReadFull r n)) = data r.
Proof.
  unfold Reader_ReadFull.
  destruct (n <=? 0); [reflexivity |].
  destruct (len (rest r) =? 0); [reflexivity |].
  destruct (len (rest r) <? n); reflexivity.
Qed.

Lemma Reader_binary_Read_data (r : Reader) (w old : Z) :
  data (snd (Reader_binary_Read r w old)) = data r.
Proof.
  unfold Reader_binary_Read. pose proof (Reader_ReadFull_data r w) as H.
  destruct (Reader_ReadFull r w) as [[bs [e | ]] r']; simpl in *; assumption.
Qed.

Lemma keeps_Seek (off : Z) : keeps (Seek off).
Proof.
  intro m. unfold Seek. pose proof (Reader_Seek_data (input m) off) as H.
  destruct (Reader_Seek (input m) off) as [e r]. simpl in *.
  unfold parsed. simpl. rewrite H. reflexivity.
Qed.

Lemma keeps_ReadFull (n : Z) : keeps (ReadFull n).
Proof.
  intro m. unfold ReadFull. pose proof (Reader_ReadFull_data (input m) n) as H.
  destruct (Reader_ReadFull (input m) n) as [[bs e] r]. simpl in *.
  unfold parsed. simpl. rewrite H. reflexivity.
Qed.

Lemma keeps_binary_Read (w old : Z) : keeps (binary_Read w old).
Proof.
  intro m. unfold binary_Read.
  pose proof (Reader_binary_Read_data (input m) w old) as H.
  destruct (Reader_binary_Read (input m) w old) as [[v e] r]. simpl in *.
  unfold parsed. simpl. rewrite H. reflexivity.
Qed.

Create HintDb frame.
#[local] Hint Resolve keeps_ret keeps_throw keeps_spin keeps_get keeps_Seek
  keeps_ReadFull keeps_binary_Read : frame.

(** One step through the text of a computation. *)
Ltac keeps_step :=
  match goal with
  | |- keeps (bind _ _) => apply keeps_bind; [ | intros ? ]
  | |- keeps (match ?x with _ => _ end) => destruct x
  | |- keeps _ => solve [ auto with frame ]
  end.

Lemma keeps_probe (fuel : nat) (h2 h3 i : Z) : keeps (probe fuel h2 h3 i).
Proof.
  revert i. induction fuel as [ | fuel IH]; intro i; simpl.
  - apply keeps_spin.
  - repeat keeps_step.
Qed.

Lemma keeps_resolve (e : HashEntry) : keeps (resolve e).
Proof. unfold resolve. repeat keeps_step. Qed.

Lemma keeps_lookup (fuel : nat) (h1 h2 h3 : Z) : keeps (lookup fuel h1 h2 h3).
Proof.
  unfold lookup. repeat keeps_step;
    auto using keeps_probe, keeps_resolve.
Qed.

Lemma keeps_loadOffsets (n : nat) (err : option error) : keeps (loadOffsets n err).
Proof.
  revert err. induction n as [ | n IH]; intro err; simpl.
  - apply keeps_ret.
  - repeat keeps_step.
Qed.

(** ** Lookups do not depend on the read position *)

Lemma repos_id (m : MPQ) : repos m (pos (input m)) = m.
Proof. destruct m as [[d p] u h ht bt e bs idx n]. reflexivity. Qed.

Lemma parsed_repos (m1 m2 : MPQ) :
  parsed m1 = parsed m2 -> m1 = repos m2 (pos (input m1)).
Proof.
  destruct m1 as [[d1 p1] u1 h1 ht1 bt1 e1 bs1 idx1 n1].
  destruct m2 as [[d2 p2] u2 h2 ht2 bt2 e2 bs2 idx2 n2].
  unfold parsed, repos. simpl. intro H. injection H as -> -> -> -> -> -> -> -> ->.
  reflexivity.
Qed.

Lemma ignores_ret {A} (a : A) : ignores (ret a).
Proof. intros m p. split; [reflexivity | exists p; reflexivity]. Qed.

Lemma ignores_throw {A} (e : panic_kind) : ignores (@throw A e).
Proof. intros m p. split; [reflexivity | exists p; reflexivity]. Qed.

Lemma ignores_spin {A} : ignores (@spin A).
Proof. intros m p. split; [reflexivity | exists p; reflexivity]. Qed.

Lemma ignores_bind {A B} (c : M A) (k : A -> M B) :
  ignores c -> (forall a, ignores (k a)) -> ignores (bind c k).
Proof.
  intros Hc Hk m p. unfold bind. destruct (Hc m p) as [E (q & S)].
  destruct (c m) as [o s]; destruct (c (repos m p)) as [o' s'].
  simpl in E, S. subst o' s'.
  destruct o as [a | e | ]; try (split; [reflexivity | exists q; reflexivity]).
  apply Hk.
Qed.

(** A computation that reads the handle, but not its input. *)
Lemma ignores_get_bind {B} (k : MPQ -> M B) :
  (forall m p, k (repos m p) = k m) -> (forall a, ignores (k a)) ->
  ignores (bind get k).
Proof.
  intros Hr Hk m p. unfold bind, get. rewrite Hr. apply Hk.
Qed.

(** After a seek that succeeds the position is the one sought. *)
Lemma ignores_Seek_bind {B} (off : Z) (k : option error -> M B) :
  (forall e, ignores (k (Some e))) -> ignores (bind (Seek off) k).
Proof.
  intros Hk m p. unfold bind, Seek, Reader_Seek.
  destruct (off <? 0).
  - apply (Hk ErrNegativePosition (set_input m (input m)) p).
  - change (set_input (repos m p) (mkReader (data (input (repos m p))) off))
      with (set_input m (mkReader (data (input m)) off)).
    split; [reflexivity | ].
    eexists. symmetry. apply repos_id.
Qed.

Lemma ignores_probe (fuel : nat) (h2 h3 : Z) :
  forall i, ignores (probe fuel h2 h3 i).
Proof.
  induction fuel as [ | fuel IH]; intro i; cbn [probe].
  - apply ignores_spin.
  - apply ignores_get_bind; [reflexivity | ]. intro m.
    destruct (index (hashTable m) _) as [e | ]; [ | apply ignores_throw].
    destruct (fileBlockIndex e =? 0xffffffff); [apply ignores_ret | ].
    destruct (_ || _); [apply IH | apply ignores_ret].
Qed.

Lemma ignores_resolve (e : HashEntry) : ignores (resolve e).
Proof.
  unfold resolve. apply ignores_get_bind; [reflexivity | ]. intro m.
  destruct (countNonFiles _ _ _ _); [ | apply ignores_throw].
  destruct (_ || _); [apply ignores_ret | ].
  destruct (index (blockEntryIndices m) _); [ | apply ignores_throw].
  destruct (index (blockTable m) _); [apply ignores_ret | apply ignores_throw].
Qed.

Lemma ignores_lookup (fuel : nat) (h1 h2 h3 : Z) :
  ignores (lookup fuel h1 h2 h3).
Proof.
  unfold lookup. apply ignores_get_bind; [reflexivity | ]. intro m.
  apply ignores_bind; [apply ignores_probe | ].
  intros [e | ]; [apply ignores_resolve | apply ignores_ret].
Qed.

Lemma ignores_offsetTable (be : BlockEntry) (bc base : Z) :
  ignores (offsetTable be bc base).
Proof.
  unfold offsetTable. apply ignores_get_bind; [reflexivity | ]. intro m.
  destruct (has be beFlagCompressed && negb (has be beFlagSingle)).
  - apply ignores_Seek_bind. intro e. apply ignores_ret.
  - destruct (if negb (has be beFlagSingle) then _ else _);
      [apply ignores_ret | apply ignores_throw].
Qed.

Section Position.

Variable decompressMulti : list byte -> list byte -> list byte * option error.

Lemma ignores_readBlocks (n : nat) (k : Z) (be : BlockEntry) (bc base : Z)
  (pbo : list Z) (content : list byte) (ci : Z) :
  ignores (readBlocks decompressMulti n k be bc base pbo content ci).
Proof.
  destruct n as [ | n]; cbn [readBlocks]; [apply ignores_ret | ].
  apply ignores_get_bind; [reflexivity | ]. intro m.
  destruct (index pbo (k + 1)); [ | apply ignores_throw].
  destruct (index pbo k); [ | apply ignores_throw].
  apply ignores_Seek_bind. intro e. apply ignores_ret.
Qed.

Lemma ignores_assemble (i : Z) (be : BlockEntry) :
  ignores (assemble decompressMulti i be).
Proof.
  unfold assemble. apply ignores_get_bind; [reflexivity | ]. intro m.
  destruct (match extBlockEntryHighOffsets m with _ => _ end);
    [ | apply ignores_throw].
  destruct (blocksCount_of be (blockSize m)); [ | apply ignores_throw].
  apply ignores_bind; [apply ignores_offsetTable | ].
  intros [e | pbo]; [apply ignores_ret | apply ignores_readBlocks].
Qed.

Lemma ignores_FileByHash (fuel : nat) (h1 h2 h3 : Z) :
  ignores (FileByHash decompressMulti fuel h1 h2 h3).
Proof.
  unfold FileByHash. apply ignores_bind; [apply ignores_lookup | ].
  intros [[i be] | ]; [apply ignores_assemble | apply ignores_ret].
Qed.

End Position.

Section Frame.

Variable decompressMulti : list byte -> list byte -> list byte * option error.
Variable FileNameHash : string -> Z * Z * Z.

Lemma keeps_readBlocks (n : nat) :
  forall k be bc base pbo content ci,
    keeps (readBlocks decompressMulti n k be bc base pbo content ci).
Proof.
  induction n as [ | n IH]; intros; simpl.
  - apply keeps_ret.
  - repeat keeps_step.
Qed.

Lemma keeps_offsetTable (be : BlockEntry) (bc base : Z) :
  keeps (offsetTable be bc base).
Proof.
  unfold offsetTable. repeat keeps_step; auto using keeps_loadOffsets.
Qed.

Lemma keeps_assemble (i : Z) (be : BlockEntry) :
  keeps (assemble decompressMulti i be).
Proof.
  unfold assemble.
  repeat keeps_step; auto using keeps_offsetTable, keeps_readBlocks.
Qed.

Lemma keeps_FileByHash (fuel : nat) (h1 h2 h3 : Z) :
  keeps (FileByHash decompressMulti fuel h1 h2 h3).
Proof.
  unfold FileByHash.
  repeat keeps_step; auto using keeps_lookup, keeps_assemble.
Qed.

(** C9. A call of FileByHash or of FileByName, however it ends (content,
    not found, an error, a panic, or still probing when the fuel runs out),
    leaves the user data, the header, the hash table, the block table, the
    extended high offsets, the block size, the block indices of the files,
    the file count and the bytes of the input as they were: only the read
    position of the input may have moved.  A further lookup on the handle
    gives what it gives on the handle before the call. *)
Theorem FileByHash_leaves_handle (fuel : nat) (m : MPQ) :
  (forall h1 h2 h3,
      parsed (snd (FileByHash decompressMulti fuel h1 h2 h3 m)) = parsed m)
  /\ (forall name,
      parsed (snd (FileByName decompressMulti FileNameHash fuel name m))
      = parsed m)
  /\ (forall h1 h2 h3 fuel' g1 g2 g3,
      fst (FileByHash decompressMulti fuel' g1 g2 g3
             (snd (FileByHash decompressMulti fuel h1 h2 h3 m)))
      = fst (FileByHash decompressMulti fuel' g1 g2 g3 m)).
Proof.
  split; [ | split].
  - intros. apply keeps_FileByHash.
  - intro name. unfold FileByName.
    destruct (FileNameHash name) as [[h1 h2] h3]. apply keeps_FileByHash.
  - intros.
    pose proof (keeps_FileByHash fuel h1 h2 h3 m) as K.
    apply parsed_repos in K. rewrite K. symmetry.
    apply (ignores_FileByHash decompressMulti fuel' g1 g2 g3).
Qed.

End Frame.

(** ** The length of the content *)

Lemma slice_Some {A} (l : list A) (lo hi : Z) (d : list A) :
  slice l lo hi = Some d ->
  0 <= lo <= hi /\ hi <= len l /\ List.length d = Z.to_nat (hi - lo).
Proof.
  unfold slice. intro H.
  destruct ((0 <=? lo) && (lo <=? hi) && (hi <=? len l)) eqn:E; [ | discriminate].
  injection H as <-.
  apply andb_prop in E as [E E3]. apply andb_prop in E as [E1 E2].
  apply Z.leb_le in E1, E2, E3. unfold len in *.
  repeat split; try lia.
  rewrite length_firstn, length_skipn. lia.
Qed.

Lemma copy_length (dst src : list byte) :
  List.length (copy dst src) = List.length dst.
Proof.
  unfold copy. rewrite length_app, length_firstn, length_skipn. lia.
Qed.

(** Runs a computation whose outcome is known, branch by branch. *)
Ltac run H :=
  repeat (simpl in H; unfold bind, ret, get, throw, spin in H;
          match type of H with
          | context [match ?x with _ => _ end] =>
              destruct x eqn:?; try discriminate
          end).

(** The same without unfolding anything else. *)
Ltac walk H :=
  repeat (cbv beta iota zeta in H;
          unfold bind, ret, get, throw, spin, modify in H;
          match type of H with
          | context [match ?x with _ => _ end] =>
              destruct x eqn:?; try discriminate
          end).

(** The directory lookup does not touch the handle at all. *)
Lemma probe_state (fuel : nat) (h2 h3 : Z) (m : MPQ) :
  forall i, snd (probe fuel h2 h3 i m) = m.
Proof.
  induction fuel as [ | fuel IH]; intro i; simpl; [reflexivity | ].
  unfold bind, get.
  destruct (index (hashTable m) _) as [e | ]; [ | reflexivity].
  destruct (fileBlockIndex e =? 0xffffffff); [reflexivity | ].
  destruct (negb (filePathHashA e =? h2) || negb (filePathHashB e =? h3));
    [apply IH | reflexivity].
Qed.

Lemma resolve_state (e : HashEntry) (m : MPQ) : snd (resolve e m) = m.
Proof.
  unfold resolve, bind, get.
  destruct (countNonFiles _ _ _ _); [ | reflexivity].
  destruct (_ || _); [reflexivity | ].
  destruct (index (blockEntryIndices m) _); [ | reflexivity].
  destruct (index (blockTable m) _); reflexivity.
Qed.

Lemma lookup_state (fuel : nat) (h1 h2 h3 : Z) (m : MPQ) :
  snd (lookup fuel h1 h2 h3 m) = m.
Proof.
  unfold lookup, bind, get.
  pose proof (probe_state fuel h2 h3 m
                (Z.land h1 (sub32 (hashTableEntries (header m)) 1))) as P.
  destruct (probe fuel h2 h3 _ m) as [[[e | ] | p | ] m1]; simpl in P; subst m1;
    try reflexivity.
  apply resolve_state.
Qed.

Section ContentLength.

Variable decompressMulti : list byte -> list byte -> list byte * option error.

(** The decompressor writes into the window it is given: the window keeps
    its length. *)
Hypothesis decompressMulti_length :
  forall dst src, List.length (fst (decompressMulti dst src)) = List.length dst.

Lemma readBlocks_length (n : nat) :
  forall k be bc base pbo content ci m c m',
    readBlocks decompressMulti n k be bc base pbo content ci m
    = (Ret (Some c, None), m') ->
    List.length c = List.length content.
Proof.
  induction n as [ | n IH]; intros k be bc base pbo content ci m c m' H.
  - simpl in H. injection H as <- _. reflexivity.
  - run H.
    + apply IH in H. rewrite H.
      apply slice_Some in Heqo3 as (Hlo & Hhi & Hd).
      pose proof (decompressMulti_length l0 l) as Hl.
      rewrite Heqp2 in Hl. simpl in Hl.
      unfold len in Hhi.
      rewrite !length_app, length_firstn, length_skipn. lia.
    + apply IH in H. rewrite H.
      apply slice_Some in Heqo3 as (Hlo & Hhi & Hd).
      unfold len in *.
      rewrite length_app, length_firstn, copy_length. lia.
Qed.

(** C10. When FileByHash returns a content (a slice that is not nil) and a
    nil error, the fingerprint was resolved to a block entry, and the length
    of the content is the file size of that block entry, whatever its block
    size and whatever was read from the sectors. *)
Theorem FileByHash_content_length (fuel : nat) (h1 h2 h3 : Z) (m m' : MPQ)
  (content : list byte) :
  FileByHash decompressMulti fuel h1 h2 h3 m = (Ret (Some content, None), m') ->
  exists blockEntryIndex blockEntry,
    lookup fuel h1 h2 h3 m = (Ret (Some (blockEntryIndex, blockEntry)), m)
    /\ List.length content = Z.to_nat (fileSize blockEntry).
Proof.
  unfold FileByHash. intro H. unfold bind at 1 in H.
  pose proof (lookup_state fuel h1 h2 h3 m) as L1.
  destruct (lookup fuel h1 h2 h3 m) as [[[[i be] | ] | p | ] m1] eqn:L;
    try discriminate.
  simpl in L1. subst m1.
  exists i, be. split; [reflexivity | ].
  unfold assemble in H. run H.
  all: apply readBlocks_length in H; rewrite H; unfold make;
    apply repeat_length.
Qed.

End ContentLength.

Lemma Sample_decompressMulti_length (dst src : list byte) :
  List.length (fst (Sample.decompressMulti dst src)) = List.length dst.
Proof.
  unfold Sample.decompressMulti. destruct src as [ | mask payload]; [reflexivity | ].
  destruct ((byteZ mask =? 0) && (len payload =? len dst)) eqn:E; [ | reflexivity].
  apply andb_prop in E as [_ E]. apply Z.eqb_eq in E. unfold len in E.
  simpl. lia.
Qed.

(** The content of a compressed file of five bytes has five bytes. *)
Lemma FileByHash_content_length_witness :
  exists blockEntryIndex blockEntry,
    lookup 2 0 11 12 Sample.packed
    = (Ret (Some (blockEntryIndex, blockEntry)), Sample.packed)
    /\ List.length Sample.hello = Z.to_nat (fileSize blockEntry).
Proof.
  eapply (FileByHash_content_length Sample.decompressMulti
            Sample_decompressMulti_length 2 0 11 12 Sample.packed).
  vm_compute. reflexivity.
Defined.

(** ** The probe of the hash table *)

(** In the archive [Sample.full] no entry is marked as never used, and the
    probe for hashes that no entry stores goes round for ever. *)
Ltac spin_round IH :=
  match goal with
  | H : _ = 0 \/ _ = 1 \/ _ = 2 |- _ =>
      destruct H as [-> | [-> | ->]]; simpl; unfold bind, get; simpl;
      apply IH; auto
  end.

Lemma probe_full_spins (fuel : nat) :
  forall i, i = 0 \/ i = 1 \/ i = 2 ->
    probe fuel 11 12 i Sample.full = (OutOfFuel, Sample.full).
Proof.
  induction fuel as [ | fuel IH]; intros i Hi; [reflexivity | spin_round IH].
Qed.

(** C1 (the code does otherwise). In the archive [Sample.full], whose hash
    table of two entries holds a file and a deleted entry, the lookup of the
    fingerprint (0, 11, 12), which matches no entry, has not returned after
    any number of probes: no count of probes ends the loop. *)
Theorem FileByHash_full_table_never_returns
  (decompressMulti : list byte -> list byte -> list byte * option error)
  (fuel : nat) :
  Sample.open Sample.fullBytes = Ret (Some Sample.full, None)
  /\ hashTableEntries (header Sample.full) = 2
  /\ FileByHash decompressMulti fuel 0 11 12 Sample.full
     = (OutOfFuel, Sample.full).
Proof.
  split; [vm_compute; reflexivity | ].
  split; [reflexivity | ].
  unfold FileByHash, lookup, bind, get.
  change (Z.land 0 (sub32 (hashTableEntries (header Sample.full)) 1)) with 0.
  rewrite (probe_full_spins fuel 0); auto.
Qed.

Lemma probe_full_spins' (fuel : nat) :
  forall i, i = 0 \/ i = 1 \/ i = 2 ->
    probe fuel 31 32 i Sample.full = (OutOfFuel, Sample.full).
Proof.
  induction fuel as [ | fuel IH]; intros i Hi; [reflexivity | spin_round IH].
Qed.

(** What the lookup gives when it says that there is no such file. *)
Lemma not_found_is_nil_nil
  (decompressMulti : list byte -> list byte -> list byte * option error)
  (fuel : nat) (h1 h2 h3 : Z) (m : MPQ) :
  lookup fuel h1 h2 h3 m = (Ret None, m) ->
  FileByHash decompressMulti fuel h1 h2 h3 m = (Ret (None, None), m).
Proof. intro H. unfold FileByHash, bind. rewrite H. reflexivity. Qed.

(** C5 (the code does otherwise). No entry of the hash table of
    [Sample.full] matches the fingerprint (1, 31, 32), and FileByHash does not
    return nil and nil: it has not returned after any number of probes.  The
    fingerprint (0, 11, 12) leads in [Sample.stray] to the block index 5 of a
    block table of one entry, so to no file, and FileByHash panics instead of
    returning nil and nil. *)
Theorem FileByHash_absent_without_nil_nil
  (decompressMulti : list byte -> list byte -> list byte * option error)
  (fuel : nat) :
  (unmatched Sample.full 31 32 = true
   /\ FileByHash decompressMulti fuel 1 31 32 Sample.full
      = (OutOfFuel, Sample.full))
  /\ (Sample.open Sample.strayBytes = Ret (Some Sample.stray, None)
      /\ FileByHash decompressMulti (S fuel) 0 11 12 Sample.stray
         = (Panic IndexOutOfRange, Sample.stray)).
Proof.
  split; split.
  - vm_compute. reflexivity.
  - unfold FileByHash, lookup, bind, get.
    change (Z.land 1 (sub32 (hashTableEntries (header Sample.full)) 1)) with 1.
    rewrite (probe_full_spins' fuel 1); auto.
  - vm_compute. reflexivity.
  - unfold FileByHash, lookup, bind, get. simpl. reflexivity.
Qed.

(** ** Deleted entries *)

(** An entry marked as deleted whose hashes differ from the fingerprint does
    not end the probe: the next entry is looked at. *)
Lemma probe_skips_unmatched_tombstone (fuel : nat) (h2 h3 i : Z) (m : MPQ)
  (e : HashEntry) :
  i <> hashTableEntries (header m) ->
  index (hashTable m) i = Some e ->
  fileBlockIndex e = 0xfffffffe ->
  filePathHashA e <> h2 \/ filePathHashB e <> h3 ->
  probe (S fuel) h2 h3 i m = probe fuel h2 h3 (add32 i 1) m.
Proof.
  intros Hi He Hd Hh. simpl. unfold bind, get.
  apply Z.eqb_neq in Hi. rewrite Hi, He, Hd. simpl.
  destruct Hh as [Hh | Hh]; apply Z.eqb_neq in Hh; rewrite Hh; simpl;
    [ | rewrite orb_true_r]; reflexivity.
Qed.

(** C6 (the code does otherwise). In [Sample.deleted] the first entry of the
    hash table is marked as deleted (block index 0xFFFFFFFE) and still stores
    the hashes 11 and 12.  The probe for the fingerprint (0, 11, 12) does not
    go past it: it takes the deleted entry as the match, and FileByHash then
    panics while it counts the blocks below index 0xFFFFFFFE. *)
Theorem probe_takes_deleted_entry
  (decompressMulti : list byte -> list byte -> list byte * option error)
  (fuel : nat) :
  Sample.open Sample.deletedBytes = Ret (Some Sample.deleted, None)
  /\ index (hashTable Sample.deleted) 0 = Some Sample.staleTombstone
  /\ fileBlockIndex Sample.staleTombstone = 0xfffffffe
  /\ probe (S fuel) 11 12 0 Sample.deleted
     = (Ret (Some Sample.staleTombstone), Sample.deleted)
  /\ FileByHash decompressMulti (S fuel) 0 11 12 Sample.deleted
     = (Panic IndexOutOfRange, Sample.deleted).
Proof.
  split; [vm_compute; reflexivity | ].
  repeat split.
Qed.

(** ** From the hash entry to the block *)

Lemma nonFilesBelow_bounds (bt : list BlockEntry) (n : Z) :
  0 <= n -> 0 <= nonFilesBelow bt n <= n.
Proof.
  intro Hn. unfold nonFilesBelow, len.
  pose proof (filter_length_le isNonFile (firstn (Z.to_nat n) bt)) as H1.
  pose proof (firstn_le_length (Z.to_nat n) bt) as H2. lia.
Qed.

Lemma nonFilesBelow_cons (be : BlockEntry) (bt : list BlockEntry) (n : Z) :
  0 < n ->
  nonFilesBelow (be :: bt) n
  = (if isNonFile be then 1 else 0) + nonFilesBelow bt (n - 1).
Proof.
  intro Hn. unfold nonFilesBelow, len.
  replace (Z.to_nat n) with (S (Z.to_nat (n - 1))) by lia.
  cbn [firstn filter].
  destruct (isNonFile be); [cbn [List.length]; rewrite Nat2Z.inj_succ | ]; lia.
Qed.

(** The counting loop of the code counts what the specification counts, as
    long as the block index is not past the end of the block table. *)
Lemma countNonFiles_counts (bt : list BlockEntry) :
  forall j fbi counter,
    j <= fbi -> fbi - j <= len bt -> 0 <= counter ->
    counter + len bt < 2 ^ 32 ->
    countNonFiles bt j fbi counter = Some (counter + nonFilesBelow bt (fbi - j)).
Proof.
  induction bt as [ | be bt IH]; intros j fbi counter Hj Hl Hc Hb.
  - unfold len in Hl. simpl in *. assert (j = fbi) as -> by lia.
    rewrite Z.ltb_irrefl. unfold nonFilesBelow.
    rewrite firstn_nil. simpl. f_equal. unfold len. simpl. lia.
  - unfold len in Hl, Hb. cbn [List.length] in Hl, Hb.
    rewrite Nat2Z.inj_succ in Hl, Hb. simpl.
    destruct (j <? fbi) eqn:E.
    + apply Z.ltb_lt in E. rewrite nonFilesBelow_cons by lia.
      fold (isNonFile be).
      assert (add32 counter 1 = counter + 1) as Hadd
          by (unfold add32, u32; rewrite Z.mod_small; lia).
      rewrite Hadd.
      replace (fbi - j - 1) with (fbi - (j + 1)) by lia.
      rewrite IH; unfold len; destruct (isNonFile be); try lia;
        apply f_equal; lia.
    + apply Z.ltb_ge in E. assert (j = fbi) as -> by lia.
      rewrite Z.sub_diag. unfold nonFilesBelow. simpl. f_equal.
      unfold len. simpl. lia.
Qed.

(** Past the end of the block table the counting loop panics. *)
Lemma countNonFiles_panics (bt : list BlockEntry) :
  forall j fbi counter,
    len bt < fbi - j -> countNonFiles bt j fbi counter = None.
Proof.
  induction bt as [ | be bt IH]; intros j fbi counter Hl;
    unfold len in Hl; simpl in *.
  - assert ((j <? fbi) = true) as -> by (apply Z.ltb_lt; lia). reflexivity.
  - assert ((j <? fbi) = true) as -> by (apply Z.ltb_lt; lia).
    apply IH. unfold len. lia.
Qed.

(** Within the block table the code resolves the block as the specification
    says: not found for an ordinal that is no file, else the block whose
    index [blockEntryIndices] gives for the ordinal. *)
Lemma resolve_within_table (e : HashEntry) (m : MPQ) :
  0 <= fileBlockIndex e <= len (blockTable m) ->
  len (blockTable m) < 2 ^ 32 ->
  resolve e m =
  let fileOrdinal := fileOrdinal m (fileBlockIndex e) in
  if fileOrdinal >=? filesCount m then (Ret None, m)
  else match index (blockEntryIndices m) fileOrdinal with
       | None => (Panic IndexOutOfRange, m)
       | Some raw =>
           match index (blockTable m) raw with
           | None => (Panic IndexOutOfRange, m)
           | Some be => (Ret (Some (raw, be)), m)
           end
       end.
Proof.
  intros Hi Hl. unfold resolve, bind, get.
  rewrite countNonFiles_counts; try lia.
  replace (fileBlockIndex e - 0) with (fileBlockIndex e) by lia.
  pose proof (nonFilesBelow_bounds (blockTable m) (fileBlockIndex e)
                (proj1 Hi)) as Hn.
  cbv zeta. unfold fileOrdinal.
  replace (sub32 (fileBlockIndex e) (0 + nonFilesBelow (blockTable m) (fileBlockIndex e)))
    with (fileBlockIndex e - nonFilesBelow (blockTable m) (fileBlockIndex e)).
  2:{ unfold sub32, u32. rewrite Z.mod_small; lia. }
  assert ((fileBlockIndex e - nonFilesBelow (blockTable m) (fileBlockIndex e) <? 0)
          = false) as -> by (apply Z.ltb_ge; lia).
  simpl.
  destruct (_ >=? _); [reflexivity | ].
  destruct (index (blockEntryIndices m) _); [ | reflexivity].
  destruct (index (blockTable m) _); reflexivity.
Qed.

(** C4 (the code does otherwise). In [Sample.stray] the fingerprint
    (0, 11, 12) matches a hash entry with block index 5, and the block table
    has one entry, a file.  The file ordinal of the specification is 5, not
    less than the file count 1, so that the lookup is to answer not found;
    the code panics in its counting loop. *)
Theorem resolve_past_block_table_panics
  (decompressMulti : list byte -> list byte -> list byte * option error)
  (fuel : nat) :
  Sample.open Sample.strayBytes = Ret (Some Sample.stray, None)
  /\ probe (S fuel) 11 12 0 Sample.stray
     = (Ret (Some (mkHashEntry 11 12 0 0 5)), Sample.stray)
  /\ len (blockTable Sample.stray) = 1
  /\ fileOrdinal Sample.stray 5 = 5
  /\ filesCount Sample.stray = 1
  /\ lookup (S fuel) 0 11 12 Sample.stray = (Panic IndexOutOfRange, Sample.stray)
  /\ fst (FileByHash decompressMulti (S fuel) 0 11 12 Sample.stray)
     = Panic IndexOutOfRange.
Proof.
  split; [vm_compute; reflexivity | ].
  repeat split.
Qed.
(** ** The sectors of a file *)

Lemma total_app (l1 l2 : list Z) : total (l1 ++ l2) = total l1 + total l2.
Proof. induction l1 as [ | x l1 IH]; simpl; [reflexivity | rewrite IH; lia]. Qed.

Lemma total_constant (f : nat -> Z) (c : Z) (l : list nat) :
  (forall k, In k l -> f k = c) -> total (map f l) = c * len l.
Proof.
  induction l as [ | x l IH]; intro H; unfold len in *; simpl.
  - lia.
  - rewrite H by (left; reflexivity).
    rewrite IH by (intros; apply H; right; assumption).
    cbn [List.length]. lia.
Qed.

(** Without wrap-around in [fileSize + blockSize - 1] the unpacked sizes add
    up to the file size. *)
Lemma unpackedSizes_total (be : BlockEntry) (bs : Z) :
  0 < bs -> 0 <= fileSize be -> fileSize be + bs <= 2 ^ 32 ->
  exists l, unpackedSizes be bs = Some l /\ total l = fileSize be.
Proof.
  intros Hbs Hfs Hsum. unfold unpackedSizes, blocksCount_of, unpackedSize_of.
  destruct (has be beFlagSingle).
  - eexists. split; [reflexivity | ]. simpl. lia.
  - assert ((bs =? 0) = false) as -> by (apply Z.eqb_neq; lia).
    assert (sub32 (add32 (fileSize be) bs) 1 = fileSize be + bs - 1) as ->.
    { unfold sub32, add32, u32. rewrite Zminus_mod_idemp_l.
      apply Z.mod_small. lia. }
    eexists. split; [reflexivity | ].
    set (bc := (fileSize be + bs - 1) / bs).
    assert (0 <= bc) as Hbc0 by (apply Z.div_pos; lia).
    pose proof (Z.mul_div_le (fileSize be + bs - 1) bs Hbs) as Hlo.
    pose proof (Z.mul_succ_div_gt (fileSize be + bs - 1) bs Hbs) as Hhi.
    fold bc in Hlo, Hhi.
    destruct (Z.eq_dec bc 0) as [Hz | Hnz].
    + rewrite Hz. simpl. rewrite Hz in Hhi. lia.
    + assert (bc < 2 ^ 32) as Hbc32 by nia.
      replace (Z.to_nat bc) with (Z.to_nat (bc - 1) + 1)%nat by lia.
      rewrite seq_app, map_app, total_app.
      rewrite (total_constant _ bs).
      * unfold len. rewrite length_seq. cbn [seq map total fold_right].
        assert (sub32 bc 1 = bc - 1) as ->
            by (unfold sub32, u32; apply Z.mod_small; lia).
        replace (Z.of_nat (0 + Z.to_nat (bc - 1))) with (bc - 1) by lia.
        rewrite Z.ltb_irrefl.
        assert (sub32 (fileSize be) (mul32 bs (bc - 1))
                = fileSize be - bs * (bc - 1)) as ->.
        { unfold sub32, mul32, u32.
          rewrite (Z.mod_small (bs * (bc - 1))) by nia.
          apply Z.mod_small. nia. }
        rewrite Z2Nat.id by lia. lia.
      * intros k Hk. apply in_seq in Hk.
        assert (sub32 bc 1 = bc - 1) as ->
            by (unfold sub32, u32; apply Z.mod_small; lia).
        assert ((Z.of_nat k <? bc - 1) = true) as -> by (apply Z.ltb_lt; lia).
        reflexivity.
Qed.

(** A file without blocks is returned as it was allocated, and nothing is
    read. *)
Lemma assemble_no_blocks
  (decompressMulti : list byte -> list byte -> list byte * option error)
  (i : Z) (be : BlockEntry) (m : MPQ) :
  extBlockEntryHighOffsets m = None ->
  blocksCount_of be (blockSize m) = Some 0 ->
  has be beFlagCompressed = false ->
  assemble decompressMulti i be m
  = (Ret (Some (make x00 (fileSize be)), None), m).
Proof.
  intros Hext Hbc Hc. unfold assemble, bind, get. rewrite Hext, Hbc.
  unfold offsetTable, bind, get. rewrite Hc.
  unfold blocksCount_of in Hbc.
  destruct (has be beFlagSingle); [discriminate | ].
  destruct (has be beFlagExtra); reflexivity.
Qed.

(** C8 (the code does otherwise). The block of [Sample.huge] has the file
    size 0xFFFFFFFF and is split into sectors of 4096 bytes.  The sum
    [fileSize + blockSize - 1] wraps around, the count of blocks is 0 and not
    the 1048576 sectors of the rounded-up quotient, the sum of the unpacked
    sizes is 0 and not the file size, and FileByHash returns the content as
    allocated without reading any sector. *)
Theorem unpackedSizes_wrap_around
  (decompressMulti : list byte -> list byte -> list byte * option error)
  (fuel : nat) :
  Sample.open Sample.hugeBytes = Ret (Some Sample.huge, None)
  /\ index (blockTable Sample.huge) 0 = Some Sample.hugeBlock
  /\ blockSize Sample.huge = 4096
  /\ blocksCount_of Sample.hugeBlock 4096 = Some 0
  /\ unpackedSizes Sample.hugeBlock 4096 = Some []
  /\ total [] <> fileSize Sample.hugeBlock
  /\ FileByHash decompressMulti (S fuel) 0 11 12 Sample.huge
     = (Ret (Some (make x00 0xFFFFFFFF), None), Sample.huge).
Proof.
  split; [vm_compute; reflexivity | ].
  do 5 (split; [reflexivity || discriminate | ]).
  unfold FileByHash, bind.
  change (lookup (S fuel) 0 11 12 Sample.huge)
    with (Ret (Some (0, Sample.hugeBlock)), Sample.huge).
  apply (assemble_no_blocks decompressMulti 0 Sample.hugeBlock Sample.huge);
    reflexivity.
Qed.

(** ** Opening an input *)

(** The first read of [diveIn] on an input of fewer than four bytes. *)
Lemma ReadFull_short (bytes : list byte) :
  len bytes < 4 ->
  Reader_ReadFull (NewReader bytes) 4
  = if len bytes =? 0 then ([], Some io_EOF, NewReader bytes)
    else (bytes, Some io_ErrUnexpectedEOF, mkReader bytes (len bytes)).
Proof.
  intro H. unfold Reader_ReadFull, rest, NewReader. simpl.
  destruct (len bytes <=? 0) eqn:E0.
  - apply Z.leb_le in E0. unfold len in *.
    assert (bytes = []) as -> by (destruct bytes; [reflexivity | simpl in E0; lia]).
    reflexivity.
  - apply Z.leb_gt in E0.
    assert ((len bytes =? 0) = false) as -> by (apply Z.eqb_neq; lia).
    assert ((len bytes <? 4) = true) as -> by (apply Z.ltb_lt; lia).
    reflexivity.
Qed.

(** An input shorter than the magic is refused with the error of the read:
    [io.EOF] when it is empty, [io.ErrUnexpectedEOF] else. *)
Lemma New_short (decrypt : list byte -> Z -> list byte) (bytes : list byte) :
  len bytes < 4 ->
  New decrypt (NewReader bytes)
  = Ret (None, Some (if len bytes =? 0 then io_EOF else io_ErrUnexpectedEOF)).
Proof.
  intro H. unfold New, diveIn, bind, ReadFull, newMPQ. cbn [input].
  rewrite (ReadFull_short bytes H).
  destruct (len bytes =? 0); reflexivity.
Qed.

(** C7 (the code does otherwise). Opening an input of zero, one, two or three
    bytes fails, and the error is the one of the read of the magic, [io.EOF]
    or [io.ErrUnexpectedEOF], never ErrInvalidArchive. *)
Theorem New_short_input_error (decrypt : list byte -> Z -> list byte)
  (b0 b1 b2 : byte) :
  New decrypt (NewReader []) = Ret (None, Some io_EOF)
  /\ New decrypt (NewReader [b0]) = Ret (None, Some io_ErrUnexpectedEOF)
  /\ New decrypt (NewReader [b0; b1]) = Ret (None, Some io_ErrUnexpectedEOF)
  /\ New decrypt (NewReader [b0; b1; b2]) = Ret (None, Some io_ErrUnexpectedEOF)
  /\ io_EOF <> ErrInvalidArchive
  /\ io_ErrUnexpectedEOF <> ErrInvalidArchive.
Proof.
  repeat split; try discriminate;
    match goal with
    | |- New _ (NewReader ?b) = _ =>
        rewrite (New_short decrypt b); [reflexivity | unfold len; simpl; lia]
    end.
Qed.

(** ** The handles that the opener returns *)

Lemma parseBlockTable_length (n : nat) :
  forall r, List.length (fst (parseBlockTable n r)) = n.
Proof.
  induction n as [ | n IH]; intro r; [reflexivity | ].
  cbn [parseBlockTable].
  destruct (Reader_binary_Read r 4 0) as [[o e1] r1].
  destruct (Reader_binary_Read r1 4 0) as [[s e2] r2].
  destruct (Reader_binary_Read r2 4 0) as [[f e3] r3].
  destruct (Reader_binary_Read r3 4 0) as [[g e4] r4].
  specialize (IH r4). destruct (parseBlockTable n r4) as [t r5].
  simpl in *. rewrite IH. reflexivity.
Qed.

Lemma readExtOffsets_length (n : nat) :
  forall r err, List.length (fst (fst (readExtOffsets n r err))) = n.
Proof.
  induction n as [ | n IH]; intros r err; [reflexivity | ].
  cbn [readExtOffsets].
  destruct (Reader_binary_Read r 2 0) as [[v e] r1].
  specialize (IH r1 e). destruct (readExtOffsets n r1 e) as [[t e'] r'].
  simpl in *. rewrite IH. reflexivity.
Qed.

Lemma le_decode_nonneg (bs : list byte) : 0 <= le_decode bs.
Proof.
  induction bs as [ | b bs IH]; cbn [le_decode]; [lia | ].
  unfold byteZ. lia.
Qed.

Lemma Reader_binary_Read_nonneg (r : Reader) (w old : Z) :
  0 <= old -> 0 <= fst (fst (Reader_binary_Read r w old)).
Proof.
  intro H. unfold Reader_binary_Read.
  destruct (Reader_ReadFull r w) as [[bs [e | ]] r']; simpl; [assumption | ].
  apply le_decode_nonneg.
Qed.

Section Opened.

Variable decrypt : list byte -> Z -> list byte.

Lemma readExtBlockTable_ext (h : Header) (ho : Z) (r : Reader) (m m' : MPQ) :
  extBlockEntryHighOffsets m = None ->
  readExtBlockTable h ho r m = (Ret None, m') ->
  header m' = header m /\ blockSize m' = blockSize m
  /\ blockTable m' = blockTable m
  /\ match extBlockEntryHighOffsets m' with
     | None => True
     | Some offs => List.length offs = Z.to_nat (blockTableEntries h)
     end.
Proof.
  unfold readExtBlockTable. intros Hn H.
  destruct (extendedBlockTableOffset h >? 0).
  - unfold bind, Seek in H. destruct (Reader_Seek (input m) _) as [[e | ] r1];
      cbn [is_nil negb] in H; [discriminate | ].
    pose proof (readExtOffsets_length (Z.to_nat (blockTableEntries h)) r None) as L.
    destruct (readExtOffsets _ r None) as [[offs [e | ]] r2];
      unfold bind, modify, ret in H; cbn [is_nil negb] in H; [discriminate | ].
    injection H as <-. simpl in *. repeat split; assumption.
  - injection H as <-. rewrite Hn. repeat split.
Qed.

Lemma readTables_wellFormed (h : Header) (ho : Z) (m m' : MPQ) :
  extBlockEntryHighOffsets m = None ->
  0 <= sectorSizeShift h ->
  readTables decrypt h ho m = (Ret None, m') -> wellFormed m'.
Proof.
  intros Hn Hs H. unfold readTables in H. walk H.
  repeat match goal with
         | S : Seek _ ?m0 = (_, _) |- _ =>
             unfold Seek in S; destruct (Reader_Seek (input m0) _);
             inversion S; subst; clear S
         | R : ReadFull _ ?m0 = (_, _) |- _ =>
             unfold ReadFull in R;
             destruct (Reader_ReadFull (input m0) _) as [[? ?] ?];
             inversion R; subst; clear R
         end.
  match goal with
  | E : readExtBlockTable _ _ _ _ = (Ret None, _) |- _ =>
      apply readExtBlockTable_ext in E; [ | exact Hn];
      destruct E as (E1 & E2 & E3 & E4)
  end.
  match goal with
  | P : parseBlockTable ?n ?r = (?bt, _) |- _ =>
      pose proof (parseBlockTable_length n r) as L; rewrite P in L;
      cbn [fst] in L
  end.
  injection H as <-. unfold wellFormed.
  cbn [blockSize header extBlockEntryHighOffsets blockTable set_files].
  rewrite E1, E2, E3. cbn.
  repeat split; try assumption.
  match goal with
  | |- match ?x with _ => _ end => destruct x; [ | exact I]
  end.
  unfold len. rewrite E4, L. reflexivity.
Qed.

Lemma readTables_header (h : Header) (ho : Z) (m m' : MPQ) :
  readTables decrypt h ho m = (Ret None, m') -> header m' = h.
Proof.
  intro H. unfold readTables in H. walk H.
  repeat match goal with
         | S : Seek _ ?m0 = (_, _) |- _ =>
             unfold Seek in S; destruct (Reader_Seek (input m0) _);
             inversion S; subst; clear S
         | R : ReadFull _ ?m0 = (_, _) |- _ =>
             unfold ReadFull in R;
             destruct (Reader_ReadFull (input m0) _) as [[? ?] ?];
             inversion R; subst; clear R
         end.
  match goal with
  | E : readExtBlockTable _ _ _ ?m0 = (Ret None, _) |- _ =>
      assert (header m0 = h) as Hh by reflexivity;
      unfold readExtBlockTable in E; walk E
  end.
  all: repeat match goal with
              | S : Seek _ ?m0 = (_, _) |- _ =>
                  unfold Seek in S; destruct (Reader_Seek (input m0) _);
                  inversion S; subst; clear S
              | E : (Ret _, _) = (Ret _, _) |- _ =>
                  inversion E; subst; clear E
              end; reflexivity.
Qed.

(** What the closure [read] does to the handle and what it gives. *)
Lemma read_inv (err : option error) (w : Z) (m m' : MPQ) (v : Z)
  (e : option error) :
  read err w m = (Ret (v, e), m') ->
  0 <= v /\ exists r, m' = set_input m r.
Proof.
  unfold read. destruct err as [e0 | ].
  - intro H. injection H as <- _ <-. split; [lia | ].
    exists (input m). destruct m. reflexivity.
  - unfold binary_Read. intro H.
    pose proof (Reader_binary_Read_nonneg (input m) w 0 (Z.le_refl 0)) as N.
    destruct (Reader_binary_Read (input m) w 0) as [[v0 e0] r].
    injection H as <- _ <-. split; [exact N | eauto].
Qed.

Ltac open_steps :=
  repeat match goal with
         | S : Seek _ ?m0 = (_, _) |- _ =>
             unfold Seek in S; destruct (Reader_Seek (input m0) _);
             inversion S; subst; clear S
         | R : ReadFull _ ?m0 = (_, _) |- _ =>
             unfold ReadFull in R;
             destruct (Reader_ReadFull (input m0) _) as [[? ?] ?];
             inversion R; subst; clear R
         | R : binary_Read _ _ ?m0 = (_, _) |- _ =>
             unfold binary_Read in R;
             destruct (Reader_binary_Read (input m0) _ _) as [[? ?] ?];
             inversion R; subst; clear R
         | R : read _ _ _ = (Ret (_, _), _) |- _ =>
             apply read_inv in R; destruct R as (? & ? & ->)
         | E : (match ?c with Some _ => _ | None => _ end) _ = (_, _) |- _ =>
             destruct c; cbv beta in E
         | E : (Ret _, _) = (Ret _, _) |- _ => inversion E; subst; clear E
         end.

Lemma readHeader_inv (m m' : MPQ) (h : Header) :
  readHeader m = (Ret (inr h), m') ->
  0 <= sectorSizeShift h
  /\ 0 <= blockTableEntries h
  /\ extBlockEntryHighOffsets m' = extBlockEntryHighOffsets m.
Proof.
  intro H. unfold readHeader in H. walk H.
  match goal with
  | E : (if ?c then _ else _) _ = _ |- _ => destruct c; walk E
  end; open_steps; repeat split; assumption.
Qed.

Lemma readUserData_inv (m m' : MPQ) (magic : list byte) (ho : Z) :
  readUserData m = (Ret (inr (magic, ho)), m') ->
  extBlockEntryHighOffsets m' = extBlockEntryHighOffsets m.
Proof.
  intro H. unfold readUserData in H. walk H; open_steps; reflexivity.
Qed.

(** Every handle that [New] returns is well formed. *)
Lemma New_wellFormed (i : Reader) (m : MPQ) :
  New decrypt i = Ret (Some m, None) -> wellFormed m.
Proof.
  unfold New. intro H.
  destruct (diveIn decrypt (newMPQ i)) as [[[e | ] | p | ] m'] eqn:D;
    try discriminate.
  injection H as <-. unfold diveIn in D. walk D; open_steps.
  match goal with
  | H : readHeader _ = (Ret (inr _), _) |- _ =>
      apply readHeader_inv in H; destruct H as (Hs & _ & He)
  end.
  match goal with
  | D : readTables _ ?h ?z ?m1 = _ |- _ =>
      apply (readTables_wellFormed h z m1 m'); [ | assumption | assumption]
  end.
  rewrite He.
  match goal with
  | E : (if ?c then _ else _) _ = _ |- _ => destruct c
  end.
  - match goal with
    | E : readUserData _ = _ |- _ => apply readUserData_inv in E; rewrite E
    end.
    reflexivity.
  - open_steps. reflexivity.
Qed.


End Opened.

(** The block size of a handle is zero or 512 at least. *)
Lemma shl32_512 (s : Z) : 0 <= s -> shl32 512 s = 0 \/ 512 <= shl32 512 s.
Proof.
  intro Hs. unfold shl32, u32. rewrite Z.shiftl_mul_pow2 by assumption.
  destruct (Z_lt_le_dec s 23) as [Hlt | Hge].
  - right. assert (1 <= 2 ^ s <= 2 ^ 22) as Hp.
    { split; [apply (Z.pow_le_mono_r 2 0 s); lia
             | apply Z.pow_le_mono_r; lia]. }
    rewrite Z.mod_small; lia.
  - left. replace s with (23 + (s - 23)) by lia.
    rewrite Z.pow_add_r by lia.
    replace (512 * (2 ^ 23 * 2 ^ (s - 23))) with (2 ^ (s - 23) * 2 ^ 32) by lia.
    apply Z_mod_mult.
Qed.

Lemma blocksCount_of_bound (be : BlockEntry) (bs bc : Z) :
  bs = 0 \/ 512 <= bs ->
  blocksCount_of be bs = Some bc -> bc < 2 ^ 32 - 2.
Proof.
  intros Hbs H. unfold blocksCount_of in H.
  destruct (has be beFlagSingle); [injection H as <-; lia | ].
  destruct (bs =? 0) eqn:E; [discriminate | ]. apply Z.eqb_neq in E.
  injection H as <-.
  assert (0 <= sub32 (add32 (fileSize be) bs) 1 < 2 ^ 32) as Hx
      by (unfold sub32, u32; apply Z.mod_pos_bound; lia).
  assert (0 < bs) as Hp by lia.
  pose proof (Z.mul_div_le (sub32 (add32 (fileSize be) bs) 1) bs Hp). nia.
Qed.

Lemma index_Some {A} (l : list A) (i : Z) (x : A) :
  index l i = Some x -> 0 <= i < len l.
Proof.
  unfold index, len. destruct (i <? 0) eqn:E; [discriminate | ].
  apply Z.ltb_ge in E. intro H.
  assert (nth_error l (Z.to_nat i) <> None) as N by congruence.
  apply nth_error_Some in N. lia.
Qed.

(** The block the lookup gives is the block of the block table at the index
    it gives. *)
Lemma lookup_index (fuel : nat) (h1 h2 h3 : Z) (m m' : MPQ) (i : Z)
  (be : BlockEntry) :
  lookup fuel h1 h2 h3 m = (Ret (Some (i, be)), m') ->
  index (blockTable m) i = Some be.
Proof.
  unfold lookup, bind, get. intro H.
  pose proof (probe_state fuel h2 h3 m
                (Z.land h1 (sub32 (hashTableEntries (header m)) 1))) as P.
  destruct (probe fuel h2 h3 _ m) as [[[e | ] | p | ] m1]; try discriminate.
  simpl in P. subst m1. unfold resolve, bind, get in H.
  destruct (countNonFiles _ _ _ _); [ | discriminate].
  destruct (_ || _); [discriminate | ].
  destruct (index (blockEntryIndices m) _) as [raw | ]; [ | discriminate].
  destruct (index (blockTable m) raw) as [b | ] eqn:E; [ | discriminate].
  injection H as <- <- _. exact E.
Qed.

(** ** The extended block table *)

Lemma rest_len (r : Reader) :
  0 <= pos r -> len (rest r) = Z.max 0 (len (data r) - pos r).
Proof.
  intro H. unfold rest. destruct (len (data r) <=? pos r) eqn:E.
  - apply Z.leb_le in E. unfold len in *. simpl. lia.
  - apply Z.leb_gt in E. unfold len in *. rewrite length_skipn. lia.
Qed.

(** A read of [n] bytes takes [n] bytes from what is left, or all of it. *)
Lemma Reader_ReadFull_rest (r : Reader) (n : Z) :
  0 <= pos r -> 0 < n ->
  0 <= pos (snd (Reader_ReadFull r n))
  /\ len (rest (snd (Reader_ReadFull r n))) = Z.max 0 (len (rest r) - n).
Proof.
  intros Hp Hn. unfold Reader_ReadFull.
  assert ((n <=? 0) = false) as -> by (apply Z.leb_gt; lia).
  pose proof (rest_len r Hp) as Hr.
  destruct (len (rest r) =? 0) eqn:E0.
  - apply Z.eqb_eq in E0. simpl. lia.
  - apply Z.eqb_neq in E0.
    destruct (len (rest r) <? n) eqn:E1; simpl.
    + apply Z.ltb_lt in E1. split; [unfold len; lia | ].
      rewrite rest_len by (simpl; unfold len; lia). simpl. lia.
    + apply Z.ltb_ge in E1. split; [lia | ].
      rewrite rest_len by (simpl; lia). simpl. lia.
Qed.

Lemma Reader_binary_Read_rest (r : Reader) (w old : Z) :
  0 <= pos r -> 0 < w ->
  0 <= pos (snd (Reader_binary_Read r w old))
  /\ len (rest (snd (Reader_binary_Read r w old))) = Z.max 0 (len (rest r) - w).
Proof.
  intros Hp Hw. unfold Reader_binary_Read.
  pose proof (Reader_ReadFull_rest r w Hp Hw) as H.
  destruct (Reader_ReadFull r w) as [[bs [e | ]] r']; exact H.
Qed.

(** The loop over the block table uses up sixteen bytes of its reader for
    every entry. *)
Lemma parseBlockTable_rest (n : nat) :
  forall r, 0 <= pos r ->
    0 <= pos (snd (parseBlockTable n r))
    /\ len (rest (snd (parseBlockTable n r)))
       = Z.max 0 (len (rest r) - 16 * Z.of_nat n).
Proof.
  induction n as [ | n IH]; intros r Hp.
  - simpl. split; [assumption | ]. unfold len. lia.
  - cbn [parseBlockTable].
    pose proof (Reader_binary_Read_rest r 4 0 Hp ltac:(lia)) as [P1 L1].
    destruct (Reader_binary_Read r 4 0) as [[o e1] r1]. simpl in P1, L1.
    pose proof (Reader_binary_Read_rest r1 4 0 P1 ltac:(lia)) as [P2 L2].
    destruct (Reader_binary_Read r1 4 0) as [[s e2] r2]. simpl in P2, L2.
    pose proof (Reader_binary_Read_rest r2 4 0 P2 ltac:(lia)) as [P3 L3].
    destruct (Reader_binary_Read r2 4 0) as [[f e3] r3]. simpl in P3, L3.
    pose proof (Reader_binary_Read_rest r3 4 0 P3 ltac:(lia)) as [P4 L4].
    destruct (Reader_binary_Read r3 4 0) as [[g e4] r4]. simpl in P4, L4.
    specialize (IH r4 P4).
    destruct (parseBlockTable n r4) as [t r5]. cbn [snd] in IH |- *.
    destruct IH as [P5 L5]. split; [assumption | ].
    rewrite Nat2Z.inj_succ. lia.
Qed.

(** A reader with nothing left gives [io.EOF] to every read. *)
Lemma Reader_binary_Read_at_end (r : Reader) (w old : Z) :
  0 < w -> len (rest r) = 0 ->
  Reader_binary_Read r w old = (old, Some io_EOF, r).
Proof.
  intros Hw Hr. unfold Reader_binary_Read, Reader_ReadFull.
  assert ((w <=? 0) = false) as -> by (apply Z.leb_gt; lia).
  rewrite Hr. reflexivity.
Qed.

Lemma readExtOffsets_at_end (n : nat) (r : Reader) :
  len (rest r) = 0 ->
  forall err, snd (fst (readExtOffsets (S n) r err)) = Some io_EOF.
Proof.
  intro Hr. induction n as [ | n IH]; intro err.
  - simpl. rewrite Reader_binary_Read_at_end by (assumption || lia). reflexivity.
  - specialize (IH (Some io_EOF)).
    change (readExtOffsets (S (S n)) r err)
      with (let '(v, e, r0) := Reader_binary_Read r 2 0 in
            let '(t, e', r') := readExtOffsets (S n) r0 e in (v :: t, e', r')).
    rewrite Reader_binary_Read_at_end by (assumption || lia).
    destruct (readExtOffsets (S n) r (Some io_EOF)) as [[t e'] r'].
    simpl in *. assumption.
Qed.

(** With an extended block table and at least one block, the step of
    [diveIn] that reads the table fails: it reads from the reader of the
    block-table buffer, which has nothing left. *)
Lemma readExtBlockTable_fails (h : Header) (headerOffset : Z) (r : Reader)
  (m : MPQ) :
  len (rest r) = 0 ->
  extendedBlockTableOffset h > 0 ->
  0 < blockTableEntries h ->
  fst (readExtBlockTable h headerOffset r m) = Ret (Some ErrInvalidArchive).
Proof.
  intros Hr Hx Hb. unfold readExtBlockTable, bind.
  assert ((extendedBlockTableOffset h >? 0) = true) as ->
      by (apply Z.gtb_lt; lia).
  destruct (Seek _ m) as [[[e | ] | p | ] m1] eqn:S1;
    try (unfold Seek in S1; destruct (Reader_Seek _ _); discriminate);
    simpl; [reflexivity | ].
  replace (Z.to_nat (blockTableEntries h))
    with (S (Z.to_nat (blockTableEntries h - 1))) by lia.
  pose proof (readExtOffsets_at_end (Z.to_nat (blockTableEntries h - 1)) r Hr
                None) as E.
  destruct (readExtOffsets _ r None) as [[offs err] r'].
  simpl in E. subst err. reflexivity.
Qed.

Lemma Reader_ReadFull_length (r r' : Reader) (n : Z) (bs : list byte) :
  Reader_ReadFull r n = (bs, None, r') -> len bs = Z.max 0 n.
Proof.
  unfold Reader_ReadFull. intro H.
  destruct (n <=? 0) eqn:E0.
  - injection H as <- _. apply Z.leb_le in E0. unfold len. simpl. lia.
  - destruct (len (rest r) =? 0); [discriminate | ].
    destruct (len (rest r) <? n) eqn:E1; [discriminate | ].
    injection H as <- _. apply Z.leb_gt in E0. apply Z.ltb_ge in E1.
    unfold len in *. rewrite length_firstn. lia.
Qed.

Section ExtendedBlockTable.

Variable decrypt : list byte -> Z -> list byte.

(** The cipher rewrites its buffer in place. *)
Hypothesis decrypt_length :
  forall bs key, List.length (decrypt bs key) = List.length bs.

(** No archive with an extended block table and at least one block is ever
    opened: [diveIn] does not get past its tables. *)
Lemma readTables_ext_never_opens (h : Header) (headerOffset : Z) (m m' : MPQ) :
  extendedBlockTableOffset h > 0 ->
  0 < blockTableEntries h ->
  readTables decrypt h headerOffset m <> (Ret None, m').
Proof.
  intros Hx Hb H. unfold readTables in H. walk H.
  repeat match goal with
         | Hn : negb (is_nil ?o) = false |- _ =>
             destruct o; [discriminate Hn | clear Hn]
         end.
  match goal with
  | P : parseBlockTable _ (NewReader (decrypt ?b ?key)) = (_, ?r),
    R : ReadFull ?n ?m3 = (Ret (?b, None), _),
    E : readExtBlockTable _ _ ?r ?mm = (Ret None, _) |- _ =>
      pose proof (readExtBlockTable_fails h headerOffset r mm) as F;
      rewrite E in F;
      pose proof (parseBlockTable_rest (Z.to_nat (blockTableEntries h))
                    (NewReader (decrypt b key)) (Z.le_refl 0)) as [_ L];
      rewrite P in L; cbn [snd] in L;
      rewrite (rest_len (NewReader (decrypt b key))) in L by (simpl; lia);
      unfold ReadFull in R;
      destruct (Reader_ReadFull (input m3) n) as [[bs e] r1] eqn:RF;
      injection R as -> -> _;
      apply Reader_ReadFull_length in RF
  end.
  match type of F with
  | ?P -> _ => assert P as Hr
  end.
  { rewrite L. cbn [data pos NewReader]. unfold len in *.
    rewrite decrypt_length, RF.
    unfold mul32, u32.
    pose proof (Z.mod_le (blockTableEntries h * 16) (2 ^ 32)
                  ltac:(lia) ltac:(lia)).
    lia. }
  specialize (F Hr Hx Hb). discriminate.
Qed.

(** An archive that is opened with an extended block table has no block. *)
Lemma New_ext_no_blocks (i : Reader) (m : MPQ) :
  New decrypt i = Ret (Some m, None) ->
  extendedBlockTableOffset (header m) > 0 ->
  blockTableEntries (header m) = 0.
Proof.
  unfold New. intros H Hx.
  destruct (diveIn decrypt (newMPQ i)) as [[[e | ] | p | ] m'] eqn:D;
    try discriminate.
  injection H as <-. unfold diveIn in D. walk D.
  match goal with
  | H : readHeader _ = (Ret (inr _), _) |- _ =>
      apply readHeader_inv in H; destruct H as (_ & Hb & _)
  end.
  pose proof (readTables_header decrypt _ _ _ _ D) as Hh.
  rewrite Hh in *.
  match type of Hb with
  | 0 <= ?b => destruct (Z.eq_dec b 0) as [E | E]; [exact E | ]
  end.
  exfalso. eapply readTables_ext_never_opens; [ | | exact D]; lia.
Qed.

End ExtendedBlockTable.

(** C3 (the code does otherwise). [Sample.extBytes] is a version 1 archive
    with one block whose header gives the extended block table at offset 97,
    and the input holds the two bytes of the table there.  Opening it fails
    with ErrInvalidArchive: the loop reads the table from the reader of the
    block-table buffer instead of the input.  Only an archive without blocks,
    as [Sample.extEmptyBytes], is opened with an extended block table. *)
Theorem diveIn_ext_table_not_read_from_input :
  fst (readHeader (newMPQ (mkReader Sample.extBytes 4)))
  = Ret (inr (mkHeader 44 99 1 3 44 76 2 1 97 0 0))
  /\ Reader_ReadFull (mkReader Sample.extBytes 97) 2
     = ([x00; x00], None, mkReader Sample.extBytes 99)
  /\ Sample.open Sample.extBytes = Ret (None, Some ErrInvalidArchive)
  /\ (exists m, Sample.open Sample.extEmptyBytes = Ret (Some m, None)
                /\ extendedBlockTableOffset (header m) = 44
                /\ extBlockEntryHighOffsets m = Some []).
Proof.
  split; [vm_compute; reflexivity | ].
  split; [vm_compute; reflexivity | ].
  split; [vm_compute; reflexivity | ].
  eexists. split; [vm_compute; reflexivity | ].
  split; reflexivity.
Qed.

(** ** Storage that is not supported *)

Lemma set_nth_length {A} (l : list A) :
  forall n v, List.length (set_nth l n v) = List.length l.
Proof.
  induction l as [ | x l IH]; intros [ | n] v; simpl; try reflexivity.
  rewrite IH. reflexivity.
Qed.

Lemma store_within {A} (l : list A) (i : Z) (v : A) :
  0 <= i < len l -> exists l', store l i v = Some l' /\ len l' = len l.
Proof.
  intro H. unfold store.
  assert ((0 <=? i) && (i <? len l) = true) as ->.
  { apply andb_true_intro. split; [apply Z.leb_le | apply Z.ltb_lt]; lia. }
  eexists. split; [reflexivity | ]. unfold len. rewrite set_nth_length.
  reflexivity.
Qed.

Lemma fillOffsets_within (n : nat) (bs : Z) :
  forall k pbo, 0 <= k -> k + Z.of_nat n <= len pbo ->
    exists p, fillOffsets n k bs pbo = Some p /\ len p = len pbo.
Proof.
  induction n as [ | n IH]; intros k pbo Hk Hn.
  - exists pbo. split; reflexivity.
  - rewrite Nat2Z.inj_succ in Hn. cbn [fillOffsets].
    destruct (store_within pbo k (mul32 k bs)) as (p1 & -> & L1); [lia | ].
    destruct (IH (k + 1) p1) as (p & E & L); try lia.
    exists p. split; [assumption | lia].
Qed.

Lemma loadOffsets_length (n : nat) :
  forall err m pbo err' m',
    loadOffsets n err m = (Ret (pbo, err'), m') -> len pbo = Z.of_nat n.
Proof.
  induction n as [ | n IH]; intros err m pbo err' m' H.
  - simpl in H. injection H as <- _ _. reflexivity.
  - cbn [loadOffsets] in H. unfold bind in H.
    destruct (binary_Read 4 0 m) as [[[v e] | p | ] m1]; try discriminate.
    destruct (loadOffsets n e m1) as [[[t e'] | p | ] m2] eqn:L;
      try discriminate.
    apply IH in L. injection H as <- _ _. unfold len in *.
    cbn [List.length]. lia.
Qed.

Lemma index_within {A} (l : list A) (i : Z) :
  0 <= i < len l -> exists x, index l i = Some x.
Proof.
  intro H. unfold index, len in *.
  assert ((i <? 0) = false) as -> by (apply Z.ltb_ge; lia).
  destruct (nth_error l (Z.to_nat i)) as [x | ] eqn:E; [eauto | ].
  apply nth_error_None in E. lia.
Qed.

Lemma make_len {A} (z : A) (n : Z) : 0 <= n -> len (make z n) = n.
Proof. intro H. unfold len, make. rewrite repeat_length. lia. Qed.

(** Loading the table neither panics nor loops. *)
Lemma loadOffsets_returns (n : nat) :
  forall err m, exists pbo err' m',
    loadOffsets n err m = (Ret (pbo, err'), m').
Proof.
  induction n as [ | n IH]; intros err m.
  - simpl. unfold ret. eauto.
  - cbn [loadOffsets]. unfold bind. unfold binary_Read at 1.
    destruct (Reader_binary_Read (input m) 4 0) as [[v e] r].
    destruct (IH e (set_input m r)) as (t & e' & m' & ->).
    unfold ret. eauto.
Qed.

(** The packed block offset table of a file with blocks: an error, which is
    ErrInvalidArchive, or a table of two entries at least. *)
Lemma offsetTable_shape (be : BlockEntry) (bc base : Z) (m : MPQ) :
  1 <= bc < 2 ^ 32 - 2 ->
  fst (offsetTable be bc base m) = Ret (inl ErrInvalidArchive)
  \/ exists pbo, fst (offsetTable be bc base m) = Ret (inr pbo)
                 /\ 2 <= len pbo.
Proof.
  intro Hbc. unfold offsetTable, bind, get.
  assert (add32 bc 1 = bc + 1) as E1
      by (unfold add32, u32; apply Z.mod_small; lia).
  assert (add32 (bc + 1) 1 = bc + 2) as E2
      by (unfold add32, u32; rewrite Z.mod_small; lia).
  rewrite E1, E2.
  set (temp := if has be beFlagExtra then bc + 2 else bc + 1).
  assert (bc + 1 <= temp) as Ht by (unfold temp; destruct (has be _); lia).
  destruct (has be beFlagCompressed && negb (has be beFlagSingle)).
  - unfold Seek. destruct (Reader_Seek (input m) base) as [[e | ] r];
      cbn [is_nil negb fst]; [left; reflexivity | ].
    destruct (loadOffsets_returns (Z.to_nat temp) None (set_input m r))
      as (pbo & e & m1 & L).
    rewrite L. apply loadOffsets_length in L.
    destruct e as [e | ]; cbn [is_nil negb fst]; [left; reflexivity | ].
    destruct (has be beFlagEncrypted); cbn [fst]; [left; reflexivity | ].
    right. exists pbo. split; [reflexivity | lia].
  - right.
    assert (len (make 0 temp) = temp) as Lm by (apply make_len; lia).
    destruct (has be beFlagSingle); cbn [negb].
    + destruct (store_within (make 0 temp) 0 0) as (p1 & -> & L1); [lia | ].
      destruct (store_within p1 1 (be_blockSize be)) as (p2 & -> & L2); [lia | ].
      exists p2. split; [reflexivity | lia].
    + destruct (fillOffsets_within (Z.to_nat bc) (blockSize m) 0 (make 0 temp))
        as (p1 & -> & L1); try lia.
      destruct (store_within p1 bc (be_blockSize be)) as (p2 & -> & L2); [lia | ].
      exists p2. split; [reflexivity | lia].
Qed.

Section Unsupported.

Variable decompressMulti : list byte -> list byte -> list byte * option error.

(** The first block of a file whose storage is not supported ends the call
    with ErrInvalidArchive, whether the block can be read or not. *)
Lemma readBlocks_unsupported (n : nat) (be : BlockEntry) (bc base : Z)
  (pbo : list Z) (content : list byte) (m : MPQ) :
  unsupported be -> 2 <= len pbo ->
  fst (readBlocks decompressMulti (S n) 0 be bc base pbo content 0 m)
  = Ret (None, Some ErrInvalidArchive).
Proof.
  intros Hu Hl. cbn [readBlocks]. unfold bind, get.
  destruct (index_within pbo (0 + 1)) as (hi & ->); [lia | ].
  destruct (index_within pbo 0) as (lo & ->); [lia | ].
  unfold Seek. destruct (Reader_Seek (input m) (add64 base lo)) as [[e | ] r];
    cbn [is_nil negb fst]; [reflexivity | ].
  unfold ReadFull.
  destruct (Reader_ReadFull (input (set_input m r)) (sub32 hi lo))
    as [[bs [e | ]] r1]; cbn [is_nil negb fst]; [reflexivity | ].
  destruct Hu as [-> | [Hp ->]]; [reflexivity | ].
  rewrite Hp. destruct (has be beFlagEncrypted); reflexivity.
Qed.

Lemma assemble_unsupported (i : Z) (be : BlockEntry) (bc : Z) (m : MPQ) :
  unsupported be -> covered m i ->
  blocksCount_of be (blockSize m) = Some bc -> 1 <= bc < 2 ^ 32 - 2 ->
  fst (assemble decompressMulti i be m) = Ret (None, Some ErrInvalidArchive).
Proof.
  intros Hu Hc Hbc Hr. unfold assemble, bind, get.
  unfold covered in Hc.
  set (base0 := match extBlockEntryHighOffsets m with
                | Some offs =>
                    match index offs i with
                    | Some h => Some (add64 (blockOffset be) (Z.shiftl h 32))
                    | None => None
                    end
                | None => Some (blockOffset be)
                end).
  assert (exists b, base0 = Some b) as (b & ->).
  { unfold base0. destruct (extBlockEntryHighOffsets m) as [offs | ]; [ | eauto].
    destruct (index_within offs i Hc) as (h & ->). eauto. }
  rewrite Hbc.
  set (base := match userData m with
               | Some u => add64 b (u_headerOffset u)
               | None => b
               end).
  destruct (offsetTable_shape be bc base m Hr) as [E | (pbo & E & L)];
    destruct (offsetTable be bc base m) as [[[e | t] | p | ] m1];
    cbn [fst] in E; try discriminate; injection E as ->; [reflexivity | ].
  replace (Z.to_nat bc) with (S (Z.to_nat (bc - 1))) by lia.
  apply readBlocks_unsupported; assumption.
Qed.

(** C2 (as amended). When the fingerprint is resolved to a block that has at
    least one sector and whose storage needs decryption (of the payload or of
    the packed block offset table) or is imploded without being under
    multiple compression, FileByHash fails with ErrInvalidArchive, the error
    value it gives for every other failure as well. *)
Theorem FileByHash_unsupported_storage (fuel : nat) (h1 h2 h3 : Z) (m : MPQ)
  (blockEntryIndex : Z) (blockEntry : BlockEntry) (blocksCount : Z) :
  wellFormed m ->
  lookup fuel h1 h2 h3 m = (Ret (Some (blockEntryIndex, blockEntry)), m) ->
  unsupported blockEntry ->
  blocksCount_of blockEntry (blockSize m) = Some blocksCount ->
  1 <= blocksCount ->
  fst (FileByHash decompressMulti fuel h1 h2 h3 m)
  = Ret (None, Some ErrInvalidArchive).
Proof.
  intros (Wb & Ws & We) Hl Hu Hb Hr. unfold FileByHash, bind. rewrite Hl.
  apply (assemble_unsupported blockEntryIndex blockEntry blocksCount m Hu);
    [ | assumption | ].
  - unfold covered. destruct (extBlockEntryHighOffsets m) as [offs | ];
      [ | exact I].
    rewrite We. eapply index_Some, lookup_index, Hl.
  - split; [assumption | ].
    apply (blocksCount_of_bound blockEntry (blockSize m)); [ | assumption].
    rewrite Wb. apply shl32_512. assumption.
Qed.

End Unsupported.

(** The encrypted file of [Sample.encrypted] is refused with
    ErrInvalidArchive. *)
Lemma FileByHash_unsupported_storage_witness :
  fst (FileByHash Sample.decompressMulti 2 0 11 12 Sample.encrypted)
  = Ret (None, Some ErrInvalidArchive).
Proof.
  apply (FileByHash_unsupported_storage Sample.decompressMulti 2 0 11 12
           Sample.encrypted 0 (Sample.helloBlock 2 beFlagEncrypted) 1).
  - apply (New_wellFormed Crypt.decrypt (NewReader Sample.encryptedBytes)).
    vm_compute. reflexivity.
  - vm_compute. reflexivity.
  - left. reflexivity.
  - reflexivity.
  - lia.
Defined.

(** C2 (as the claim states it, refuted). The error of an encrypted file,
    of an imploded file and of a file with an encrypted packed block offset
    table is ErrInvalidArchive, the error of an invalid archive, and an
    encrypted file of size zero is returned without any error. *)
Lemma unsupported_storage_error_is_ErrInvalidArchive :
  (Sample.open Sample.encryptedBytes = Ret (Some Sample.encrypted, None)
   /\ Sample.open Sample.implodedBytes = Ret (Some Sample.imploded, None)
   /\ Sample.open Sample.encryptedTableBytes
      = Ret (Some Sample.encryptedTable, None)
   /\ Sample.open Sample.encryptedEmptyBytes
      = Ret (Some Sample.encryptedEmpty, None))
  /\ (index (blockTable Sample.encrypted) 0
   = Some (Sample.helloBlock 2 beFlagEncrypted)
   /\ fst (Sample.FileByHash 2 0 11 12 Sample.encrypted)
      = Ret (None, Some ErrInvalidArchive))
  /\ (index (blockTable Sample.imploded) 0
      = Some (Sample.helloBlock 2 beFlagPKWare)
      /\ fst (Sample.FileByHash 2 0 11 12 Sample.imploded)
         = Ret (None, Some ErrInvalidArchive))
  /\ (index (blockTable Sample.encryptedTable) 0
      = Some (mkBlockEntry 80 13 5
                (beFlagFile + beFlagCompressedMulti + beFlagEncrypted))
      /\ fst (Sample.FileByHash 2 0 11 12 Sample.encryptedTable)
         = Ret (None, Some ErrInvalidArchive))
  /\ (index (blockTable Sample.encryptedEmpty) 0
      = Some (mkBlockEntry 80 0 0 (beFlagFile + beFlagEncrypted))
      /\ fst (Sample.FileByHash 2 0 11 12 Sample.encryptedEmpty)
         = Ret (Some [], None)).
Proof.
  repeat split; vm_compute; reflexivity.
Qed.

(** * More of the code *)

(** ** What the opener builds *)

Lemma parseHashTable_length (n : nat) :
  forall r, List.length (fst (parseHashTable n r)) = n.
Proof.
  induction n as [ | n IH]; intro r; [reflexivity | ].
  cbn [parseHashTable].
  destruct (Reader_binary_Read r 4 0) as [[a e1] r1].
  destruct (Reader_binary_Read r1 4 0) as [[b e2] r2].
  destruct (Reader_binary_Read r2 2 0) as [[l e3] r3].
  destruct (Reader_binary_Read r3 2 0) as [[p e4] r4].
  destruct (Reader_binary_Read r4 4 0) as [[f e5] r5].
  specialize (IH r5). destruct (parseHashTable n r5) as [t r6].
  simpl in *. rewrite IH. reflexivity.
Qed.

Lemma byteZ_range (b : byte) : 0 <= byteZ b < 256.
Proof. destruct b; vm_compute; split; congruence. Qed.

Lemma le_decode_range (bs : list byte) :
  0 <= le_decode bs < 256 ^ len bs.
Proof.
  induction bs as [ | b bs IH]; unfold len in *; [simpl; lia | ].
  cbn [le_decode List.length]. rewrite Nat2Z.inj_succ, Z.pow_succ_r by lia.
  pose proof (byteZ_range b). lia.
Qed.

(** An unsigned integer of [w] bytes read from a reader is below [256 ^ w]. *)
Lemma Reader_binary_Read_range (r : Reader) (w : Z) :
  0 < w -> 0 <= fst (fst (Reader_binary_Read r w 0)) < 256 ^ w.
Proof.
  intro Hw. unfold Reader_binary_Read.
  destruct (Reader_ReadFull r w) as [[bs [e | ]] r'] eqn:E; cbn [fst].
  - split; [lia | apply Z.pow_pos_nonneg; lia].
  - apply Reader_ReadFull_length in E.
    pose proof (le_decode_range bs) as H. rewrite E in H.
    rewrite Z.max_r in H by lia. exact H.
Qed.

Lemma read_range (err : option error) (w : Z) (m m' : MPQ) (v : Z)
  (e : option error) :
  0 < w -> read err w m = (Ret (v, e), m') -> 0 <= v < 256 ^ w.
Proof.
  intro Hw. unfold read. destruct err as [e0 | ].
  - intro H. injection H as <- _ _.
    split; [lia | apply Z.pow_pos_nonneg; lia].
  - unfold binary_Read. intro H.
    pose proof (Reader_binary_Read_range (input m) w Hw) as N.
    destruct (Reader_binary_Read (input m) w 0) as [[v0 e0] r].
    injection H as <- _ _. exact N.
Qed.

Lemma readHeader_range (m m' : MPQ) (h : Header) :
  readHeader m = (Ret (inr h), m') -> headerInRange h.
Proof.
  intro H. unfold readHeader in H. walk H.
  match goal with
  | E : (if ?c then _ else _) _ = _ |- _ => destruct c; walk E
  end.
  all: repeat match goal with
         | R : read _ ?w _ = (Ret (_, _), _) |- _ =>
             apply (read_range _ w) in R; [ | lia]
         | E : (Ret _, _) = (Ret _, _) |- _ => inversion E; subst; clear E
         end.
  all: unfold headerInRange; cbn; change (256 ^ 4) with (2 ^ 32) in *;
    change (256 ^ 2) with (2 ^ 16) in *; change (256 ^ 8) with (2 ^ 64) in *;
    repeat split; lia.
Qed.

Lemma Seek_inv (off : Z) (m m' : MPQ) (o : outcome (option error)) :
  Seek off m = (o, m') ->
  exists r, m' = set_input m r /\ data r = data (input m).
Proof.
  unfold Seek. intro H. pose proof (Reader_Seek_data (input m) off) as D.
  destruct (Reader_Seek (input m) off) as [e r]. injection H as _ <-.
  exists r. split; [reflexivity | exact D].
Qed.

Lemma ReadFull_inv (n : Z) (m m' : MPQ) (o : outcome (list byte * option error)) :
  ReadFull n m = (o, m') ->
  exists r, m' = set_input m r /\ data r = data (input m).
Proof.
  unfold ReadFull. intro H. pose proof (Reader_ReadFull_data (input m) n) as D.
  destruct (Reader_ReadFull (input m) n) as [[bs e] r]. injection H as _ <-.
  exists r. split; [reflexivity | exact D].
Qed.

Lemma binary_Read_inv (w old : Z) (m m' : MPQ) (o : outcome (Z * option error)) :
  binary_Read w old m = (o, m') ->
  exists r, m' = set_input m r /\ data r = data (input m).
Proof.
  unfold binary_Read. intro H.
  pose proof (Reader_binary_Read_data (input m) w old) as D.
  destruct (Reader_binary_Read (input m) w old) as [[v e] r].
  injection H as _ <-. exists r. split; [reflexivity | exact D].
Qed.

(** Replaces the states of the steps by what the steps made of them. *)
Ltac trace_steps :=
  repeat match goal with
         | S : Seek _ _ = (_, _) |- _ =>
             apply Seek_inv in S; destruct S as (? & -> & ?)
         | R : ReadFull _ _ = (_, _) |- _ =>
             apply ReadFull_inv in R; destruct R as (? & -> & ?)
         | R : binary_Read _ _ _ = (_, _) |- _ =>
             apply binary_Read_inv in R; destruct R as (? & -> & ?)
         end.

Lemma readExtBlockTable_inv (h : Header) (ho : Z) (r : Reader) (m m' : MPQ) :
  readExtBlockTable h ho r m = (Ret None, m') ->
  (extendedBlockTableOffset h <= 0 /\ m' = m)
  \/ (extendedBlockTableOffset h > 0 /\
      exists r1 offs, m' = set_ext (Some offs) (set_input m r1)
                      /\ data r1 = data (input m)
                      /\ List.length offs = Z.to_nat (blockTableEntries h)).
Proof.
  unfold readExtBlockTable. intro H.
  destruct (extendedBlockTableOffset h >? 0) eqn:X.
  - right. apply Z.gtb_lt in X. split; [lia | ].
    unfold bind in H.
    destruct (Seek _ m) as [[[e | ] | p | ] m1] eqn:S; try discriminate.
    apply Seek_inv in S. destruct S as (r1 & -> & D).
    cbn [is_nil negb] in H.
    pose proof (readExtOffsets_length (Z.to_nat (blockTableEntries h)) r None) as L.
    destruct (readExtOffsets _ r None) as [[offs [e | ]] r2];
      unfold bind, modify, ret in H; cbn [is_nil negb] in H; [discriminate | ].
    injection H as <-. exists r1, offs. repeat split; assumption.
  - left. injection H as <-. split; [ | reflexivity].
    destruct (Z.gtb_spec (extendedBlockTableOffset h) 0); [discriminate | lia].
Qed.

Section OpenedTables.

Variable decrypt : list byte -> Z -> list byte.

(** What the second half of [diveIn] leaves in the handle. *)
Lemma readTables_inv (h : Header) (ho : Z) (m m' : MPQ) :
  readTables decrypt h ho m = (Ret None, m') ->
  header m' = h
  /\ userData m' = userData m
  /\ data (input m') = data (input m)
  /\ blockSize m' = shl32 512 (sectorSizeShift h)
  /\ List.length (hashTable m') = Z.to_nat (hashTableEntries h)
  /\ List.length (blockTable m') = Z.to_nat (blockTableEntries h)
  /\ (blockEntryIndices m', filesCount m')
     = countFiles (blockTable m') 0 (make 0 (blockTableEntries h)) 0.
Proof.
  intro H. unfold readTables in H. walk H. trace_steps.
  repeat match goal with
         | P : parseHashTable ?n ?r = (_, _) |- _ =>
             pose proof (parseHashTable_length n r) as ?L; rewrite P in *;
             clear P
         | P : parseBlockTable ?n ?r = (_, _) |- _ =>
             pose proof (parseBlockTable_length n r) as ?L; rewrite P in *;
             clear P
         end.
  match goal with
  | E : readExtBlockTable _ _ _ _ = (Ret None, _) |- _ =>
      apply readExtBlockTable_inv in E;
      destruct E as [(_ & ->) | (_ & r1 & offs & -> & D & _)]
  end.
  all: injection H as <-; cbn in *; repeat split; congruence.
Qed.

End OpenedTables.

Lemma set_nth_app {A} (pre : list A) (x v : A) (rest : list A) :
  set_nth (pre ++ x :: rest) (List.length pre) v = pre ++ v :: rest.
Proof.
  induction pre as [ | y pre IH]; simpl; [reflexivity | ].
  rewrite IH. reflexivity.
Qed.

(** The loop that counts the files writes the indices of the file entries,
    in ascending order, at the front of [blockEntryIndices]. *)
Lemma countFiles_positions (bt : list BlockEntry) :
  forall i pre rest,
    (List.length bt <= List.length rest)%nat ->
    len pre + len bt < 2 ^ 32 ->
    countFiles bt i (pre ++ rest) (len pre)
    = (pre ++ filePositions bt i
           ++ skipn (List.length (filePositions bt i)) rest,
       len pre + len (filePositions bt i)).
Proof.
  induction bt as [ | be bt IH]; intros i pre rest Hl Hb.
  - simpl. unfold len at 3. simpl. rewrite Z.add_0_r. reflexivity.
  - cbn [countFiles filePositions]. fold (has be beFlagFile).
    fold (isFile be). unfold len in Hb. cbn [List.length] in Hl, Hb.
    rewrite Nat2Z.inj_succ in Hb.
    destruct (isFile be).
    + destruct rest as [ | x rest]; [simpl in Hl; lia | ].
      cbn [List.length] in Hl.
      unfold len at 1. rewrite Nat2Z.id, set_nth_app.
      assert (add32 (len pre) 1 = len (pre ++ [i])) as ->.
      { unfold add32, u32, len. rewrite length_app. cbn [List.length].
        rewrite Z.mod_small; lia. }
      replace (pre ++ i :: rest) with ((pre ++ [i]) ++ rest)
        by (rewrite <- app_assoc; reflexivity).
      rewrite IH.
      * rewrite <- app_assoc. cbn [app List.length skipn]. f_equal.
        unfold len. rewrite length_app. cbn [List.length]. lia.
      * lia.
      * unfold len. rewrite length_app. cbn [List.length]. lia.
    + rewrite IH; [reflexivity | lia | unfold len; lia].
Qed.

Lemma filePositions_length (bt : list BlockEntry) :
  forall i, List.length (filePositions bt i) = List.length (filter isFile bt).
Proof.
  induction bt as [ | be bt IH]; intro i; [reflexivity | ].
  cbn [filePositions filter]. destruct (isFile be); cbn [List.length];
    rewrite IH; reflexivity.
Qed.

Lemma filePositions_le (bt : list BlockEntry) (i : Z) :
  (List.length (filePositions bt i) <= List.length bt)%nat.
Proof.
  rewrite filePositions_length. apply filter_length_le.
Qed.

(** Every listed position is the index of a file entry. *)
Lemma filePositions_files (bt : list BlockEntry) :
  forall i p, In p (filePositions bt i) ->
    i <= p /\ exists be, nth_error bt (Z.to_nat (p - i)) = Some be
                          /\ isFile be = true.
Proof.
  induction bt as [ | be bt IH]; intros i p H; [destruct H | ].
  cbn [filePositions] in H. destruct (isFile be) eqn:F.
  - destruct H as [<- | H].
    + split; [lia | ]. exists be. rewrite Z.sub_diag. split; [reflexivity | exact F].
    + apply IH in H. destruct H as (Hp & b & Hn & Hf). split; [lia | ].
      exists b. replace (Z.to_nat (p - i)) with (S (Z.to_nat (p - (i + 1)))) by lia.
      split; assumption.
  - apply IH in H. destruct H as (Hp & b & Hn & Hf). split; [lia | ].
    exists b. replace (Z.to_nat (p - i)) with (S (Z.to_nat (p - (i + 1)))) by lia.
    split; assumption.
Qed.

(** A read that succeeds gives the bytes at the position and moves on. *)
Lemma Reader_ReadFull_ok (r r' : Reader) (n : Z) (bs : list byte) :
  Reader_ReadFull r n = (bs, None, r') -> 0 <= pos r ->
  bs = firstn (Z.to_nat n) (skipn (Z.to_nat (pos r)) (data r))
  /\ r' = mkReader (data r) (pos r + Z.max 0 n)
  /\ pos r + Z.max 0 n <= Z.max (pos r) (len (data r)).
Proof.
  unfold Reader_ReadFull. intros H Hp.
  destruct (n <=? 0) eqn:E0.
  - apply Z.leb_le in E0. injection H as <- <-.
    replace (Z.to_nat n) with 0%nat by lia. rewrite Z.max_l by lia.
    rewrite Z.add_0_r. destruct r. repeat split; simpl; lia.
  - apply Z.leb_gt in E0.
    destruct (len (rest r) =? 0) eqn:E1; [discriminate | ].
    destruct (len (rest r) <? n) eqn:E2; [discriminate | ].
    apply Z.eqb_neq in E1. apply Z.ltb_ge in E2.
    injection H as <- <-. rewrite Z.max_r by lia.
    pose proof (rest_len r Hp) as L.
    unfold rest in *. destruct (len (data r) <=? pos r) eqn:E3.
    + unfold len in E1. simpl in E1. lia.
    + repeat split. lia.
Qed.

Lemma keeps_data {A} (c : M A) (m m' : MPQ) (o : outcome A) :
  keeps c -> c m = (o, m') -> data (input m') = data (input m).
Proof.
  intros K H. specialize (K m). rewrite H in K. unfold parsed in K.
  cbn [snd] in K. inversion K. reflexivity.
Qed.

Lemma keeps_read (err : option error) (w : Z) : keeps (read err w).
Proof. unfold read. destruct err; [apply keeps_ret | apply keeps_binary_Read]. Qed.

Lemma keeps_readHeader : keeps readHeader.
Proof.
  unfold readHeader.
  repeat (keeps_step || apply keeps_read || apply keeps_ret).
Qed.

Lemma readUserData_data (m m' : MPQ) (o : outcome (error + list byte * Z)) :
  readUserData m = (o, m') -> data (input m') = data (input m).
Proof.
  intro H. unfold readUserData in H.
  repeat (cbv beta iota zeta in H;
          unfold bind, ret, get, throw, spin, modify in H;
          match type of H with
          | context [match ?x with _ => _ end] => destruct x eqn:?
          end).
  all: repeat match goal with
         | R : read _ _ ?m0 = (_, ?m1) |- _ =>
             apply (keeps_data _ _ _ _ (keeps_read _ _)) in R
         | R : (match ?e with Some _ => _ | None => _ end) ?m0 = (_, ?m1) |- _ =>
             destruct e; cbv beta in R
         | R : (_, _) = (_, _) |- _ => inversion R; subst; clear R
         end; trace_steps; cbn in *; congruence.
Qed.

Section OpenedHandle.

Variable decrypt : list byte -> Z -> list byte.

(** What [New] leaves in the handle it returns. *)
Lemma New_inv (i : Reader) (m : MPQ) :
  New decrypt i = Ret (Some m, None) ->
  headerInRange (header m)
  /\ data (input m) = data i
  /\ blockSize m = shl32 512 (sectorSizeShift (header m))
  /\ len (hashTable m) = hashTableEntries (header m)
  /\ len (blockTable m) = blockTableEntries (header m)
  /\ (blockEntryIndices m, filesCount m)
     = countFiles (blockTable m) 0 (make 0 (blockTableEntries (header m))) 0.
Proof.
  unfold New. intro H.
  destruct (diveIn decrypt (newMPQ i)) as [[[e | ] | p | ] m'] eqn:D;
    try discriminate.
  injection H as <-. unfold diveIn in D. walk D.
  match goal with
  | R : readTables _ _ _ _ = _ |- _ =>
      apply readTables_inv in R;
      destruct R as (Hh & _ & Hd & Hb & Lh & Lb & Hc)
  end.
  match goal with
  | R : readHeader ?m0 = (Ret (inr _), ?m1) |- _ =>
      pose proof (readHeader_range _ _ _ R) as Hr;
      pose proof (keeps_data _ _ _ _ keeps_readHeader R) as Hd1
  end.
  rewrite Hh in *.
  assert (data (input m') = data i) as Hdata.
  { rewrite Hd, Hd1.
    match goal with
    | E : (if ?c then _ else _) _ = (_, ?m0) |- data (input ?m0) = _ =>
        destruct c;
        [apply readUserData_data in E; rewrite E
        | inversion E; subst; clear E]
    end; trace_steps; cbn in *; congruence. }
  destruct Hr as (R1 & R2 & R3 & R4 & R5 & R6 & R7 & R8 & R9).
  unfold len. rewrite Lh, Lb.
  repeat split; try assumption; try lia. 
Qed.

End OpenedHandle.

(** ** The magic, the header and the user data *)

Lemma Reader_ReadFull_start (bytes : list byte) (n : Z) :
  0 < n <= len bytes ->
  Reader_ReadFull (NewReader bytes) n
  = (firstn (Z.to_nat n) bytes, None, mkReader bytes n).
Proof.
  intro H. unfold Reader_ReadFull, rest, NewReader. cbn [data pos].
  assert ((len bytes <=? 0) = false) as -> by (apply Z.leb_gt; lia).
  cbn [Z.to_nat skipn].
  assert ((n <=? 0) = false) as -> by (apply Z.leb_gt; lia).
  assert ((len bytes =? 0) = false) as -> by (apply Z.eqb_neq; lia).
  assert ((len bytes <? n) = false) as -> by (apply Z.ltb_ge; lia).
  reflexivity.
Qed.

Lemma bytes_eqb_eq (a b : list byte) : bytes_eqb a b = true <-> a = b.
Proof.
  unfold bytes_eqb. destruct (list_eq_dec Byte.byte_eq_dec a b); split;
    congruence.
Qed.

Lemma bytes_eqb_neq (a b : list byte) : bytes_eqb a b = false <-> a <> b.
Proof.
  unfold bytes_eqb. destruct (list_eq_dec Byte.byte_eq_dec a b); split;
    congruence.
Qed.

(** A read that succeeds had the bytes it asked for. *)
Lemma read_took (err : option error) (w : Z) (m m' : MPQ) (v : Z) :
  read err w m = (Ret (v, None), m') -> 0 <= pos (input m) -> 0 < w ->
  0 <= pos (input m')
  /\ w <= len (rest (input m))
  /\ len (rest (input m')) = len (rest (input m)) - w.
Proof.
  unfold read. destruct err as [e | ]; [discriminate | ].
  unfold binary_Read, Reader_binary_Read. intros H Hp Hw.
  pose proof (Reader_ReadFull_rest (input m) w Hp Hw) as (P & L).
  destruct (Reader_ReadFull (input m) w) as [[bs [e | ]] r] eqn:R;
    [discriminate | ].
  injection H as _ <-. cbn [snd] in P, L. unfold set_input. cbn [input].
  split; [exact P | ].
  unfold Reader_ReadFull in R.
  assert ((w <=? 0) = false) as E by (apply Z.leb_gt; lia).
  rewrite E in R.
  destruct (len (rest (input m)) =? 0); [discriminate | ].
  destruct (len (rest (input m)) <? w) eqn:E2; [discriminate | ].
  apply Z.ltb_ge in E2. lia.
Qed.

(** The header of version 0 takes 28 bytes after its magic. *)
Lemma readHeader_short (m : MPQ) :
  0 <= pos (input m) -> len (rest (input m)) < 28 ->
  fst (readHeader m) = Ret (inl ErrInvalidArchive).
Proof.
  intros Hp Hl. destruct (readHeader m) as [o m'] eqn:H. cbn [fst].
  unfold readHeader in H.
  repeat (cbv beta iota zeta in H;
          unfold bind, ret, get, throw, spin, modify in H;
          match type of H with
          | context [match read ?e ?w ?m0 with _ => _ end] =>
              let R := fresh "R" in
              destruct (read e w m0) as [[[? [? | ]] | ? | ] ?] eqn:R
          end).
  all: try (cbn in H; congruence).
  all: try (exfalso;
            match goal with
            | R : read (Some _) _ _ = (Ret (_, None), _) |- _ =>
                unfold read, ret in R; discriminate R
            | R : read _ _ _ = (Panic _, _) |- _ =>
                unfold read, ret, binary_Read in R;
                repeat match type of R with
                       | context [match ?x with _ => _ end] => destruct x
                       end; discriminate R
            | R : read _ _ _ = (OutOfFuel, _) |- _ =>
                unfold read, ret, binary_Read in R;
                repeat match type of R with
                       | context [match ?x with _ => _ end] => destruct x
                       end; discriminate R
            end).
  exfalso.
  repeat match goal with
         | R : read _ _ ?m0 = (Ret (_, None), _), P : 0 <= pos (input ?m0) |- _ =>
             apply read_took in R; [ | exact P | lia];
             destruct R as (? & ? & ?)
         end.
  lia.
Qed.

Section Magic.

Variable decrypt : list byte -> Z -> list byte.

(** X1. An input of four bytes or more that starts neither with the magic
    of the user data nor with the magic of the header is refused with
    ErrInvalidArchive. *)
Theorem New_bad_magic (bytes : list byte) :
  4 <= len bytes ->
  firstn 4 bytes <> userDataMagic -> firstn 4 bytes <> headerMagic ->
  New decrypt (NewReader bytes) = Ret (None, Some ErrInvalidArchive).
Proof.
  intros Hl Hu Hh. unfold New, diveIn, bind, ReadFull, newMPQ.
  cbn [input]. rewrite Reader_ReadFull_start by lia.
  change (Z.to_nat 4) with 4%nat.
  apply bytes_eqb_neq in Hu, Hh. rewrite Hu. unfold ret. rewrite Hh.
  reflexivity.
Qed.

(** X2. An input that starts with the magic of the header and has fewer
    than the 32 bytes of the shortest header is refused with
    ErrInvalidArchive. *)
Theorem New_truncated_header (bytes : list byte) :
  firstn 4 bytes = headerMagic -> len bytes < 32 ->
  New decrypt (NewReader bytes) = Ret (None, Some ErrInvalidArchive).
Proof.
  intros Hm Hl.
  assert (4 <= len bytes) as H4.
  { apply (f_equal (@List.length byte)) in Hm. rewrite length_firstn in Hm.
    change (List.length headerMagic) with 4%nat in Hm. unfold len. lia. }
  unfold New, diveIn, bind, ReadFull, newMPQ.
  cbn [input]. rewrite Reader_ReadFull_start by lia.
  change (Z.to_nat 4) with 4%nat. rewrite Hm.
  change (bytes_eqb headerMagic userDataMagic) with false.
  unfold ret. cbv beta iota zeta.
  change (bytes_eqb headerMagic headerMagic) with true.
  cbn [negb]. cbv beta iota zeta.
  match goal with
  | |- context [readHeader ?m0] =>
      pose proof (readHeader_short m0) as S; destruct (readHeader m0) as [o m1]
  end.
  cbn [fst] in S. rewrite S; [reflexivity | cbn; lia | ].
  cbn [input set_input]. rewrite rest_len by (cbn; lia). cbn [data pos]. lia.
Qed.

End Magic.

Lemma New_bad_magic_witness :
  New Crypt.decrypt (NewReader [x4d; x50; x51; x00; x00])
  = Ret (None, Some ErrInvalidArchive).
Proof.
  apply (New_bad_magic Crypt.decrypt [x4d; x50; x51; x00; x00]).
  - vm_compute. discriminate.
  - discriminate.
  - discriminate.
Defined.

Lemma New_truncated_header_witness :
  New Crypt.decrypt (NewReader (firstn 31 Sample.plainBytes))
  = Ret (None, Some ErrInvalidArchive).
Proof.
  apply (New_truncated_header Crypt.decrypt (firstn 31 Sample.plainBytes)).
  - reflexivity.
  - vm_compute. reflexivity.
Defined.

(** ** What New refuses and what it takes *)

Lemma Reader_ReadFull_error (r r' : Reader) (n : Z) (bs : list byte)
  (e : error) :
  Reader_ReadFull r n = (bs, Some e, r') ->
  e = io_EOF \/ e = io_ErrUnexpectedEOF.
Proof.
  unfold Reader_ReadFull. intro H.
  destruct (n <=? 0); [discriminate | ].
  destruct (len (rest r) =? 0); [injection H as _ <- _; left; reflexivity | ].
  destruct (len (rest r) <? n); [ | discriminate].
  injection H as _ <- _. right. reflexivity.
Qed.

Lemma ReadFull_error (n : Z) (m m' : MPQ) (bs : list byte) (e : error) :
  ReadFull n m = (Ret (bs, Some e), m') ->
  e = io_EOF \/ e = io_ErrUnexpectedEOF.
Proof.
  unfold ReadFull. intro H.
  destruct (Reader_ReadFull (input m) n) as [[bs0 e0] r] eqn:R.
  injection H as _ -> _. exact (Reader_ReadFull_error _ _ _ _ _ R).
Qed.

Lemma readHeader_error (m m' : MPQ) (e : error) :
  readHeader m = (Ret (inl e), m') -> e = ErrInvalidArchive.
Proof.
  intro H. unfold readHeader in H. walk H; congruence.
Qed.

Lemma readUserData_error (m m' : MPQ) (e : error) :
  readUserData m = (Ret (inl e), m') ->
  e = ErrInvalidArchive \/ e = io_EOF \/ e = io_ErrUnexpectedEOF.
Proof.
  intro H. unfold readUserData in H. walk H.
  all: try (left; congruence).
  all: right; injection H as <- _;
    match goal with
    | R : ReadFull 4 _ = (Ret (_, Some _), _) |- _ =>
        exact (ReadFull_error _ _ _ _ _ R)
    end.
Qed.

Section Refused.

Variable decrypt : list byte -> Z -> list byte.

Lemma readExtBlockTable_error (h : Header) (ho : Z) (r : Reader)
  (m m' : MPQ) (e : error) :
  readExtBlockTable h ho r m = (Ret (Some e), m') -> e = ErrInvalidArchive.
Proof.
  intro H. unfold readExtBlockTable in H. walk H; congruence.
Qed.

Lemma readTables_error (h : Header) (ho : Z) (m m' : MPQ) (e : error) :
  readTables decrypt h ho m = (Ret (Some e), m') -> e = ErrInvalidArchive.
Proof.
  intro H. unfold readTables in H. walk H; try congruence.
  inversion H; subst.
  match goal with
  | R : readExtBlockTable _ _ _ _ = _ |- _ =>
      exact (readExtBlockTable_error _ _ _ _ _ _ R)
  end.
Qed.

(** X3. The error of New is ErrInvalidArchive, io.EOF or
    io.ErrUnexpectedEOF. *)
Theorem New_error_kinds (i : Reader) (e : error) :
  New decrypt i = Ret (None, Some e) ->
  e = ErrInvalidArchive \/ e = io_EOF \/ e = io_ErrUnexpectedEOF.
Proof.
  unfold New. intro H.
  destruct (diveIn decrypt (newMPQ i)) as [[[e0 | ] | p | ] m'] eqn:D;
    try discriminate.
  injection H as ->. unfold diveIn in D. walk D.
  all: try (left; congruence).
  all: try (injection D as <- _).
  - right.
    match goal with
    | R : ReadFull 4 _ = (Ret (_, Some _), _) |- _ =>
        exact (ReadFull_error _ _ _ _ _ R)
    end.
  - match goal with
    | E : (if ?c then _ else _) _ = _ |- _ => destruct c
    end; [ | discriminate].
    match goal with
    | R : readUserData _ = _ |- _ => exact (readUserData_error _ _ _ R)
    end.
  - left.
    match goal with
    | R : readHeader _ = _ |- _ => exact (readHeader_error _ _ _ R)
    end.
  - left.
    match goal with
    | R : readTables _ _ _ _ = _ |- _ => exact (readTables_error _ _ _ _ _ R)
    end.
Qed.

End Refused.

Lemma New_error_kinds_witness :
  ErrInvalidArchive = ErrInvalidArchive \/ ErrInvalidArchive = io_EOF
  \/ ErrInvalidArchive = io_ErrUnexpectedEOF.
Proof.
  apply (New_error_kinds Crypt.decrypt
           (NewReader [x4d; x50; x51; x00; x00]) ErrInvalidArchive).
  vm_compute. reflexivity.
Defined.

(** ** The user data *)

Lemma Reader_binary_Read_ok (r r' : Reader) (w old v : Z) :
  Reader_binary_Read r w old = (v, None, r') -> 0 <= pos r ->
  v = le_decode (firstn (Z.to_nat w) (skipn (Z.to_nat (pos r)) (data r)))
  /\ r' = mkReader (data r) (pos r + Z.max 0 w).
Proof.
  unfold Reader_binary_Read. intros H Hp.
  destruct (Reader_ReadFull r w) as [[bs [e | ]] r0] eqn:R; [discriminate | ].
  injection H as <- <-.
  destruct (Reader_ReadFull_ok _ _ _ _ R Hp) as (-> & -> & _).
  split; reflexivity.
Qed.

Lemma input_set_input (m : MPQ) (r : Reader) : input (set_input m r) = r.
Proof. reflexivity. Qed.

Lemma userData_set_input (m : MPQ) (r : Reader) :
  userData (set_input m r) = userData m.
Proof. reflexivity. Qed.

Lemma readUserData_ok (m m' : MPQ) (magic : list byte) (ho : Z) :
  readUserData m = (Ret (inr (magic, ho)), m') -> pos (input m) = 4 ->
  let d := data (input m) in
  let size := le_decode (firstn 4 (skipn 4 d)) in
  let hoff := le_decode (firstn 4 (skipn 8 d)) in
  userData m'
  = Some (mkUserData size hoff (firstn (Z.to_nat size) (skipn 12 d)))
  /\ ho = hoff /\ magic = firstn 4 (skipn (Z.to_nat hoff) d).
Proof.
  intros H Hp. unfold readUserData, read, bind, binary_Read in H.
  destruct (Reader_binary_Read (input m) 4 0) as [[size e1] r1] eqn:R1.
  cbv beta iota zeta in H.
  destruct e1 as [e1 | ].
  { unfold ret, ReadFull, Seek, modify in H. cbv beta iota zeta in H.
    cbn [is_nil negb] in H. discriminate. }
  rewrite input_set_input in H.
  apply Reader_binary_Read_ok in R1; [ | lia]. destruct R1 as (-> & ->).
  rewrite Hp in *. change (Z.to_nat 4) with 4%nat in *.
  change (4 + Z.max 0 4) with 8 in *.
  match type of H with
  | context [Reader_binary_Read ?r 4 0] =>
      destruct (Reader_binary_Read r 4 0) as [[hoff e2] r2] eqn:R2
  end.
  cbv beta iota zeta in H.
  destruct e2 as [e2 | ].
  { unfold ret, ReadFull, Seek, modify in H. cbv beta iota zeta in H.
    cbn [is_nil negb] in H. discriminate. }
  apply Reader_binary_Read_ok in R2; [ | cbn; lia]. destruct R2 as (-> & ->).
  cbn [data pos] in H. change (Z.to_nat 8) with 8%nat in *.
  change (8 + Z.max 0 4) with 12 in *. change (Z.to_nat 4) with 4%nat in *.
  cbv zeta.
  remember (le_decode (firstn 4 (skipn 4 (data (input m))))) as size eqn:Es.
  remember (le_decode (firstn 4 (skipn 8 (data (input m))))) as hoff eqn:Eh.
  clear Es Eh.
  unfold ReadFull in H. rewrite input_set_input in H.
  match type of H with
  | context [Reader_ReadFull ?r ?n] =>
      destruct (Reader_ReadFull r n) as [[udata e3] r3] eqn:R3
  end.
  cbv beta iota zeta in H.
  destruct e3 as [e3 | ]; cbn [is_nil negb] in H.
  { unfold ret in H. discriminate. }
  apply Reader_ReadFull_ok in R3; [ | cbn; lia].
  destruct R3 as (-> & -> & _). cbn [data pos] in H.
  unfold modify, Seek in H. cbv beta iota zeta in H.
  unfold set_userData in H at 1. cbn [input set_input] in H.
  match type of H with
  | context [Reader_Seek ?r ?n] =>
      destruct (Reader_Seek r n) as [e4 r4] eqn:R4
  end.
  cbv beta iota zeta in H.
  destruct e4 as [e4 | ]; cbn [is_nil negb] in H.
  { unfold ret in H. discriminate. }
  unfold Reader_Seek in R4.
  match type of R4 with
  | (if ?c then _ else _) = _ => destruct c eqn:Hneg; [discriminate | ]
  end.
  apply Z.ltb_ge in Hneg. injection R4 as <-.
  rewrite input_set_input in H.
  match type of H with
  | context [Reader_ReadFull ?r ?n] =>
      destruct (Reader_ReadFull r n) as [[mg e5] r5] eqn:R5
  end.
  cbv beta iota zeta in H.
  destruct e5 as [e5 | ]; unfold ret in H; [discriminate | ].
  apply Reader_ReadFull_ok in R5; [ | cbn [pos]; lia].
  destruct R5 as (-> & -> & _). cbn [data pos] in H.
  injection H as <- <- <-. cbn [userData set_input set_userData].
  change (Z.to_nat 12) with 12%nat. change (Z.to_nat 4) with 4%nat.
  repeat split; reflexivity.
Qed.

Lemma keeps_userData {A} (c : M A) (m m' : MPQ) (o : outcome A) :
  keeps c -> c m = (o, m') -> userData m' = userData m.
Proof.
  intros K H. specialize (K m). rewrite H in K. unfold parsed in K.
  cbn [snd] in K. inversion K. reflexivity.
Qed.

Lemma ReadFull_start (bytes : list byte) (m m' : MPQ) (mg : list byte) :
  input m = NewReader bytes ->
  ReadFull 4 m = (Ret (mg, None), m') ->
  mg = firstn 4 bytes /\ m' = set_input m (mkReader bytes 4).
Proof.
  unfold ReadFull. intros Hi H. rewrite Hi in H.
  destruct (Reader_ReadFull (NewReader bytes) 4) as [[bs e] r] eqn:R.
  injection H as -> -> <-.
  apply Reader_ReadFull_ok in R; [ | cbn; lia].
  destruct R as (-> & -> & _). split; reflexivity.
Qed.

Section UserDataOf.

Variable decrypt : list byte -> Z -> list byte.

(** What [diveIn] found at the start of the input of a handle it returned. *)
Lemma diveIn_start (bytes : list byte) (m : MPQ) :
  New decrypt (NewReader bytes) = Ret (Some m, None) ->
  exists m1 magic ho,
    (if bytes_eqb (firstn 4 bytes) userDataMagic then readUserData
     else ret (inr (firstn 4 bytes, 0)))
      (set_input (newMPQ (NewReader bytes)) (mkReader bytes 4))
    = (Ret (inr (magic, ho)), m1)
    /\ magic = headerMagic
    /\ userData m = userData m1.
Proof.
  unfold New. intro H.
  destruct (diveIn decrypt (newMPQ (NewReader bytes)))
    as [[[e | ] | p | ] m'] eqn:D; try discriminate.
  injection H as <-. unfold diveIn in D. walk D.
  match goal with
  | R : ReadFull 4 _ = _ |- _ =>
      apply (ReadFull_start bytes) in R; [ | reflexivity];
      destruct R as (-> & ->)
  end.
  match goal with
  | R : readTables _ _ _ _ = _ |- _ =>
      apply readTables_inv in R; destruct R as (_ & Hu & _)
  end.
  match goal with
  | R : readHeader ?m0 = (Ret (inr _), ?m1) |- _ =>
      pose proof (keeps_userData _ _ _ _ keeps_readHeader R) as Hu1
  end.
  match goal with
  | E : negb (bytes_eqb ?mg headerMagic) = false |- _ =>
      apply negb_false_iff, bytes_eqb_eq in E; subst mg
  end.
  do 3 eexists. split; [eassumption | ]. split; [reflexivity | ].
  congruence.
Qed.

(** X4. A handle that New returns for an input that does not start with
    the magic of the user data has no user data, and the input starts with
    the magic of the header. *)
Theorem New_no_user_data (bytes : list byte) (m : MPQ) :
  New decrypt (NewReader bytes) = Ret (Some m, None) ->
  firstn 4 bytes <> userDataMagic ->
  MPQ_UserData m = None /\ firstn 4 bytes = headerMagic.
Proof.
  intros H Hu.
  destruct (diveIn_start bytes m H) as (m1 & magic & ho & S & -> & U).
  apply bytes_eqb_neq in Hu. rewrite Hu in S. unfold ret in S.
  injection S as Hm _ Hs. unfold MPQ_UserData. rewrite U, <- Hs.
  split; [reflexivity | exact Hm].
Qed.

(** X5. A handle that New returns for an input that starts with the magic
    of the user data holds as user data the bytes from offset 12 on, as
    many as the 32-bit number at offset 4 says, and the magic of the header
    is at the offset that the 32-bit number at offset 8 gives. *)
Theorem New_user_data (bytes : list byte) (m : MPQ) :
  New decrypt (NewReader bytes) = Ret (Some m, None) ->
  firstn 4 bytes = userDataMagic ->
  MPQ_UserData m
  = Some (firstn (Z.to_nat (le_decode (firstn 4 (skipn 4 bytes))))
                 (skipn 12 bytes))
  /\ firstn 4 (skipn (Z.to_nat (le_decode (firstn 4 (skipn 8 bytes)))) bytes)
     = headerMagic.
Proof.
  intros H Hu.
  destruct (diveIn_start bytes m H) as (m1 & magic & ho & S & -> & U).
  rewrite Hu in S. change (bytes_eqb userDataMagic userDataMagic) with true in S.
  cbv iota in S. apply readUserData_ok in S; [ | reflexivity].
  cbv zeta in S. destruct S as (S1 & _ & S2).
  unfold MPQ_UserData. rewrite U, S1. cbn [u_data data input set_input] in *.
  split; [reflexivity | ]. symmetry. exact S2.
Qed.

End UserDataOf.

Lemma New_no_user_data_witness :
  MPQ_UserData Sample.plain = None /\ firstn 4 Sample.plainBytes = headerMagic.
Proof.
  apply (New_no_user_data Crypt.decrypt Sample.plainBytes Sample.plain).
  - vm_compute. reflexivity.
  - discriminate.
Defined.

Lemma New_user_data_witness :
  MPQ_UserData More.shunt = Some [x61; x62; x63]
  /\ firstn 4 (skipn 16 More.shuntBytes) = headerMagic.
Proof.
  apply (New_user_data Crypt.decrypt More.shuntBytes More.shunt).
  - vm_compute. reflexivity.
  - reflexivity.
Defined.

(** ** The block a hash entry leads to *)

Lemma filesBelow_ordinal (bt : list BlockEntry) (n : Z) :
  0 <= n <= len bt ->
  n - nonFilesBelow bt n = len (filter isFile (firstn (Z.to_nat n) bt)).
Proof.
  intro Hn. unfold nonFilesBelow, len in *.
  pose proof (firstn_length_le bt (n := Z.to_nat n) ltac:(lia)) as L.
  assert (forall l : list BlockEntry,
             (List.length (filter isNonFile l) + List.length (filter isFile l)
              = List.length l)%nat) as P.
  { induction l as [ | be l IH]; [reflexivity | ].
    cbn [filter]. unfold isNonFile, isFile, has in *.
    destruct (Z.land (flags be) beFlagFile =? 0); cbn [negb List.length]; lia. }
  specialize (P (firstn (Z.to_nat n) bt)). lia.
Qed.

(** The file position of ordinal [f], where [f] files lie below the target
    [t], is the first file entry at [t] or after it. *)
Lemma nextFile_positions (bt : list BlockEntry) :
  forall i t,
    nextFile bt i t
    = match nth_error (filePositions bt i)
              (List.length (filter isFile (firstn (Z.to_nat (t - i)) bt))) with
      | Some p =>
          match nth_error bt (Z.to_nat (p - i)) with
          | Some be => Some (p, be)
          | None => None
          end
      | None => None
      end.
Proof.
  induction bt as [ | be bt IH]; intros i t.
  - simpl. rewrite firstn_nil. reflexivity.
  - cbn [nextFile filePositions]. destruct (t <=? i) eqn:T.
    + apply Z.leb_le in T. replace (Z.to_nat (t - i)) with 0%nat by lia.
      cbn [firstn filter List.length andb]. destruct (isFile be) eqn:F.
      * cbn [nth_error]. rewrite Z.sub_diag. reflexivity.
      * rewrite IH. replace (Z.to_nat (t - (i + 1))) with 0%nat by lia.
        cbn [firstn filter List.length].
        destruct (nth_error (filePositions bt (i + 1)) 0) as [p | ] eqn:N;
          [ | reflexivity].
        apply nth_error_In, filePositions_files in N. destruct N as (Hp & _).
        replace (Z.to_nat (p - i)) with (S (Z.to_nat (p - (i + 1)))) by lia.
        reflexivity.
    + apply Z.leb_gt in T. cbn [andb]. rewrite IH.
      replace (Z.to_nat (t - i)) with (S (Z.to_nat (t - (i + 1)))) by lia.
      cbn [firstn filter].
      set (f := List.length (filter isFile (firstn (Z.to_nat (t - (i + 1))) bt))).
      assert (match nth_error (filePositions bt (i + 1)) f with
              | Some p =>
                  match nth_error bt (Z.to_nat (p - (i + 1))) with
                  | Some be0 => Some (p, be0)
                  | None => None
                  end
              | None => None
              end
              = match nth_error (filePositions bt (i + 1)) f with
                | Some p =>
                    match nth_error (be :: bt) (Z.to_nat (p - i)) with
                    | Some be0 => Some (p, be0)
                    | None => None
                    end
                | None => None
                end) as ->.
      { destruct (nth_error (filePositions bt (i + 1)) f) as [p | ] eqn:N;
          [ | reflexivity].
        apply nth_error_In, filePositions_files in N. destruct N as (Hp & _).
        replace (Z.to_nat (p - i)) with (S (Z.to_nat (p - (i + 1)))) by lia.
        reflexivity. }
      destruct (isFile be); reflexivity.
Qed.

(** A target that is a file entry is its own next file. *)
Lemma nextFile_at_file (bt : list BlockEntry) :
  forall i t be,
    i <= t -> nth_error bt (Z.to_nat (t - i)) = Some be -> isFile be = true ->
    nextFile bt i t = Some (t, be).
Proof.
  induction bt as [ | b bt IH]; intros i t be Hi Hn Hf.
  - destruct (Z.to_nat (t - i)); discriminate.
  - cbn [nextFile]. destruct (Z.eq_dec t i) as [-> | Hne].
    + rewrite Z.sub_diag in Hn. cbn in Hn. injection Hn as ->.
      rewrite Z.leb_refl, Hf. reflexivity.
    + assert ((t <=? i) = false) as -> by (apply Z.leb_gt; lia).
      cbn [andb]. apply IH; [lia | | assumption].
      replace (Z.to_nat (t - i)) with (S (Z.to_nat (t - (i + 1)))) in Hn by lia.
      exact Hn.
Qed.

Lemma skipn_repeat {A} (x : A) (n k : nat) :
  skipn k (repeat x n) = repeat x (n - k).
Proof.
  revert k. induction n as [ | n IH]; intros [ | k]; simpl; try reflexivity.
  apply IH.
Qed.

Section Resolved.

Variable decrypt : list byte -> Z -> list byte.

Lemma New_filesIndexed (i : Reader) (m : MPQ) :
  New decrypt i = Ret (Some m, None) -> filesIndexed m.
Proof.
  intro H. apply New_inv in H.
  destruct H as (Hr & _ & _ & _ & Lb & Hc).
  destruct Hr as (_ & _ & _ & _ & _ & _ & _ & Rb & _).
  pose proof (countFiles_positions (blockTable m) 0 []
                (make 0 (blockTableEntries (header m)))) as P.
  cbn [app] in P. change (len (@nil Z)) with 0 in P.
  unfold filesIndexed. rewrite Lb.
  rewrite P in Hc.
  - injection Hc as -> ->. unfold make. rewrite skipn_repeat.
    unfold len in Lb. rewrite <- Lb, Nat2Z.id.
    repeat split; lia.
  - unfold make. rewrite repeat_length. unfold len in Lb. lia.
  - lia.
Qed.

End Resolved.

(** The lookup resolves the block index of a hash entry to the first file
    entry at that index or after it. *)
Lemma resolve_nextFile (e : HashEntry) (m : MPQ) :
  filesIndexed m ->
  0 <= fileBlockIndex e <= len (blockTable m) ->
  resolve e m = (Ret (nextFile (blockTable m) 0 (fileBlockIndex e)), m).
Proof.
  intros (Hi & Hc & Hl) Hf.
  rewrite resolve_within_table by assumption. cbv zeta.
  unfold fileOrdinal. rewrite filesBelow_ordinal by assumption.
  rewrite nextFile_positions. rewrite Z.sub_0_r.
  rewrite Hc. unfold len.
  set (f := List.length
              (filter isFile (firstn (Z.to_nat (fileBlockIndex e)) (blockTable m)))).
  destruct (Z.of_nat f >=? Z.of_nat (List.length (filePositions (blockTable m) 0)))
    eqn:G.
  - apply Z.geb_le in G.
    assert (nth_error (filePositions (blockTable m) 0) f = None) as ->
        by (apply nth_error_None; lia).
    reflexivity.
  - assert (f < List.length (filePositions (blockTable m) 0))%nat as Hlt.
    { destruct (Z.geb_spec (Z.of_nat f)
                  (Z.of_nat (List.length (filePositions (blockTable m) 0))));
        [discriminate | lia]. }
    unfold index.
    assert ((Z.of_nat f <? 0) = false) as -> by (apply Z.ltb_ge; lia).
    rewrite Nat2Z.id, Hi, nth_error_app1 by assumption.
    destruct (nth_error (filePositions (blockTable m) 0) f) as [p | ] eqn:N.
    + pose proof (filePositions_files _ _ _ (nth_error_In _ _ N)) as (Hp & be & Hb & _).
      rewrite Z.sub_0_r in *.
      assert ((p <? 0) = false) as -> by (apply Z.ltb_ge; lia).
      rewrite Hb. reflexivity.
    + apply nth_error_None in N. lia.
Qed.

(** ** The tables of an opened archive *)

Section Tables.

Variable decrypt : list byte -> Z -> list byte.

(** X6. In a handle that New returns, the hash table, the block table and
    the list of the block indices of the files have as many entries as the
    header says, and the size of a sector is 512 shifted by the sector size
    shift of the header, in 32 bits. *)
Theorem New_tables (i : Reader) (m : MPQ) :
  New decrypt i = Ret (Some m, None) ->
  len (hashTable m) = hashTableEntries (header m)
  /\ len (blockTable m) = blockTableEntries (header m)
  /\ len (blockEntryIndices m) = blockTableEntries (header m)
  /\ blockSize m = shl32 512 (sectorSizeShift (header m)).
Proof.
  intro H. pose proof (New_filesIndexed decrypt i m H) as (F & _ & _).
  destruct (New_inv decrypt i m H) as (_ & _ & B & Lh & Lb & _).
  repeat split; try assumption.
  rewrite <- Lb, F. unfold len. rewrite length_app, repeat_length.
  pose proof (filePositions_le (blockTable m) 0). lia.
Qed.

(** X7. FilesCount of a handle that New returns is the number of the
    entries of the block table that have the file flag. *)
Theorem New_FilesCount (i : Reader) (m : MPQ) :
  New decrypt i = Ret (Some m, None) ->
  FilesCount m = len (filter isFile (blockTable m)).
Proof.
  intro H. pose proof (New_filesIndexed decrypt i m H) as (_ & C & _).
  unfold FilesCount, len. rewrite C. unfold len.
  rewrite filePositions_length. reflexivity.
Qed.

(** X8. In a handle that New returns, the first FilesCount block indices of
    the files are the indices of the entries of the block table that have
    the file flag, in ascending order. *)
Theorem New_file_indices (i : Reader) (m : MPQ) :
  New decrypt i = Ret (Some m, None) ->
  firstn (Z.to_nat (FilesCount m)) (blockEntryIndices m)
  = filePositions (blockTable m) 0.
Proof.
  intro H. pose proof (New_filesIndexed decrypt i m H) as (F & C & _).
  unfold FilesCount. rewrite C, F. unfold len. rewrite Nat2Z.id.
  rewrite firstn_app, firstn_all, Nat.sub_diag. cbn [firstn].
  apply app_nil_r.
Qed.

(** X9. In a handle that New returns, each of the first FilesCount block
    indices of the files is the index of an entry of the block table that
    has the file flag. *)
Theorem New_file_index_is_file (i : Reader) (m : MPQ) (k : Z) :
  New decrypt i = Ret (Some m, None) ->
  0 <= k < FilesCount m ->
  exists p be, index (blockEntryIndices m) k = Some p
               /\ index (blockTable m) p = Some be /\ isFile be = true.
Proof.
  intros H Hk. pose proof (New_filesIndexed decrypt i m H) as (F & C & _).
  unfold FilesCount in Hk. rewrite C in Hk. unfold len in Hk.
  destruct (nth_error (filePositions (blockTable m) 0) (Z.to_nat k))
    as [p | ] eqn:N; [ | apply nth_error_None in N; lia].
  destruct (filePositions_files (blockTable m) 0 p (nth_error_In _ _ N))
    as (Hp & be & Hb & Hf).
  exists p, be. unfold index.
  assert ((k <? 0) = false) as -> by (apply Z.ltb_ge; lia).
  assert ((p <? 0) = false) as -> by (apply Z.ltb_ge; lia).
  rewrite Z.sub_0_r in Hb. repeat split; try assumption.
  rewrite F, nth_error_app1 by lia. exact N.
Qed.

End Tables.

Lemma New_tables_witness :
  len (hashTable More.gap) = 4 /\ len (blockTable More.gap) = 3
  /\ len (blockEntryIndices More.gap) = 3 /\ blockSize More.gap = 4096.
Proof.
  apply (New_tables Crypt.decrypt (NewReader More.gapBytes) More.gap).
  vm_compute. reflexivity.
Defined.

Lemma New_FilesCount_witness : FilesCount More.gap = 2.
Proof.
  apply (New_FilesCount Crypt.decrypt (NewReader More.gapBytes) More.gap).
  vm_compute. reflexivity.
Defined.

Lemma New_file_indices_witness :
  firstn 2 (blockEntryIndices More.gap) = [1; 2].
Proof.
  apply (New_file_indices Crypt.decrypt (NewReader More.gapBytes) More.gap).
  vm_compute. reflexivity.
Defined.

Lemma New_file_index_is_file_witness :
  exists p be, index (blockEntryIndices More.gap) 1 = Some p
               /\ index (blockTable More.gap) p = Some be
               /\ isFile be = true.
Proof.
  apply (New_file_index_is_file Crypt.decrypt (NewReader More.gapBytes)
           More.gap 1).
  - vm_compute. reflexivity.
  - vm_compute. split; [discriminate | reflexivity].
Defined.

(** ** The probe comes to an end *)

Lemma land_bounds (a b : Z) : 0 <= a -> 0 <= b -> 0 <= Z.land a b <= b.
Proof.
  intros Ha Hb. rewrite <- (Z2N.id a Ha), <- (Z2N.id b Hb) at 1 2.
  rewrite <- N2Z.inj_land. pose proof (N.land_le_r (Z.to_N a) (Z.to_N b)). lia.
Qed.

Lemma unmatched_at (m : MPQ) (h2 h3 i : Z) (e : HashEntry) :
  unmatched m h2 h3 = true -> index (hashTable m) i = Some e ->
  negb (filePathHashA e =? h2) || negb (filePathHashB e =? h3) = true.
Proof.
  unfold unmatched, index. intros U H.
  destruct (i <? 0); [discriminate | ]. apply nth_error_In in H.
  rewrite forallb_forall in U. specialize (U e H).
  rewrite negb_andb in U. exact U.
Qed.

(** With a never-used entry [d] slots ahead, [d + 1] rounds end the probe;
    it ends without a match when no entry stores the hashes. *)
Lemma probe_reaches (m : MPQ) (h2 h3 : Z) :
  let n := hashTableEntries (header m) in
  len (hashTable m) = n -> 0 < n < 2 ^ 32 ->
  forall (d : nat) (fuel : nat) (i : Z),
    (d < fuel)%nat -> 0 <= i <= n ->
    (exists e0, index (hashTable m)
                  (((if i =? n then 0 else i) + Z.of_nat d) mod n) = Some e0
                /\ fileBlockIndex e0 = 0xffffffff) ->
    exists r, probe fuel h2 h3 i m = (Ret r, m)
              /\ (unmatched m h2 h3 = true -> r = None).
Proof.
  intros n Hl Hn. induction d as [ | d IH]; intros fuel i Hf Hi (e0 & He0 & Hu).
  - destruct fuel as [ | fuel]; [lia | ]. cbn [probe]. unfold bind, get.
    fold n. set (i' := if i =? n then 0 else i) in *.
    assert (0 <= i' < n) as Hi'.
    { unfold i'. destruct (Z.eqb_spec i n); lia. }
    rewrite Z.add_0_r, Z.mod_small in He0 by assumption.
    rewrite He0, Hu. cbn. exists None. split; reflexivity.
  - destruct fuel as [ | fuel]; [lia | ]. cbn [probe]. unfold bind, get.
    fold n. set (i' := if i =? n then 0 else i) in *.
    assert (0 <= i' < n) as Hi'.
    { unfold i'. destruct (Z.eqb_spec i n); lia. }
    destruct (index_within (hashTable m) i') as (e & He); [lia | ].
    rewrite He.
    destruct (fileBlockIndex e =? 0xffffffff);
      [exists None; split; reflexivity | ].
    destruct (negb (filePathHashA e =? h2) || negb (filePathHashB e =? h3)) eqn:Mm.
    + assert (add32 i' 1 = i' + 1) as ->
          by (unfold add32, u32; apply Z.mod_small; lia).
      apply IH; [lia | lia | ].
      exists e0. split; [ | assumption]. rewrite <- He0. f_equal.
      rewrite Nat2Z.inj_succ.
      destruct (Z.eqb_spec (i' + 1) n) as [E | E].
      * replace (i' + Z.succ (Z.of_nat d)) with (Z.of_nat d + 1 * n) by lia.
        rewrite Z_mod_plus_full. reflexivity.
      * f_equal. lia.
    + exists (Some e). split; [reflexivity | ].
      intro U. rewrite (unmatched_at m h2 h3 i' e U He) in Mm. discriminate.
Qed.

(** With a never-used entry somewhere, as many rounds as the table has
    entries end the probe from every home slot. *)
Lemma probe_ends (m : MPQ) (h1 h2 h3 : Z) (fuel : nat) :
  let n := hashTableEntries (header m) in
  len (hashTable m) = n -> 0 < n < 2 ^ 32 -> 0 <= h1 ->
  hasNeverUsed m -> (Z.to_nat n <= fuel)%nat ->
  exists r, probe fuel h2 h3 (Z.land h1 (sub32 n 1)) m = (Ret r, m)
            /\ (unmatched m h2 h3 = true -> r = None).
Proof.
  intros n Hl Hn Hh (j & e0 & He0 & Hu) Hf.
  assert (sub32 n 1 = n - 1) as ->
      by (unfold sub32, u32; apply Z.mod_small; lia).
  pose proof (land_bounds h1 (n - 1) Hh ltac:(lia)) as Hi.
  set (i := Z.land h1 (n - 1)) in *.
  pose proof (index_Some _ _ _ He0) as Hj. rewrite Hl in Hj.
  apply (probe_reaches m h2 h3 Hl Hn (Z.to_nat ((j - i) mod n)));
    [ | lia | ].
  - pose proof (Z.mod_pos_bound (j - i) n ltac:(lia)). lia.
  - exists e0. split; [ | assumption]. rewrite <- He0. f_equal.
    fold n.
    assert ((i =? n) = false) as -> by (apply Z.eqb_neq; lia).
    rewrite Z2Nat.id by (apply Z.mod_pos_bound; lia).
    rewrite Zplus_mod_idemp_r. replace (i + (j - i)) with j by lia.
    apply Z.mod_small. assumption.
Qed.

(** ** The probe finds an entry behind other entries *)

(** An entry [d] slots ahead that stores the hashes, behind entries that
    were used and store other hashes, is found in [d + 1] rounds. *)
Lemma probe_finds (m : MPQ) (h2 h3 : Z) (e0 : HashEntry) :
  let n := hashTableEntries (header m) in
  len (hashTable m) = n -> 0 < n < 2 ^ 32 ->
  fileBlockIndex e0 <> 0xffffffff ->
  filePathHashA e0 = h2 -> filePathHashB e0 = h3 ->
  forall (d : nat) (fuel : nat) (i : Z),
    (d < fuel)%nat -> 0 <= i <= n ->
    (forall t, 0 <= t < Z.of_nat d ->
       exists e, index (hashTable m) (((if i =? n then 0 else i) + t) mod n)
                 = Some e
                 /\ fileBlockIndex e <> 0xffffffff
                 /\ (filePathHashA e <> h2 \/ filePathHashB e <> h3)) ->
    index (hashTable m) (((if i =? n then 0 else i) + Z.of_nat d) mod n)
    = Some e0 ->
    probe fuel h2 h3 i m = (Ret (Some e0), m).
Proof.
  intros n Hl Hn Hu Ha Hb.
  induction d as [ | d IH]; intros fuel i Hf Hi Hskip He0.
  - destruct fuel as [ | fuel]; [lia | ]. cbn [probe]. unfold bind, get.
    fold n. set (i' := if i =? n then 0 else i) in *.
    assert (0 <= i' < n) as Hi'.
    { unfold i'. destruct (Z.eqb_spec i n); lia. }
    cbn [Z.of_nat] in He0. rewrite Z.add_0_r, Z.mod_small in He0 by assumption.
    rewrite He0.
    assert ((fileBlockIndex e0 =? 0xffffffff) = false) as ->
        by (apply Z.eqb_neq; assumption).
    rewrite Ha, Hb, !Z.eqb_refl. reflexivity.
  - destruct fuel as [ | fuel]; [lia | ]. cbn [probe]. unfold bind, get.
    fold n. set (i' := if i =? n then 0 else i) in *.
    assert (0 <= i' < n) as Hi'.
    { unfold i'. destruct (Z.eqb_spec i n); lia. }
    destruct (Hskip 0 ltac:(lia)) as (e & He & Hue & Hne).
    rewrite Z.add_0_r, Z.mod_small in He by assumption. rewrite He.
    assert ((fileBlockIndex e =? 0xffffffff) = false) as ->
        by (apply Z.eqb_neq; assumption).
    assert (negb (filePathHashA e =? h2) || negb (filePathHashB e =? h3)
            = true) as ->.
    { apply orb_true_iff.
      destruct Hne as [N | N]; [left | right];
        apply negb_true_iff, Z.eqb_neq; exact N. }
    assert (add32 i' 1 = i' + 1) as ->
        by (unfold add32, u32; apply Z.mod_small; lia).
    assert (forall t, ((if i' + 1 =? n then 0 else i' + 1) + t) mod n
                      = (i' + (t + 1)) mod n) as Hshift.
    { intro t. destruct (Z.eqb_spec (i' + 1) n) as [E | E].
      - replace (i' + (t + 1)) with (t + 1 * n) by lia.
        rewrite Z_mod_plus_full. reflexivity.
      - f_equal. lia. }
    apply IH; [lia | lia | | ].
    + intros t Ht. rewrite Hshift. apply Hskip. lia.
    + rewrite Hshift. rewrite <- He0. f_equal. f_equal. lia.
Qed.

(** X10. The probe of FileByHash, from the slot that the first hash gives,
    passes the entries that were used and store other hashes, goes on at
    the start of the hash table after its end, and stops at the first entry
    that stores the two other hashes. *)
Theorem probe_finds_first_match (m : MPQ) (h1 h2 h3 : Z) (d fuel : nat)
  (e0 : HashEntry) :
  let n := hashTableEntries (header m) in
  let home := Z.land h1 (n - 1) in
  len (hashTable m) = n -> 0 < n < 2 ^ 32 -> 0 <= h1 -> (d < fuel)%nat ->
  (forall t, 0 <= t < Z.of_nat d ->
     exists e, index (hashTable m) ((home + t) mod n) = Some e
               /\ fileBlockIndex e <> 0xffffffff
               /\ (filePathHashA e <> h2 \/ filePathHashB e <> h3)) ->
  index (hashTable m) ((home + Z.of_nat d) mod n) = Some e0 ->
  fileBlockIndex e0 <> 0xffffffff ->
  filePathHashA e0 = h2 -> filePathHashB e0 = h3 ->
  probe fuel h2 h3 (Z.land h1 (sub32 n 1)) m = (Ret (Some e0), m).
Proof.
  intros n home Hl Hn Hh Hf Hskip He0 Hu Ha Hb.
  assert (sub32 n 1 = n - 1) as ->
      by (unfold sub32, u32; apply Z.mod_small; lia).
  fold home. pose proof (land_bounds h1 (n - 1) Hh ltac:(lia)) as Hi.
  fold home in Hi.
  assert ((home =? n) = false) as En by (apply Z.eqb_neq; lia).
  apply (probe_finds m h2 h3 e0 Hl Hn Hu Ha Hb d fuel home Hf ltac:(lia));
    fold n; rewrite En; assumption.
Qed.

Lemma probe_finds_first_match_witness :
  probe 2 21 22 (Z.land 1 (sub32 2 1)) Sample.full
  = (Ret (Some (mkHashEntry 21 22 0 0 0)), Sample.full).
Proof.
  apply (probe_finds_first_match Sample.full 1 21 22 1 2
           (mkHashEntry 21 22 0 0 0)); try reflexivity; try lia.
  - vm_compute. split; reflexivity.
  - intros t Ht. assert (t = 0) as -> by lia.
    exists Sample.tombstone. vm_compute.
    repeat split; [discriminate | left; discriminate].
  - discriminate.
Defined.

(** ** What FileByHash returns *)

(** The reads and seeks return. *)
Ltac prim_returns :=
  match goal with
  | S : Seek _ ?m0 = (?o, _) |- _ =>
      unfold Seek in S; destruct (Reader_Seek (input m0) _); discriminate S
  | R : ReadFull _ ?m0 = (?o, _) |- _ =>
      unfold ReadFull in R; destruct (Reader_ReadFull (input m0) _) as [[? ?] ?];
      discriminate R
  end.

Lemma offsetTable_error (be : BlockEntry) (bc base : Z) (m m' : MPQ)
  (e : error) :
  offsetTable be bc base m = (Ret (inl e), m') -> e = ErrInvalidArchive.
Proof.
  intro H. unfold offsetTable in H. walk H; congruence.
Qed.

Section Returned.

Variable decompressMulti : list byte -> list byte -> list byte * option error.

Lemma readBlocks_shape (n : nat) :
  forall k be bc base pbo content ci m c e m',
    readBlocks decompressMulti n k be bc base pbo content ci m
    = (Ret (c, e), m') ->
    (c = None /\ (exists e0, e = Some e0 /\ errorOfCall decompressMulti e0))
    \/ (e = None /\ exists content', c = Some content').
Proof.
  induction n as [ | n IH]; intros k be bc base pbo content ci m c e m' H.
  - simpl in H. injection H as <- <- _. right. eauto.
  - run H;
      try (injection H as <- <- _; left; split; [reflexivity | ];
           eexists; split; [reflexivity | ]; left; reflexivity);
      try (apply IH in H; exact H).
    injection H as <- <- _. left. split; [reflexivity | ].
    eexists. split; [reflexivity | ]. right. eauto.
Qed.

Lemma readBlocks_no_spin (n : nat) :
  forall k be bc base pbo content ci m m',
    readBlocks decompressMulti n k be bc base pbo content ci m
    <> (OutOfFuel, m').
Proof.
  induction n as [ | n IH]; intros k be bc base pbo content ci m m' H.
  - discriminate.
  - run H; try prim_returns; eapply IH; exact H.
Qed.

Lemma assemble_shape (i : Z) (be : BlockEntry) (m m' : MPQ)
  (c : option (list byte)) (e : option error) :
  assemble decompressMulti i be m = (Ret (c, e), m') ->
  (c = None /\ (exists e0, e = Some e0 /\ errorOfCall decompressMulti e0))
  \/ (e = None /\ exists content', c = Some content').
Proof.
  intro H. unfold assemble in H. walk H.
  all: try (apply readBlocks_shape in H; exact H).
  all: match goal with
       | O : offsetTable _ _ _ _ = (Ret (inl ?e1), _) |- _ =>
           apply offsetTable_error in O; subst e1
       end.
  all: injection H as <- <- _; left; split; [reflexivity | ];
    eexists; split; [reflexivity | ]; left; reflexivity.
Qed.

Lemma assemble_no_spin (i : Z) (be : BlockEntry) (m m' : MPQ) :
  assemble decompressMulti i be m <> (OutOfFuel, m').
Proof.
  intro H. unfold assemble in H. walk H.
  all: try (eapply readBlocks_no_spin; exact H).
  all: match goal with
       | O : offsetTable _ _ _ _ = (OutOfFuel, _) |- _ =>
           unfold offsetTable in O; walk O
       end.
  all: try prim_returns.
  all: match goal with
       | L : loadOffsets ?n ?e ?m0 = (OutOfFuel, _) |- _ =>
           destruct (loadOffsets_returns n e m0) as (? & ? & ? & R);
           rewrite R in L; discriminate
       end.
Qed.


Lemma resolve_no_spin (e : HashEntry) (m m' : MPQ) :
  resolve e m <> (OutOfFuel, m').
Proof. intro H. unfold resolve in H. walk H. Qed.

(** X11. FileByHash never returns both a content and an error, and the
    error it returns is ErrInvalidArchive or an error that the decompressor
    reported. *)
Theorem FileByHash_content_or_error (fuel : nat) (h1 h2 h3 : Z) (m : MPQ) :
  match fst (FileByHash decompressMulti fuel h1 h2 h3 m) with
  | Ret (Some _, Some _) => False
  | Ret (None, Some e) => errorOfCall decompressMulti e
  | _ => True
  end.
Proof.
  unfold FileByHash, bind.
  destruct (lookup fuel h1 h2 h3 m) as [[[[j be] | ] | p | ] m1]; cbn [fst];
    try exact I.
  destruct (assemble decompressMulti j be m1) as [[[c e] | p | ] m2] eqn:A;
    cbn [fst]; try exact I.
  apply assemble_shape in A.
  destruct A as [(-> & e0 & -> & E) | (-> & c0 & ->)]; [exact E | exact I].
Qed.

End Returned.

Section Ends.

Variable decrypt : list byte -> Z -> list byte.
Variable decompressMulti : list byte -> list byte -> list byte * option error.

Lemma hasNeverUsed_entries (m : MPQ) :
  hasNeverUsed m -> 0 < len (hashTable m).
Proof.
  intros (j & e & He & _). apply index_Some in He. lia.
Qed.

(** X12. In an archive that New opened and whose hash table has an entry
    that was never used, FileByHash comes to an end within as many probes as
    the hash table has entries. *)
Theorem FileByHash_ends (i : Reader) (m : MPQ) (fuel : nat) (h1 h2 h3 : Z) :
  New decrypt i = Ret (Some m, None) ->
  hasNeverUsed m -> 0 <= h1 ->
  (Z.to_nat (hashTableEntries (header m)) <= fuel)%nat ->
  fst (FileByHash decompressMulti fuel h1 h2 h3 m) <> OutOfFuel.
Proof.
  intros HN Hu Hh Hf.
  destruct (New_inv decrypt i m HN) as (R & _ & _ & Lh & _).
  pose proof (hasNeverUsed_entries m Hu) as Hp.
  destruct (probe_ends m h1 h2 h3 fuel Lh) as (r & P & _);
    [unfold headerInRange in R; lia | assumption | assumption | assumption | ].
  unfold FileByHash, lookup, bind, get. rewrite P.
  destruct r as [e | ]; [ | discriminate].
  destruct (resolve e m) as [[[[j be] | ] | p | ] m1] eqn:Rs; cbn [fst];
    try discriminate.
  - destruct (assemble decompressMulti j be m1) as [[a | p | ] m2] eqn:A;
      cbn [fst]; try discriminate.
    exfalso. exact (assemble_no_spin decompressMulti j be m1 m2 A).
  - exfalso. exact (resolve_no_spin e m m1 Rs).
Qed.

(** X13. In an archive that New opened and whose hash table has an entry
    that was never used, FileByHash returns nil and nil for hashes that no
    entry of the hash table stores, and leaves the handle as it was. *)
Theorem FileByHash_not_found (i : Reader) (m : MPQ) (fuel : nat)
  (h1 h2 h3 : Z) :
  New decrypt i = Ret (Some m, None) ->
  hasNeverUsed m -> unmatched m h2 h3 = true -> 0 <= h1 ->
  (Z.to_nat (hashTableEntries (header m)) <= fuel)%nat ->
  FileByHash decompressMulti fuel h1 h2 h3 m = (Ret (None, None), m).
Proof.
  intros HN Hu Hm Hh Hf.
  destruct (New_inv decrypt i m HN) as (R & _ & _ & Lh & _).
  pose proof (hasNeverUsed_entries m Hu) as Hp.
  destruct (probe_ends m h1 h2 h3 fuel Lh) as (r & P & N);
    [unfold headerInRange in R; lia | assumption | assumption | assumption | ].
  unfold FileByHash, lookup, bind, get. rewrite P, (N Hm). reflexivity.
Qed.

(** X14. With an empty hash table every call of FileByHash panics at the
    first probe: the index into the hash table is out of range. *)
Theorem FileByHash_empty_hash_table (fuel : nat) (h1 h2 h3 : Z) (m : MPQ) :
  hashTable m = [] -> (0 < fuel)%nat ->
  FileByHash decompressMulti fuel h1 h2 h3 m = (Panic IndexOutOfRange, m).
Proof.
  intros He Hf. destruct fuel as [ | fuel]; [lia | ].
  unfold FileByHash, lookup, bind, get. cbn [probe]. unfold bind, get.
  rewrite He. unfold index.
  destruct (_ <? 0); [reflexivity | ].
  destruct (Z.to_nat _); reflexivity.
Qed.

(** X15. In an archive that New opened, when the probe stops at a hash entry
    whose block index is not past the block table, FileByHash goes on with
    the first file entry of the block table at that index or after it, and
    returns nil and nil when there is none. *)
Theorem FileByHash_first_file_from (i : Reader) (m : MPQ) (fuel : nat)
  (h1 h2 h3 : Z) (e : HashEntry) :
  New decrypt i = Ret (Some m, None) ->
  probe fuel h2 h3 (Z.land h1 (sub32 (hashTableEntries (header m)) 1)) m
  = (Ret (Some e), m) ->
  0 <= fileBlockIndex e <= len (blockTable m) ->
  FileByHash decompressMulti fuel h1 h2 h3 m
  = match nextFile (blockTable m) 0 (fileBlockIndex e) with
    | Some (j, be) => assemble decompressMulti j be m
    | None => (Ret (None, None), m)
    end.
Proof.
  intros HN P Hr.
  unfold FileByHash, lookup, bind, get. rewrite P.
  rewrite (resolve_nextFile e m (New_filesIndexed decrypt i m HN) Hr).
  destruct (nextFile _ _ _) as [[j be] | ]; reflexivity.
Qed.

(** X16. In an archive that New opened, when the probe stops at a hash entry
    whose block index is that of a file entry, FileByHash reads the file of
    this entry. *)
Theorem FileByHash_file_at_index (i : Reader) (m : MPQ) (fuel : nat)
  (h1 h2 h3 : Z) (e : HashEntry) (be : BlockEntry) :
  New decrypt i = Ret (Some m, None) ->
  probe fuel h2 h3 (Z.land h1 (sub32 (hashTableEntries (header m)) 1)) m
  = (Ret (Some e), m) ->
  index (blockTable m) (fileBlockIndex e) = Some be ->
  isFile be = true ->
  FileByHash decompressMulti fuel h1 h2 h3 m
  = assemble decompressMulti (fileBlockIndex e) be m.
Proof.
  intros HN P Hb Hf.
  pose proof (index_Some _ _ _ Hb) as Hr.
  unfold FileByHash, lookup, bind, get. rewrite P.
  rewrite (resolve_nextFile e m (New_filesIndexed decrypt i m HN))
    by lia.
  rewrite (nextFile_at_file (blockTable m) 0 (fileBlockIndex e) be);
    [reflexivity | lia | | assumption].
  unfold index in Hb.
  destruct (fileBlockIndex e <? 0); [discriminate | ].
  rewrite Z.sub_0_r. exact Hb.
Qed.

End Ends.

Lemma hasNeverUsed_plain : hasNeverUsed Sample.plain.
Proof.
  exists 0, (mkHashEntry 0xffffffff 0xffffffff 0xffff 0xffff 0xffffffff).
  split; reflexivity.
Qed.


Lemma FileByHash_ends_witness :
  fst (Sample.FileByHash 2 1 11 12 Sample.plain) <> OutOfFuel.
Proof.
  apply (FileByHash_ends Crypt.decrypt Sample.decompressMulti
           (NewReader Sample.plainBytes) Sample.plain 2 1 11 12).
  - vm_compute. reflexivity.
  - exact hasNeverUsed_plain.
  - lia.
  - vm_compute. lia.
Defined.

Lemma FileByHash_not_found_witness :
  Sample.FileByHash 2 1 41 42 Sample.plain = (Ret (None, None), Sample.plain).
Proof.
  apply (FileByHash_not_found Crypt.decrypt Sample.decompressMulti
           (NewReader Sample.plainBytes) Sample.plain 2 1 41 42).
  - vm_compute. reflexivity.
  - exact hasNeverUsed_plain.
  - vm_compute. reflexivity.
  - lia.
  - vm_compute. lia.
Defined.

Lemma FileByHash_empty_hash_table_witness :
  Sample.FileByHash 1 0 11 12 More.empty = (Panic IndexOutOfRange, More.empty).
Proof.
  apply (FileByHash_empty_hash_table Sample.decompressMulti 1 0 11 12
           More.empty).
  - reflexivity.
  - lia.
Defined.

(** The hashes (11, 12) lead in [More.gap] to the block index 0 of free
    space, and the file returned is that of the block index 1. *)
Lemma FileByHash_first_file_from_witness :
  fst (Sample.FileByHash 4 0 11 12 More.gap) = Ret (Some [x68; x65], None).
Proof.
  unfold Sample.FileByHash.
  rewrite (FileByHash_first_file_from Crypt.decrypt Sample.decompressMulti
             (NewReader More.gapBytes) More.gap 4 0 11 12
             (mkHashEntry 11 12 0 0 0)).
  - vm_compute. reflexivity.
  - vm_compute. reflexivity.
  - vm_compute. reflexivity.
  - vm_compute. split; discriminate.
Defined.

Lemma FileByHash_file_at_index_witness :
  fst (Sample.FileByHash 4 1 21 22 More.gap) = Ret (Some [x68; x65], None).
Proof.
  unfold Sample.FileByHash.
  rewrite (FileByHash_file_at_index Crypt.decrypt Sample.decompressMulti
             (NewReader More.gapBytes) More.gap 4 1 21 22
             (mkHashEntry 21 22 0 0 1)
             (mkBlockEntry 144 2 2 (beFlagFile + beFlagSingle))).
  - vm_compute. reflexivity.
  - vm_compute. reflexivity.
  - vm_compute. reflexivity.
  - vm_compute. reflexivity.
  - vm_compute. reflexivity.
Defined.

(** ** Files stored as a single unit *)

Lemma add64_small (a b : Z) :
  - 2 ^ 63 <= a + b < 2 ^ 63 -> add64 a b = a + b.
Proof. intro H. unfold add64. rewrite Z.mod_small; lia. Qed.

(** A read within the input gives the bytes at the position. *)
Lemma Reader_ReadFull_enough (d : list byte) (off n : Z) :
  0 <= off -> 0 <= n -> off + n <= len d ->
  exists r, Reader_ReadFull (mkReader d off) n
            = (firstn (Z.to_nat n) (skipn (Z.to_nat off) d), None, r).
Proof.
  intros Ho Hn Hl. unfold Reader_ReadFull, rest. cbn [data pos].
  destruct (n <=? 0) eqn:E0.
  - apply Z.leb_le in E0. replace (Z.to_nat n) with 0%nat by lia. eauto.
  - apply Z.leb_gt in E0.
    assert ((len d <=? off) = false) as -> by (apply Z.leb_gt; lia).
    assert (len (skipn (Z.to_nat off) d) = len d - off) as L
        by (unfold len in *; rewrite length_skipn; lia).
    rewrite L.
    assert ((len d - off =? 0) = false) as -> by (apply Z.eqb_neq; lia).
    assert ((len d - off <? n) = false) as -> by (apply Z.ltb_ge; lia).
    eauto.
Qed.

(** A read past the end of the input fails. *)
Lemma Reader_ReadFull_beyond (d : list byte) (off n : Z) :
  0 <= off -> 0 < n -> len d < off + n ->
  exists bs e r, Reader_ReadFull (mkReader d off) n = (bs, Some e, r).
Proof.
  intros Ho Hn Hl. unfold Reader_ReadFull.
  assert ((n <=? 0) = false) as -> by (apply Z.leb_gt; lia).
  pose proof (rest_len (mkReader d off) Ho) as L. cbn [data pos] in L.
  destruct (len (rest (mkReader d off)) =? 0); [eauto | ].
  assert ((len (rest (mkReader d off)) <? n) = true) as ->
      by (apply Z.ltb_lt; lia).
  eauto.
Qed.

Lemma copy_same_length (dst src : list byte) :
  List.length dst = List.length src -> copy dst src = src.
Proof.
  intro H. unfold copy. rewrite H, Nat.min_id, firstn_all, <- H, skipn_all.
  apply app_nil_r.
Qed.

Section SingleUnit.

Variable decompressMulti : list byte -> list byte -> list byte * option error.

(** What [FileByHash] does with a block stored as a single unit: one seek,
    one read of the stored size, then the checks of the flags. *)
Lemma assemble_single (i : Z) (be : BlockEntry) (m : MPQ) :
  has be beFlagSingle = true ->
  extBlockEntryHighOffsets m = None ->
  blockInRange m be ->
  assemble decompressMulti i be m
  = let '(inBuffer, err, r) :=
      Reader_ReadFull (mkReader (data (input m)) (dataOffset m be))
                      (be_blockSize be) in
    (Ret (if negb (is_nil err) then (None, Some ErrInvalidArchive)
          else if has be beFlagEncrypted then (None, Some ErrInvalidArchive)
          else if has be beFlagCompressedMulti then
            match decompressMulti (make x00 (fileSize be)) inBuffer with
            | (_, Some e) => (None, Some e)
            | (d, None) => (Some d, None)
            end
          else if has be beFlagPKWare then (None, Some ErrInvalidArchive)
          else (Some (copy (make x00 (fileSize be)) inBuffer), None)),
     set_input m r).
Proof.
  intros Hs Hx (Ho & Hb & Hf & Hu). unfold assemble, bind, get.
  rewrite Hx. unfold blocksCount_of. rewrite Hs.
  unfold offsetTable, bind, get. rewrite Hs. cbn [negb]. rewrite andb_false_r.
  set (base := match userData m with
               | Some u => add64 (blockOffset be) (u_headerOffset u)
               | None => blockOffset be
               end).
  assert (base = dataOffset m be /\ 0 <= base < 2 ^ 33) as (Hbase & Hbr).
  { unfold base, dataOffset. destruct (userData m) as [u | ].
    - rewrite add64_small by lia. lia.
    - lia. }
  change (add32 1 1) with 2. change (add32 2 1) with 3.
  assert (exists tail,
             (match store (make 0 (if has be beFlagExtra then 3 else 2)) 0 0 with
              | Some p => store p 1 (be_blockSize be)
              | None => None
              end) = Some (0 :: be_blockSize be :: tail)) as (tail & ->).
  { destruct (has be beFlagExtra); eexists; reflexivity. }
  unfold ret. change (Z.to_nat 1) with 1%nat. cbn [readBlocks].
  unfold bind, get. unfold unpackedSize_of. rewrite Hs.
  change (index (0 :: be_blockSize be :: tail) (0 + 1))
    with (Some (be_blockSize be)).
  change (index (0 :: be_blockSize be :: tail) 0) with (Some 0).
  cbv beta iota zeta.
  assert (sub32 (be_blockSize be) 0 = be_blockSize be) as ->
      by (unfold sub32, u32; rewrite Z.sub_0_r; apply Z.mod_small; lia).
  rewrite add64_small by lia. rewrite Z.add_0_r.
  unfold Seek, Reader_Seek.
  assert ((base <? 0) = false) as -> by (apply Z.ltb_ge; lia).
  cbv beta iota zeta. unfold ReadFull. cbn [is_nil negb]. cbv beta iota zeta.
  repeat match goal with
         | |- context [input (set_input ?a ?b)] =>
             change (input (set_input a b)) with b
         end.
  rewrite Hbase.
  destruct (Reader_ReadFull (mkReader (data (input m)) (dataOffset m be))
              (be_blockSize be)) as [[inBuffer err] r].
  destruct err as [e | ]; cbn [is_nil negb]; [reflexivity | ].
  destruct (has be beFlagEncrypted); [reflexivity | ].
  assert (add32 0 (fileSize be) = fileSize be) as Ha
      by (unfold add32, u32; apply Z.mod_small; lia).
  assert (len (make x00 (fileSize be)) = fileSize be) as Hl
      by (apply make_len; lia).
  destruct (has be beFlagCompressedMulti).
  - rewrite Ha. unfold slice. rewrite Hl.
    assert ((0 <=? 0) && (0 <=? fileSize be) && (fileSize be <=? fileSize be)
            = true) as ->.
    { rewrite Z.leb_refl. cbn [andb]. rewrite andb_true_iff.
      split; apply Z.leb_le; lia. }
    rewrite Z.sub_0_r. cbn [Z.to_nat skipn firstn app].
    assert (firstn (Z.to_nat (fileSize be)) (make x00 (fileSize be))
            = make x00 (fileSize be)) as ->.
    { apply firstn_all2. unfold len in Hl. lia. }
    assert (skipn (Z.to_nat (fileSize be)) (make x00 (fileSize be)) = [])
      as Hsk.
    { apply skipn_all2. unfold len in Hl. lia. }
    destruct (decompressMulti (make x00 (fileSize be)) inBuffer) as [d [e | ]];
      [reflexivity | ].
    rewrite Hsk, app_nil_r. reflexivity.
  - destruct (has be beFlagPKWare); [reflexivity | ].
    unfold slice. rewrite Hl.
    assert ((0 <=? 0) && (0 <=? fileSize be) && (fileSize be <=? fileSize be)
            = true) as ->.
    { rewrite Z.leb_refl. cbn [andb]. rewrite andb_true_iff.
      split; apply Z.leb_le; lia. }
    rewrite Z.sub_0_r. cbn [Z.to_nat skipn firstn app].
    assert (firstn (Z.to_nat (fileSize be)) (make x00 (fileSize be))
            = make x00 (fileSize be)) as ->.
    { apply firstn_all2. unfold len in Hl. lia. }
    reflexivity.
Qed.

(** X17. A file stored as a single unit, neither encrypted nor compressed
    nor imploded, whose stored bytes lie within the input, is returned as a
    content of the file size into which the stored bytes are copied; when
    the stored size is the file size the content is the stored bytes. *)
Theorem FileByHash_stored_single (fuel : nat) (h1 h2 h3 : Z) (m : MPQ)
  (i : Z) (be : BlockEntry) :
  lookup fuel h1 h2 h3 m = (Ret (Some (i, be)), m) ->
  extBlockEntryHighOffsets m = None ->
  blockInRange m be ->
  has be beFlagSingle = true ->
  has be beFlagEncrypted = false ->
  has be beFlagCompressedMulti = false ->
  has be beFlagPKWare = false ->
  dataOffset m be + be_blockSize be <= len (data (input m)) ->
  fst (FileByHash decompressMulti fuel h1 h2 h3 m)
  = Ret (Some (copy (make x00 (fileSize be))
                    (inputBytes m (dataOffset m be) (be_blockSize be))), None)
  /\ (be_blockSize be = fileSize be ->
      fst (FileByHash decompressMulti fuel h1 h2 h3 m)
      = Ret (Some (inputBytes m (dataOffset m be) (fileSize be)), None)).
Proof.
  intros Hl Hx Hr Hs He Hc Hp Hd.
  assert (fst (FileByHash decompressMulti fuel h1 h2 h3 m)
          = Ret (Some (copy (make x00 (fileSize be))
                        (inputBytes m (dataOffset m be) (be_blockSize be))),
                 None)) as E.
  { unfold FileByHash, bind. rewrite Hl.
    rewrite (assemble_single i be m Hs Hx Hr).
    destruct Hr as (Ho & Hb & Hf & Hu).
    assert (0 <= dataOffset m be) as Hoff.
    { unfold dataOffset. destruct (userData m); lia. }
    destruct (Reader_ReadFull_enough (data (input m)) (dataOffset m be)
                (be_blockSize be)) as (r & ->); try lia.
    cbn [is_nil negb fst]. rewrite He, Hc, Hp. reflexivity. }
  split; [exact E | ].
  intro Heq. rewrite E, Heq. rewrite copy_same_length; [reflexivity | ].
  destruct Hr as (Ho & Hb & Hf & Hu).
  assert (0 <= dataOffset m be) as Hoff.
  { unfold dataOffset. destruct (userData m); lia. }
  unfold make, inputBytes. rewrite repeat_length, length_firstn, length_skipn.
  unfold len in Hd. lia.
Qed.

(** X18. A block stored as a single unit whose stored bytes reach past the end
    of the input makes FileByHash fail with ErrInvalidArchive, whatever its
    other flags. *)
Theorem FileByHash_short_block (fuel : nat) (h1 h2 h3 : Z) (m : MPQ)
  (i : Z) (be : BlockEntry) :
  lookup fuel h1 h2 h3 m = (Ret (Some (i, be)), m) ->
  extBlockEntryHighOffsets m = None ->
  blockInRange m be ->
  has be beFlagSingle = true ->
  0 < be_blockSize be ->
  len (data (input m)) < dataOffset m be + be_blockSize be ->
  fst (FileByHash decompressMulti fuel h1 h2 h3 m)
  = Ret (None, Some ErrInvalidArchive).
Proof.
  intros Hl Hx Hr Hs Hb Hd. unfold FileByHash, bind. rewrite Hl.
  rewrite (assemble_single i be m Hs Hx Hr).
  assert (0 <= dataOffset m be) as Hoff.
  { destruct Hr as (Ho & _ & _ & Hu). unfold dataOffset.
    destruct (userData m); lia. }
  destruct (Reader_ReadFull_beyond (data (input m)) (dataOffset m be)
              (be_blockSize be)) as (bs & e & r & ->); try lia.
  reflexivity.
Qed.

(** X19. For a compressed file stored as a single unit and not encrypted,
    whose stored bytes lie within the input, the decompressor gets a window
    of the file size and the stored bytes; what it leaves in the window is
    the content, and its error, if any, is the error of FileByHash. *)
Theorem FileByHash_compressed_single (fuel : nat) (h1 h2 h3 : Z) (m : MPQ)
  (i : Z) (be : BlockEntry) :
  lookup fuel h1 h2 h3 m = (Ret (Some (i, be)), m) ->
  extBlockEntryHighOffsets m = None ->
  blockInRange m be ->
  has be beFlagSingle = true ->
  has be beFlagEncrypted = false ->
  has be beFlagCompressedMulti = true ->
  dataOffset m be + be_blockSize be <= len (data (input m)) ->
  fst (FileByHash decompressMulti fuel h1 h2 h3 m)
  = Ret (match decompressMulti (make x00 (fileSize be))
                 (inputBytes m (dataOffset m be) (be_blockSize be)) with
         | (_, Some e) => (None, Some e)
         | (d, None) => (Some d, None)
         end).
Proof.
  intros Hl Hx Hr Hs He Hc Hd. unfold FileByHash, bind. rewrite Hl.
  rewrite (assemble_single i be m Hs Hx Hr).
  destruct Hr as (Ho & Hb & Hf & Hu).
  assert (0 <= dataOffset m be) as Hoff.
  { unfold dataOffset. destruct (userData m); lia. }
  destruct (Reader_ReadFull_enough (data (input m)) (dataOffset m be)
              (be_blockSize be)) as (r & ->); try lia.
  cbn [is_nil negb fst]. rewrite He, Hc. reflexivity.
Qed.

End SingleUnit.

Lemma blockInRange_hello (m : MPQ) :
  userData m = None -> blockInRange m (Sample.helloBlock 2 0).
Proof.
  intro H. unfold blockInRange. rewrite H. cbn. lia.
Qed.

(** The five stored bytes of [Sample.plain] are its file. *)
Lemma FileByHash_stored_single_witness :
  fst (Sample.FileByHash 2 1 11 12 Sample.plain) = Ret (Some Sample.hello, None).
Proof.
  apply (FileByHash_stored_single Sample.decompressMulti 2 1 11 12
           Sample.plain 0 (Sample.helloBlock 2 0)); try reflexivity.
  apply blockInRange_hello. reflexivity.
Defined.

(** The file of [More.truncated] has two of its five bytes only. *)
Lemma FileByHash_short_block_witness :
  fst (Sample.FileByHash 2 0 11 12 More.truncated)
  = Ret (None, Some ErrInvalidArchive).
Proof.
  apply (FileByHash_short_block Sample.decompressMulti 2 0 11 12
           More.truncated 0 (Sample.helloBlock 2 0)); try reflexivity.
  apply blockInRange_hello. reflexivity.
Defined.

(** The compressed file of [More.packedSingle] is what the decompressor
    makes of its six stored bytes. *)
Lemma FileByHash_compressed_single_witness :
  fst (Sample.FileByHash 2 0 11 12 More.packedSingle)
  = Ret (Some Sample.hello, None).
Proof.
  apply (FileByHash_compressed_single Sample.decompressMulti 2 0 11 12
           More.packedSingle 0
           (mkBlockEntry 80 6 5
              (beFlagFile + beFlagSingle + beFlagCompressedMulti)));
    try reflexivity.
  unfold blockInRange. cbn. lia.
Defined.

(** ** Files stored in sectors *)

Lemma firstn_plus {A} (l : list A) (a b : nat) :
  firstn (a + b) l = firstn a l ++ firstn b (skipn a l).
Proof.
  revert l. induction a as [ | a IH]; intros [ | x l]; cbn [Nat.add firstn skipn app];
    try reflexivity.
  - rewrite firstn_nil. reflexivity.
  - rewrite IH. reflexivity.
Qed.

(** The copy of a sector into the content that holds the sectors before
    it. *)
Lemma sector_copied (file : list byte) (a b : nat) :
  (a + b <= List.length file)%nat ->
  firstn a (firstn a file ++ repeat x00 (List.length file - a))
    ++ copy (skipn a (firstn a file ++ repeat x00 (List.length file - a)))
            (firstn b (skipn a file))
  = firstn (a + b) file ++ repeat x00 (List.length file - (a + b)).
Proof.
  intro H.
  assert (List.length (firstn a file) = a) as La
      by (rewrite length_firstn; lia).
  rewrite firstn_app, skipn_app, La, Nat.sub_diag. cbn [firstn skipn].
  rewrite app_nil_r, firstn_firstn, Nat.min_id.
  rewrite skipn_all2 by lia. cbn [app].
  unfold copy.
  assert (List.length (firstn b (skipn a file)) = b) as Lb
      by (rewrite length_firstn, length_skipn; lia).
  rewrite repeat_length, Lb.
  replace (Nat.min (List.length file - a) b) with b by lia.
  rewrite <- Lb at 1. rewrite firstn_all, skipn_repeat.
  rewrite firstn_plus, <- app_assoc.
  replace (List.length file - a - b)%nat with (List.length file - (a + b))%nat
    by lia.
  reflexivity.
Qed.

Lemma nth_error_set_nth_same {A} (l : list A) (v : A) :
  forall n, (n < List.length l)%nat -> nth_error (set_nth l n v) n = Some v.
Proof.
  induction l as [ | x l IH]; intros [ | n] H; cbn in *; try lia.
  - reflexivity.
  - apply IH. lia.
Qed.

Lemma nth_error_set_nth_other {A} (l : list A) (v : A) :
  forall n j, j <> n -> nth_error (set_nth l n v) j = nth_error l j.
Proof.
  induction l as [ | x l IH]; intros [ | n] [ | j] H; cbn; try reflexivity;
    try congruence.
  apply IH. congruence.
Qed.

Lemma store_index {A} (l l' : list A) (i : Z) (v : A) :
  store l i v = Some l' ->
  index l' i = Some v /\ forall j, j <> i -> index l' j = index l j.
Proof.
  unfold store. destruct ((0 <=? i) && (i <? len l)) eqn:E; [ | discriminate].
  apply andb_true_iff in E. destruct E as (E1 & E2).
  apply Z.leb_le in E1. apply Z.ltb_lt in E2. unfold len in E2.
  intro H. injection H as <-. unfold index. split.
  - assert ((i <? 0) = false) as -> by (apply Z.ltb_ge; lia).
    apply nth_error_set_nth_same. lia.
  - intros j Hj. destruct (j <? 0) eqn:Ej; [reflexivity | ].
    apply Z.ltb_ge in Ej. apply nth_error_set_nth_other. lia.
Qed.

(** The loop that fills the packed block offsets of a file that is not
    compressed writes the multiples of the size of a sector. *)
Lemma fillOffsets_index (n : nat) (bs : Z) :
  forall k pbo p, 0 <= k -> fillOffsets n k bs pbo = Some p ->
    (forall j, k <= j < k + Z.of_nat n -> index p j = Some (mul32 j bs))
    /\ (forall j, j < k \/ k + Z.of_nat n <= j -> index p j = index pbo j).
Proof.
  induction n as [ | n IH]; intros k pbo p Hk H.
  - injection H as <-. split; [intros j Hj; lia | reflexivity].
  - cbn [fillOffsets] in H. rewrite Nat2Z.inj_succ.
    destruct (store pbo k (mul32 k bs)) as [p1 | ] eqn:S1; [ | discriminate].
    apply store_index in S1. destruct S1 as (Sk & So).
    destruct (IH (k + 1) p1 p ltac:(lia) H) as (I1 & I2). split.
    + intros j Hj. destruct (Z.eq_dec j k) as [-> | Hne].
      * rewrite I2 by lia. exact Sk.
      * apply I1. lia.
    + intros j Hj. rewrite I2 by lia. apply So. lia.
Qed.

Lemma has_beFlagCompressed (be : BlockEntry) :
  has be beFlagCompressed = false ->
  has be beFlagCompressedMulti = false /\ has be beFlagPKWare = false.
Proof.
  unfold has. intro H. apply negb_false_iff, Z.eqb_eq in H.
  change beFlagCompressedMulti
    with (Z.land beFlagCompressed beFlagCompressedMulti).
  change beFlagPKWare with (Z.land beFlagCompressed beFlagPKWare).
  rewrite !Z.land_assoc, H. split; reflexivity.
Qed.

Section Sectors.

Variable decompressMulti : list byte -> list byte -> list byte * option error.

(** A file of [fs] bytes in sectors of [bs] bytes, stored as it is from the
    offset [base] of the input [d] on; [bc] is its count of sectors. *)
Variable be : BlockEntry.
Variables (bs bc base : Z) (d : list byte) (pbo : list Z).

Let fs : Z := fileSize be.
Let file : list byte := firstn (Z.to_nat fs) (skipn (Z.to_nat base) d).

(** Where sector [k] starts in the file. *)
Let start (k : Z) : Z := Z.min (k * bs) fs.

Hypothesis Hsingle : has be beFlagSingle = false.
Hypothesis Hcompressed : has be beFlagCompressed = false.
Hypothesis Hencrypted : has be beFlagEncrypted = false.
Hypothesis Hbs : 0 < bs.
Hypothesis Hfs : 0 <= fs.
Hypothesis Hsum : fs + bs <= 2 ^ 32.
Hypothesis Hlast : (bc - 1) * bs < fs \/ bc = 0.
Hypothesis Hall : fs <= bc * bs.
Hypothesis Hbc : 0 <= bc.
Hypothesis Hbase : 0 <= base < 2 ^ 33.
Hypothesis Hinput : base + fs <= len d.
Hypothesis Hpbo : forall j, 0 <= j <= bc -> index pbo j = Some (start j).

Lemma file_length : List.length file = Z.to_nat fs.
Proof.
  unfold file. rewrite length_firstn, length_skipn. unfold len in Hinput. lia.
Qed.

Lemma start_step (k : Z) :
  0 <= k < bc ->
  start k = k * bs /\ start k < start (k + 1) <= fs
  /\ start (k + 1) - start k <= bs.
Proof.
  intro Hk. unfold start. destruct Hlast as [Hl | Hl]; [ | lia].
  assert (k * bs <= (bc - 1) * bs) by nia.
  assert (0 <= k * bs) by nia.
  assert ((k + 1) * bs = k * bs + bs) by lia.
  lia.
Qed.

Lemma sector_bytes (k : Z) :
  0 <= k < bc ->
  firstn (Z.to_nat (start (k + 1) - start k))
         (skipn (Z.to_nat (base + start k)) d)
  = firstn (Z.to_nat (start (k + 1) - start k))
           (skipn (Z.to_nat (start k)) file).
Proof.
  intro Hk. destruct (start_step k Hk) as (E & Hs & Hb).
  assert (0 <= start k) by (rewrite E; nia).
  unfold file. rewrite skipn_firstn_comm, skipn_skipn, firstn_firstn.
  replace (Z.to_nat (start k) + Z.to_nat base)%nat
    with (Z.to_nat (base + start k)) by lia.
  f_equal. lia.
Qed.

Lemma readBlocks_sectors (n : nat) :
  forall k m0,
    Z.of_nat n + k = bc -> 0 <= k ->
    data (input m0) = d -> blockSize m0 = bs ->
    fst (readBlocks decompressMulti n k be bc base pbo
           (firstn (Z.to_nat (start k)) file
              ++ repeat x00 (Z.to_nat fs - Z.to_nat (start k)))
           (start k) m0)
    = Ret (Some file, None).
Proof.
  induction n as [ | n IH]; intros k m0 Hn Hk Hd Hb.
  - cbn [readBlocks ret fst]. cbn [Z.of_nat] in Hn.
    assert (start k = fs) as -> by (unfold start; nia).
    rewrite Nat.sub_diag. cbn [repeat]. rewrite app_nil_r.
    rewrite <- file_length, firstn_all. reflexivity.
  - rewrite Nat2Z.inj_succ in Hn.
    destruct (start_step k ltac:(lia)) as (E & Hs & Hw).
    assert (0 <= start k) as H0 by (rewrite E; nia).
    cbn [readBlocks]. unfold bind, get.
    rewrite (Hpbo (k + 1)), (Hpbo k) by lia.
    set (content := firstn (Z.to_nat (start k)) file
                      ++ repeat x00 (Z.to_nat fs - Z.to_nat (start k))).
    assert (len content = fs) as Lc.
    { unfold content, len. rewrite length_app, length_firstn, repeat_length.
      rewrite file_length. lia. }
    assert (sub32 (start (k + 1)) (start k) = start (k + 1) - start k) as ->
        by (unfold sub32, u32; apply Z.mod_small; lia).
    assert (unpackedSize_of be (blockSize m0) bc k = start (k + 1) - start k)
      as ->.
    { unfold unpackedSize_of. rewrite Hsingle, Hb.
      assert (sub32 bc 1 = bc - 1) as ->.
      { unfold sub32, u32. apply Z.mod_small. nia. }
      destruct (k <? bc - 1) eqn:Ek.
      - apply Z.ltb_lt in Ek.
        destruct (start_step (k + 1) ltac:(lia)) as (E1 & _ & _). lia.
      - apply Z.ltb_ge in Ek. assert (k = bc - 1) as Hkk by lia.
        assert (start (k + 1) = fs) as -> by (unfold start; nia).
        rewrite E. unfold sub32, mul32, u32.
        rewrite (Z.mul_comm bs k).
        rewrite (Z.mod_small (k * bs)) by lia. apply Z.mod_small. lia. }
    rewrite add64_small by lia.
    unfold Seek, Reader_Seek.
    assert ((base + start k <? 0) = false) as -> by (apply Z.ltb_ge; lia).
    cbv beta iota zeta. cbn [is_nil negb]. cbv beta iota zeta.
    unfold ReadFull. rewrite input_set_input. cbn [data]. rewrite Hd.
    destruct (Reader_ReadFull_enough d (base + start k)
                (start (k + 1) - start k)) as (r & R); try lia.
    pose proof (Reader_ReadFull_data (mkReader d (base + start k))
                  (start (k + 1) - start k)) as Dr.
    rewrite R in *. cbn [snd data] in Dr.
    cbv beta iota zeta. cbn [is_nil negb]. cbv beta iota zeta.
    rewrite Hencrypted.
    destruct (has_beFlagCompressed be Hcompressed) as (-> & ->).
    unfold slice. rewrite Lc.
    assert ((0 <=? start k) && (start k <=? fs) && (fs <=? fs) = true) as ->.
    { rewrite !andb_true_iff. repeat split; apply Z.leb_le; lia. }
    assert (add32 (start k) (start (k + 1) - start k) = start (k + 1)) as ->.
    { unfold add32, u32. rewrite Z.mod_small by lia. lia. }
    rewrite (firstn_all2 (n := Z.to_nat (fs - start k)))
      by (rewrite length_skipn; unfold len in Lc; lia).
    rewrite (sector_bytes k) by lia.
    unfold content.
    replace (Z.to_nat fs) with (List.length file) by apply file_length.
    rewrite sector_copied by (rewrite file_length; lia).
    replace (Z.to_nat (start k) + Z.to_nat (start (k + 1) - start k))%nat
      with (Z.to_nat (start (k + 1))) by lia.
    rewrite file_length. apply IH; try lia; assumption.
Qed.

End Sectors.

Lemma offsetTable_sectors (be : BlockEntry) (bc base : Z) (m : MPQ) :
  has be beFlagSingle = false -> has be beFlagCompressed = false ->
  0 <= bc < 2 ^ 32 - 2 ->
  exists pbo,
    offsetTable be bc base m = (Ret (inr pbo), m)
    /\ (forall j, 0 <= j < bc -> index pbo j = Some (mul32 j (blockSize m)))
    /\ index pbo bc = Some (be_blockSize be).
Proof.
  intros Hs Hc Hbc. unfold offsetTable, bind, get. rewrite Hc, Hs.
  cbn [andb negb].
  assert (add32 bc 1 = bc + 1) as ->
      by (unfold add32, u32; apply Z.mod_small; lia).
  assert (add32 (bc + 1) 1 = bc + 2) as ->
      by (unfold add32, u32; rewrite Z.mod_small; lia).
  set (temp := if has be beFlagExtra then bc + 2 else bc + 1).
  assert (bc + 1 <= temp) as Ht by (unfold temp; destruct (has be beFlagExtra); lia).
  assert (len (make 0 temp) = temp) as Lm by (apply make_len; lia).
  destruct (fillOffsets_within (Z.to_nat bc) (blockSize m) 0 (make 0 temp))
    as (p1 & F & L1); try lia.
  rewrite F.
  destruct (store_within p1 bc (be_blockSize be)) as (p2 & S2 & L2); [lia | ].
  rewrite S2. exists p2. split; [reflexivity | ].
  apply fillOffsets_index in F; [ | lia]. destruct F as (F1 & _).
  apply store_index in S2. destruct S2 as (S2 & S3).
  split; [ | exact S2].
  intros j Hj. rewrite S3 by lia. apply F1. lia.
Qed.

Section StoredSectors.

Variable decompressMulti : list byte -> list byte -> list byte * option error.


End StoredSectors.


(** ** A compressed file of one sector *)

(** A 32-bit word of the input. *)
Lemma binary_Read_word (m : MPQ) (off : Z) :
  0 <= off -> off + 4 <= len (data (input m)) ->
  pos (input m) = off ->
  binary_Read 4 0 m
  = (Ret (le_decode (inputBytes m off 4), None),
     set_input m (mkReader (data (input m)) (off + 4))).
Proof.
  intros Ho Hl Hp. unfold binary_Read, Reader_binary_Read, inputBytes.
  destruct (input m) as [d p] eqn:I. cbn [data pos] in *. subst p.
  destruct (Reader_ReadFull_enough d off 4) as (r & R); try lia.
  rewrite R. apply Reader_ReadFull_ok in R; [ | cbn; lia].
  destruct R as (_ & -> & _). reflexivity.
Qed.

Section CompressedSector.

Variable decompressMulti : list byte -> list byte -> list byte * option error.

(** X21. For a compressed file of one sector, not stored as a single unit
    and not encrypted, the two words at the offset of its data are the
    packed block offsets; the decompressor gets a window of the file size
    and the bytes between the two offsets, what it leaves in the window is
    the content, and its error, if any, is the error of FileByHash. *)
Theorem FileByHash_compressed_sector (fuel : nat) (h1 h2 h3 : Z) (m : MPQ)
  (i : Z) (be : BlockEntry) :
  lookup fuel h1 h2 h3 m = (Ret (Some (i, be)), m) ->
  extBlockEntryHighOffsets m = None ->
  blockInRange m be ->
  has be beFlagSingle = false ->
  has be beFlagExtra = false ->
  has be beFlagEncrypted = false ->
  has be beFlagCompressedMulti = true ->
  0 < fileSize be <= blockSize m -> fileSize be + blockSize m <= 2 ^ 32 ->
  let base := dataOffset m be in
  let lo := le_decode (inputBytes m base 4) in
  let hi := le_decode (inputBytes m (base + 4) 4) in
  base + 8 <= len (data (input m)) ->
  lo <= hi -> base + hi <= len (data (input m)) ->
  fst (FileByHash decompressMulti fuel h1 h2 h3 m)
  = Ret (match decompressMulti (make x00 (fileSize be))
                 (inputBytes m (base + lo) (hi - lo)) with
         | (_, Some e) => (None, Some e)
         | (c, None) => (Some c, None)
         end).
Proof.
  intros Hl Hx (Ho & Hb & Hf & Hu) Hs Hextra He Hc Hfs Hbs base lo hi
         Htab Hle Hin.
  assert (0 <= lo < 2 ^ 32 /\ 0 <= hi < 2 ^ 32) as (Hlo & Hhi).
  { unfold lo, hi, inputBytes.
    split;
      match goal with
      | |- _ <= le_decode ?l < _ =>
          pose proof (le_decode_range l) as R;
          assert (len l <= 4) as L
              by (unfold len; rewrite length_firstn; lia);
          assert (256 ^ len l <= 256 ^ 4) as P
              by (apply Z.pow_le_mono_r; unfold len in *; lia);
          change (256 ^ 4) with (2 ^ 32) in P; lia
      end. }
  unfold FileByHash, bind. rewrite Hl. unfold assemble, bind, get.
  rewrite Hx.
  set (base' := match userData m with
                | Some u => add64 (blockOffset be) (u_headerOffset u)
                | None => blockOffset be
                end).
  assert (base' = base /\ 0 <= base < 2 ^ 33) as (-> & Hbr).
  { unfold base', base, dataOffset. destruct (userData m) as [u | ].
    - rewrite add64_small by lia. lia.
    - lia. }
  unfold blocksCount_of. rewrite Hs.
  assert ((blockSize m =? 0) = false) as -> by (apply Z.eqb_neq; lia).
  assert (sub32 (add32 (fileSize be) (blockSize m)) 1 / blockSize m = 1) as ->.
  { unfold sub32, add32, u32. rewrite Zminus_mod_idemp_l.
    rewrite Z.mod_small by lia. symmetry.
    apply (Z.div_unique _ _ 1 (fileSize be - 1)); lia. }
  assert (has be beFlagCompressed = true) as Hcomp.
  { unfold has in *. apply negb_true_iff, Z.eqb_neq.
    apply negb_true_iff, Z.eqb_neq in Hc. intro Z0. apply Hc.
    change beFlagCompressedMulti
      with (Z.land beFlagCompressed beFlagCompressedMulti).
    rewrite Z.land_assoc, Z0. reflexivity. }
  unfold offsetTable, bind, get. rewrite Hcomp, Hs, Hextra. cbn [andb negb].
  change (add32 1 1) with 2.
  unfold Seek, Reader_Seek.
  assert ((base <? 0) = false) as -> by (apply Z.ltb_ge; lia).
  cbv beta iota zeta. cbn [is_nil negb]. cbv beta iota zeta.
  change (Z.to_nat 2) with 2%nat. cbn [loadOffsets]. unfold bind.
  rewrite (binary_Read_word _ base) by (cbn; lia).
  cbv beta iota zeta. cbn [input set_input data].
  rewrite (binary_Read_word _ (base + 4)) by (cbn; lia).
  cbv beta iota zeta. unfold ret. cbn [is_nil negb]. rewrite He.
  change (Z.to_nat 1) with 1%nat. cbn [readBlocks]. unfold bind, get.
  change (le_decode
            (inputBytes
               (set_input m {| data := data (input m); pos := base |}) base 4))
    with lo.
  change (le_decode
            (inputBytes
               (set_input
                  (set_input m {| data := data (input m); pos := base |})
                  {| data := data (input m); pos := base + 4 |})
               (base + 4) 4))
    with hi.
  change (index [lo; hi] (0 + 1)) with (Some hi).
  change (index [lo; hi] 0) with (Some lo).
  cbv beta iota zeta.
  assert (sub32 hi lo = hi - lo) as ->
      by (unfold sub32, u32; apply Z.mod_small; lia).
  rewrite add64_small by lia.
  unfold Seek, Reader_Seek.
  assert ((base + lo <? 0) = false) as -> by (apply Z.ltb_ge; lia).
  cbv beta iota zeta. cbn [is_nil negb]. cbv beta iota zeta.
  unfold ReadFull. cbn [input set_input data].
  destruct (Reader_ReadFull_enough (data (input m)) (base + lo) (hi - lo))
    as (r & ->); try lia.
  cbv beta iota zeta. cbn [is_nil negb]. rewrite He, Hc.
  unfold unpackedSize_of. rewrite Hs. cbn [blockSize set_input].
  change (sub32 1 1) with 0. rewrite Z.ltb_irrefl.
  assert (sub32 (fileSize be) (mul32 (blockSize m) 0) = fileSize be) as ->.
  { unfold sub32, mul32, u32. rewrite Z.mul_0_r. cbn [Z.modulo].
    change (0 mod 2 ^ 32) with 0. rewrite Z.sub_0_r.
    apply Z.mod_small. lia. }
  assert (add32 0 (fileSize be) = fileSize be) as ->
      by (unfold add32, u32; apply Z.mod_small; lia).
  assert (len (make x00 (fileSize be)) = fileSize be) as Lm
      by (apply make_len; lia).
  unfold slice. rewrite Lm.
  assert ((0 <=? 0) && (0 <=? fileSize be) && (fileSize be <=? fileSize be)
          = true) as ->.
  { rewrite Z.leb_refl. cbn [andb]. rewrite andb_true_iff.
    split; apply Z.leb_le; lia. }
  rewrite Z.sub_0_r. cbn [Z.to_nat skipn firstn app].
  rewrite (firstn_all2 (n := Z.to_nat (fileSize be)))
    by (unfold len in Lm; lia).
  rewrite (skipn_all2 (n := Z.to_nat (fileSize be)))
    by (unfold len in Lm; lia).
  unfold inputBytes.
  destruct (decompressMulti _ _) as [c [e | ]]; [reflexivity | ].
  rewrite app_nil_r. reflexivity.
Qed.

End CompressedSector.

Lemma FileByHash_compressed_sector_witness :
  fst (Sample.FileByHash 2 0 11 12 Sample.packed)
  = Ret (Some Sample.hello, None).
Proof.
  apply (FileByHash_compressed_sector Sample.decompressMulti 2 0 11 12
           Sample.packed 0
           (mkBlockEntry 80 14 5 (beFlagFile + beFlagCompressedMulti)));
    try reflexivity;
    vm_compute; repeat split; first [reflexivity | discriminate].
Defined.

(** ** A sector size of zero *)

Section ZeroSector.

Variable decrypt : list byte -> Z -> list byte.
Variable decompressMulti : list byte -> list byte -> list byte * option error.

(** X22. In an archive that New opened with a sector size shift of 23 or
    more the size of a sector is zero, and FileByHash panics with a division
    by zero at every file it finds that is not stored as a single unit. *)
Theorem FileByHash_zero_sector_size (i : Reader) (m : MPQ) (fuel : nat)
  (h1 h2 h3 : Z) (j : Z) (be : BlockEntry) :
  New decrypt i = Ret (Some m, None) ->
  23 <= sectorSizeShift (header m) ->
  lookup fuel h1 h2 h3 m = (Ret (Some (j, be)), m) ->
  extBlockEntryHighOffsets m = None ->
  has be beFlagSingle = false ->
  blockSize m = 0
  /\ FileByHash decompressMulti fuel h1 h2 h3 m = (Panic DivideByZero, m).
Proof.
  intros HN Hs Hl Hx Hsingle.
  destruct (New_inv decrypt i m HN) as (_ & _ & B & _).
  assert (blockSize m = 0) as Hz.
  { rewrite B. unfold shl32, u32. rewrite Z.shiftl_mul_pow2 by lia.
    replace (sectorSizeShift (header m))
      with (23 + (sectorSizeShift (header m) - 23)) by lia.
    rewrite Z.pow_add_r by lia.
    replace (512 * (2 ^ 23 * 2 ^ (sectorSizeShift (header m) - 23)))
      with (2 ^ (sectorSizeShift (header m) - 23) * 2 ^ 32) by lia.
    apply Z_mod_mult. }
  split; [exact Hz | ].
  unfold FileByHash, bind. rewrite Hl. unfold assemble, bind, get.
  rewrite Hx. unfold blocksCount_of. rewrite Hsingle, Hz.
  destruct (userData m); reflexivity.
Qed.

End ZeroSector.

Lemma FileByHash_zero_sector_size_witness :
  blockSize More.zeroSector = 0
  /\ Sample.FileByHash 2 0 11 12 More.zeroSector
     = (Panic DivideByZero, More.zeroSector).
Proof.
  apply (FileByHash_zero_sector_size Crypt.decrypt Sample.decompressMulti
           (NewReader More.zeroSectorBytes) More.zeroSector 2 0 11 12 0
           (mkBlockEntry 80 5 5 beFlagFile)).
  - vm_compute. reflexivity.
  - vm_compute. discriminate.
  - vm_compute. reflexivity.
  - reflexivity.
  - reflexivity.
Defined.
